(** * Signal11: a shallow embedding of [Signal.h]

    The header implements a multicast callback list as a doubly-linked ring
    of reference-counted [SignalLink] nodes, anchored in a [ProtoSignal] by
    the pointer [_callbackRing].  This file embeds the free store, the node
    methods, the signal methods, the connection handle and the collectors as
    executable Rocq functions in a state-and-error monad, and states the
    properties of the emission protocol over them.

    Left out: [SignalLink::deactivate] (it names a member [next] that
    [SignalLink] does not have, so it is never instantiated), the
    member-function overloads of [connect], the move constructors of
    [ProtoSignal] and [Signal], and the members that go through the deleted
    or private copy operations. *)

From stdpp Require Import gmap list.
From Stdlib Require Import ZArith Lia.

Set Default Proof Using "Type".

(** ** Outcomes of running a piece of the header *)

(** The [assert]s of the header, one name per site. *)
Inductive assertion : Set :=
| link_not_null            (* ConnectionRef::ConnectionRef   assert(link != nullptr)              *)
| refCount_zero_at_delete  (* SignalLink::~SignalLink        assert(_refCount == 0)               *)
| refCount_positive_incref (* SignalLink::incref             assert(_refCount > 0)                *)
| refCount_positive_decref (* SignalLink::decref             assert(_refCount > 0)                *)
| ring_refCount_ge_2.      (* ProtoSignal::~ProtoSignal      assert(_callbackRing->_refCount >= 2) *)

Inductive outcome (A : Type) : Type :=
| Done (a : A)               (* normal completion *)
| Abort (which : assertion)  (* a failed assert aborts the process *)
| Undefined                  (* a null or dangling pointer was dereferenced *)
| Diverge.                   (* the loop budget of the model ran out *)

Arguments Done {A} a.
Arguments Abort {A} which.
Arguments Undefined {A}.
Arguments Diverge {A}.

(** Addresses of the free store; a pointer is [option addr], [None] being
    [nullptr]. *)
Abbreviation addr := nat (only parsing).

(** [int] arithmetic: the value of a 32-bit two's complement register. *)
Definition int_wrap (z : Z) : Z := ((z + 2147483648) mod 4294967296 - 2147483648)%Z.

Section Store.

(** [Callback] names the targets a [std::function<R (Args...)>] can hold;
    an empty [std::function] is [None]. *)
Context {Callback : Type}.

(** [struct SignalLink : ProtoSignalLink].  [_enabled] is the member
    inherited from [ProtoSignalLink]. *)
Record SignalLink : Type := mkLink {
  _enabled : bool;
  _next : option addr;
  _prev : option addr;
  _callbackFunc : option Callback;
  _refCount : Z
}.

Definition with_enabled (b : bool) (n : SignalLink) : SignalLink :=
  mkLink b (_next n) (_prev n) (_callbackFunc n) (_refCount n).
Definition with_next (p : option addr) (n : SignalLink) : SignalLink :=
  mkLink (_enabled n) p (_prev n) (_callbackFunc n) (_refCount n).
Definition with_prev (p : option addr) (n : SignalLink) : SignalLink :=
  mkLink (_enabled n) (_next n) p (_callbackFunc n) (_refCount n).
Definition with_callbackFunc (f : option Callback) (n : SignalLink) : SignalLink :=
  mkLink (_enabled n) (_next n) (_prev n) f (_refCount n).
Definition with_refCount (c : Z) (n : SignalLink) : SignalLink :=
  mkLink (_enabled n) (_next n) (_prev n) (_callbackFunc n) c.

(** The state a [ProtoSignal] lives in.
    - [store]: the live [SignalLink] objects of the free store;
    - [allocs], [raw]: [operator new] hands out storage whose content is
      indeterminate; [raw k] is what the [_enabled] byte of the storage of
      the [k]-th allocation holds, and [allocs] counts the allocations;
    - [_callbackRing]: the one data member of the signal;
    - [invoked]: ghost record of the invocations made by [emit], as pairs
      of the node visited and the callback it held. *)
Record State : Type := mkState {
  store : gmap addr SignalLink;
  allocs : nat;
  raw : nat → bool;
  _callbackRing : option addr;
  invoked : list (addr * Callback)
}.

Definition with_store (h : gmap addr SignalLink) (w : State) : State :=
  mkState h (allocs w) (raw w) (_callbackRing w) (invoked w).
Definition with_ring (r : option addr) (w : State) : State :=
  mkState (store w) (allocs w) (raw w) r (invoked w).
Definition with_invoked (t : list (addr * Callback)) (w : State) : State :=
  mkState (store w) (allocs w) (raw w) (_callbackRing w) t.

(** The state before any signal is constructed. *)
Definition boot (bits : nat → bool) : State := mkState ∅ 0 bits None [].

(** Computations over the state that may abort, fault or diverge. *)
Definition M (A : Type) : Type := State → outcome (A * State).

Definition ret {A} (a : A) : M A := λ w, Done (a, w).
Definition bind {A B} (m : M A) (k : A → M B) : M B :=
  λ w, match m w with
       | Done (a, w') => k a w'
       | Abort q => Abort q
       | Undefined => Undefined
       | Diverge => Diverge
       end.
Definition assert (b : bool) (which : assertion) : M unit :=
  λ w, if b then Done (tt, w) else Abort which.
Definition undefined {A} : M A := λ _, Undefined.
Definition diverge {A} : M A := λ _, Diverge.

End Store.

Arguments SignalLink Callback : clear implicits.
Arguments State Callback : clear implicits.
Arguments M Callback A : clear implicits.

Notation "x <- m ;; k" := (bind m (λ x, k))
(at level 100, m at next level, right associativity, only parsing).
Notation "m ;; k" := (bind m (λ _, k))
(at level 100, right associativity, only parsing).

(** ** The free store and [SignalLink]'s methods *)

Section Link.

Context {Callback : Type}.

Local Abbreviation Link := (SignalLink Callback).
Local Abbreviation St := (State Callback).
Local Abbreviation Run := (M Callback).

(** Reading [*this]; a pointer to storage that holds no live node is
    dangling. *)
Definition load (this : addr) : Run Link :=
  λ w, match store w !! this with
       | Some n => Done (n, w)
       | None => Undefined
       end.

Definition put (this : addr) (n : Link) : Run unit :=
  λ w, Done (tt, with_store (<[this := n]> (store w)) w).

(** Assigning one member of [*this]. *)
Definition update (this : addr) (f : Link → Link) : Run unit :=
  n <- load this ;; put this (f n).

(** Going through a pointer that may be [nullptr]. *)
Definition deref (p : option addr) : Run addr :=
  match p with
  | Some a => ret a
  | None => undefined
  end.

(** [explicit SignalLink(const CallbackFunction &callback)
      :_next(nullptr), _prev(nullptr), _callbackFunc(callback), _refCount(1)]
    run on storage from [operator new].  No initialiser mentions [_enabled]:
    the member keeps what the storage held. *)
Definition new_SignalLink (callback : option Callback) : Run addr :=
  λ w, let a := fresh (dom (store w)) in
       let n := mkLink (raw w (allocs w)) None None callback 1 in
       Done (a, mkState (<[a := n]> (store w)) (S (allocs w)) (raw w)
                        (_callbackRing w) (invoked w)).

(** [delete this]: [~SignalLink() { assert(_refCount == 0); }], then the
    storage is released. *)
Definition delete_SignalLink (this : addr) : Run unit :=
  n <- load this ;;
  assert (_refCount n =? 0)%Z refCount_zero_at_delete ;;
  λ w, Done (tt, with_store (delete this (store w)) w).

(** [void incref() { _refCount += 1; assert(_refCount > 0); }] *)
Definition incref (this : addr) : Run unit :=
  update this (λ n, with_refCount (int_wrap (_refCount n + 1)) n) ;;
  n <- load this ;;
  assert (0 <? _refCount n)%Z refCount_positive_incref.

(** [void decref()]: decrement; at zero [delete this], otherwise
    [assert(_refCount > 0)]. *)
Definition decref (this : addr) : Run unit :=
  update this (λ n, with_refCount (int_wrap (_refCount n - 1)) n) ;;
  n <- load this ;;
  if (_refCount n =? 0)%Z then delete_SignalLink this
  else assert (0 <? _refCount n)%Z refCount_positive_decref.

(** [void unlink()]: empty the callback, bridge the neighbours over this
    node, drop one reference; the node's own [_next] and [_prev] stay. *)
Definition unlink (this : addr) : Run unit :=
  update this (with_callbackFunc None) ;;
  n <- load this ;;
  match _next n with
  | Some nx => update nx (with_prev (_prev n))      (* _next->_prev = _prev; *)
  | None => ret tt
  end ;;
  n <- load this ;;
  match _prev n with
  | Some pv => update pv (with_next (_next n))      (* _prev->_next = _next; *)
  | None => ret tt
  end ;;
  decref this.

(** [SignalLink* addBefore(const CallbackFunction &callback)] *)
Definition addBefore (this : addr) (callback : option Callback) : Run addr :=
  link <- new_SignalLink callback ;;
  n <- load this ;;
  update link (with_prev (_prev n)) ;;               (* link->_prev = _prev;  *)
  update link (with_next (Some this)) ;;             (* link->_next = this;   *)
  n <- load this ;;
  last <- deref (_prev n) ;;
  update last (with_next (Some link)) ;;             (* _prev->_next = link;  *)
  update this (with_prev (Some link)) ;;             (* _prev = link;         *)
  ret link.

(** The [for] loop of [removeSibling]: [link] is the loop variable, the
    test [link != this] comes first, the step is [link = link->_next]. *)
Fixpoint removeSibling_from (fuel : nat) (this : addr) (id : option addr)
    (link : option addr) : Run bool :=
  match fuel with
  | O => diverge
  | S fuel' =>
      if decide (link = Some this) then ret false
      else if decide (id = link) then
        a <- deref link ;; unlink a ;; ret true
      else
        a <- deref link ;;
        n <- load a ;;
        removeSibling_from fuel' this id (_next n)
  end.

(** [bool removeSibling(SignalLink *id)] *)
Definition removeSibling (fuel : nat) (this : addr) (id : option addr) : Run bool :=
  n <- load this ;;
  let link := match _next n with Some nx => Some nx | None => Some this end in
  removeSibling_from fuel this id link.

(** [bool remove()] *)
Definition remove (fuel : nat) (this : addr) : Run bool :=
  n <- load this ;;
  match _next n with
  | None => ret false
  | Some nx => removeSibling fuel nx (Some this)
  end.

(** [ProtoSignalLink::setEnabled], [isEnabled] *)
Definition link_setEnabled (this : addr) (flag : bool) : Run unit :=
  update this (with_enabled flag).

Definition link_isEnabled (this : addr) : Run bool :=
  n <- load this ;; ret (_enabled n).

End Link.

(** ** Collectors *)

(** What the collectors ask of the result type: value-initialisation [R()]
    and the contextual conversion to [bool]. *)
Class ResultType (R : Type) : Type := {
  value_init : R;
  to_bool : R → bool
}.

Global Instance bool_ResultType : ResultType bool :=
  {| value_init := false; to_bool := λ b, b |}.

(** [int]: [int()] is zero, and every non-zero value converts to [true]. *)
Global Instance int_ResultType : ResultType Z :=
  {| value_init := 0%Z; to_bool := λ z, negb (z =? 0)%Z |}.

(** The collector concept used by [emit]: a default constructor, the call
    operator and [result()].  [Storage] is what the default constructor
    leaves indeterminate: the content of the members no initialiser
    mentions. *)
Record Collector (R : Type) : Type := mkCollector {
  CollectorState : Type;
  CollectorResult : Type;
  Storage : Type;
  construct : Storage → CollectorState;
  collect : CollectorState → R → CollectorState * bool;
  result : CollectorState → CollectorResult
}.

Arguments CollectorState {R} _.
Arguments CollectorResult {R} _.
Arguments Storage {R} _.
Arguments construct {R} _ _.
Arguments collect {R} _ _ _.
Arguments result {R} _ _.

(** [CollectorLast<Result>]: [explicit CollectorLast() {}] has no
    initialiser for [_last]. *)
Definition CollectorLast (R : Type) : Collector R :=
  {| CollectorState := R;
     CollectorResult := R;
     Storage := R;
     construct := λ _last, _last;
     collect := λ _ r, (r, true);
     result := λ _last, _last |}.

(** [class CollectorDefault : CollectorLast<Result> {}]: the default
    collector of a signal with a non-void result has the members of
    [CollectorLast]. *)
Definition CollectorDefault (R : Type) : Collector R := CollectorLast R.

(** [CollectorDefault<void>]; a [void] result is [unit]. *)
Definition CollectorDefault_void : Collector unit :=
  {| CollectorState := unit;
     CollectorResult := unit;
     Storage := unit;
     construct := λ _, tt;
     collect := λ _ _, (tt, true);
     result := λ _, tt |}.

(** [CollectorUntil0<Result>]: [_result()] in the constructor;
    [_result = r; return _result ? true : false;] *)
Definition CollectorUntil0 (R : Type) `{ResultType R} : Collector R :=
  {| CollectorState := R;
     CollectorResult := R;
     Storage := unit;
     construct := λ _, value_init;
     collect := λ _ r, (r, if to_bool r then true else false);
     result := λ _result, _result |}.

(** [CollectorWhile0<Result>]: [_result = r; return _result ? false : true;] *)
Definition CollectorWhile0 (R : Type) `{ResultType R} : Collector R :=
  {| CollectorState := R;
     CollectorResult := R;
     Storage := unit;
     construct := λ _, value_init;
     collect := λ _ r, (r, if to_bool r then false else true);
     result := λ _result, _result |}.

(** [CollectorVector<Result>]: [_result.push_back(r); return true;] *)
Definition CollectorVector (R : Type) : Collector R :=
  {| CollectorState := list R;
     CollectorResult := list R;
     Storage := unit;
     construct := λ _, [];
     collect := λ _result r, (_result ++ [r], true);
     result := λ _result, _result |}.

(** ** [ConnectionRef] and [ProtoSignal] *)

(** [class ConnectionRef]: the one member [_link]. *)
Record ConnectionRef : Set := mkRef { _link : option addr }.

Section Signal.

Context {Callback Args R : Type}.

Local Abbreviation Run := (M Callback).

Definition get_callbackRing : Run (option addr) := λ w, Done (_callbackRing w, w).
Definition set_callbackRing (p : option addr) : Run unit := λ w, Done (tt, with_ring p w).

(** [void ensureRing()] *)
Definition ensureRing : Run unit :=
  ring <- get_callbackRing ;;
  match ring with
  | Some _ => ret tt
  | None =>
      a <- new_SignalLink None ;;          (* new SignalLink(CallbackFunction()) *)
      set_callbackRing (Some a) ;;
      incref a ;;
      update a (with_next (Some a)) ;;
      update a (with_prev (Some a))
  end.

(** [ProtoSignal(const CallbackFunction &method)] *)
Definition ProtoSignal_ctor (method : option Callback) : Run unit :=
  set_callbackRing None ;;
  match method with
  | Some _ =>
      ensureRing ;;
      ring <- get_callbackRing ;;
      a <- deref ring ;;
      update a (with_callbackFunc method)  (* _callbackRing->_callbackFunc = method; *)
  | None => ret tt
  end.

(** The [while] loop of the destructor. *)
Fixpoint unlink_all (fuel : nat) (ring : addr) : Run unit :=
  match fuel with
  | O => diverge
  | S fuel' =>
      n <- load ring ;;
      if decide (_next n = Some ring) then ret tt
      else
        nx <- deref (_next n) ;;
        unlink nx ;;
        unlink_all fuel' ring
  end.

(** [~ProtoSignal()] *)
Definition ProtoSignal_dtor (fuel : nat) : Run unit :=
  ring <- get_callbackRing ;;
  match ring with
  | None => ret tt
  | Some a =>
      unlink_all fuel a ;;
      n <- load a ;;
      assert (2 <=? _refCount n)%Z ring_refCount_ge_2 ;;
      decref a ;;
      decref a
  end.

(** [ConnectionRef(Lib::ProtoSignalLink *link)] *)
Definition ConnectionRef_ctor (link : option addr) : Run ConnectionRef :=
  assert (bool_decide (link ≠ None)) link_not_null ;;
  ret (mkRef link).

(** [ConnectionRef connect(const CallbackFunction &callback)] *)
Definition connect (callback : option Callback) : Run ConnectionRef :=
  ensureRing ;;
  ring <- get_callbackRing ;;
  a <- deref ring ;;
  link <- addBefore a callback ;;
  ConnectionRef_ctor (Some link).

(** [bool ConnectionRef::disconnect()], returning the handle as it is left. *)
Definition ConnectionRef_disconnect (fuel : nat) (ref : ConnectionRef)
    : Run (bool * ConnectionRef) :=
  match _link ref with
  | Some link =>
      b <- remove fuel link ;;
      ret (b, mkRef None)
  | None => ret (false, ref)
  end.

(** [bool disconnect(ConnectionRef &connectionRef)] *)
Definition disconnect (fuel : nat) (ref : ConnectionRef) : Run (bool * ConnectionRef) :=
  ConnectionRef_disconnect fuel ref.

(** [bool disconnect(SignalLink *link)] *)
Definition disconnect_link (fuel : nat) (link : option addr) : Run bool :=
  ring <- get_callbackRing ;;
  match ring with
  | Some a => removeSibling fuel a link
  | None => ret false
  end.

(** [ConnectionRef::isEnabled], [enable], [disable], [setEnabled] *)
Definition isEnabled (ref : ConnectionRef) : Run bool :=
  a <- deref (_link ref) ;; link_isEnabled a.

Definition setEnabled (ref : ConnectionRef) (flag : bool) : Run unit :=
  a <- deref (_link ref) ;; link_setEnabled a flag.

Definition enable (ref : ConnectionRef) : Run unit := setEnabled ref true.
Definition disable (ref : ConnectionRef) : Run unit := setEnabled ref false.

(** *** Emission *)

(** [call f args] is what running the target [f] of a [std::function] on
    [args] does: it may use the signal (the state is passed through it) and
    returns the callback's result. *)
Variable call : Callback → Args → Run R.

Variable C : Collector R.

(** Ghost: note that [emit] invokes the callback held by [link]. *)
Definition note (link : addr) (f : Callback) : Run unit :=
  λ w, Done (tt, with_invoked (invoked w ++ [(link, f)]) w).

(** [CollectorInvocation::invoke]: [return collector(callback(args...));] *)
Definition invoke (collector : CollectorState C) (f : Callback) (args : Args)
    : Run (CollectorState C * bool) :=
  r <- call f args ;;
  ret (collect C collector r).

(** The [do ... while (link != _callbackRing)] loop of [emit]; it returns
    the node the loop is left on and the collector. *)
Fixpoint emit_loop (fuel : nat) (args : Args) (link : addr)
    (collector : CollectorState C) : Run (addr * CollectorState C) :=
  match fuel with
  | O => diverge
  | S fuel' =>
      n <- load link ;;
      step <- (if _enabled n then
                 match _callbackFunc n with
                 | Some f => note link f ;; invoke collector f args
                 | None => ret (collector, true)
                 end
               else ret (collector, true)) ;;
      let '(collector', continueEmission) := step in
      if negb continueEmission then ret (link, collector')        (* break *)
      else
        old <- load link ;;
        next <- deref (_next old) ;;                              (* link = old->_next *)
        incref next ;;
        decref link ;;
        ring <- get_callbackRing ;;
        if decide (Some next = ring) then ret (next, collector')
        else emit_loop fuel' args next collector'
  end.

(** [CollectorResult emit(Args... args)] *)
Definition emit (fuel : nat) (junk : Storage C) (args : Args) : Run (CollectorResult C) :=
  let collector := construct C junk in
  ring <- get_callbackRing ;;
  match ring with
  | None => ret (result C collector)
  | Some a =>
      incref a ;;
      end_ <- emit_loop fuel args a collector ;;
      decref (fst end_) ;;
      ret (result C (snd end_))
  end.

End Signal.

(** ** The shape of a ring *)

Section Ring.

Context {Callback : Type}.

Local Abbreviation Link := (SignalLink Callback).

(** Node [a] is live, its [_prev] is [pv] and its [_next] is [nx]. *)
Definition linked (h : gmap addr Link) (pv a nx : addr) : Prop :=
  match h !! a with
  | Some n => _prev n = Some pv ∧ _next n = Some nx
  | None => False
  end.

(** The nodes [l] are linked one after the other, the first one's [_prev]
    being [pv] and the last one's [_next] being [z]. *)
Fixpoint chain (h : gmap addr Link) (pv : addr) (l : list addr) (z : addr) : Prop :=
  match l with
  | [] => True
  | a :: l' => linked h pv a (hd z l') ∧ chain h a l' z
  end.

(** The distinct nodes [c] form a closed doubly-linked ring, in this
    order. *)
Definition cycle (h : gmap addr Link) (c : list addr) : Prop :=
  NoDup c ∧ chain h (List.last c 0) c (hd 0 c).

(** Every node of [c] is live with a reference count that a traversal can
    still raise by the two references it takes at most. *)
Definition counted (h : gmap addr Link) (c : list addr) : Prop :=
  Forall (λ a, match h !! a with
               | Some n => (1 ≤ _refCount n < 2147483646)%Z
               | None => False
               end) c.

(** What a node carries besides its two links. *)
Definition payload (n : Link) : bool * option Callback * Z :=
  (_enabled n, _callbackFunc n, _refCount n).

(** The reference count of the node at [a], if it is live. *)
Definition refs (h : gmap addr Link) (a : addr) : option Z := _refCount <$> h !! a.

(** A signal outside of any emission: the ring is made of the sentinel [s]
    followed by the connected nodes [l] in connection order; the sentinel
    holds the anchor's two references, every other node one. *)
Definition at_rest (w : State Callback) (s : addr) (l : list addr) : Prop :=
  _callbackRing w = Some s ∧
  cycle (store w) (s :: l) ∧
  refs (store w) s = Some 2%Z ∧
  Forall (λ a, refs (store w) a = Some 1%Z) l.

End Ring.

(** ** Emission over a ring, abstractly *)

Section Sweep.

Context {Callback Args R : Type}.

Local Abbreviation Link := (SignalLink Callback).

(** The store with one more reference on node [a]: what a traversal
    standing on [a] sees. *)
Definition held (h : gmap addr Link) (a : addr) : gmap addr Link :=
  alter (λ n, with_refCount (_refCount n + 1) n) a h.

(** The callback [emit] finds at node [a]: the node is enabled and its
    callback is not empty. *)
Definition active (h : gmap addr Link) (a : addr) : option Callback :=
  match h !! a with
  | Some n => if _enabled n then _callbackFunc n else None
  | None => None
  end.

(** Callbacks that compute their result from the arguments and leave the
    signal alone. *)
Variable val : Callback → Args → R.

Definition pure_call (f : Callback) (args : Args) : M Callback R := ret (val f args).

Variable C : Collector R.

(** One pass over the nodes [links], feeding the collector with the result
    of every active callback until it asks to stop.  The result is the node
    at which the collector stopped the pass, if it did, the collector, and
    the invocations made, in order. *)
Fixpoint sweep (h : gmap addr Link) (args : Args) (links : list addr)
    (collector : CollectorState C)
    : option addr * CollectorState C * list (addr * Callback) :=
  match links with
  | [] => (None, collector, [])
  | a :: rest =>
      match active h a with
      | Some f =>
          let step := collect C collector (val f args) in
          if snd step then
            let '(e, c, t) := sweep h args rest (fst step) in (e, c, (a, f) :: t)
          else (Some a, fst step, [(a, f)])
      | None => sweep h args rest collector
      end
  end.

(** The invocations of a pass over [links] that is never stopped: the
    active callbacks of the nodes, in order. *)
Definition visits (h : gmap addr Link) (links : list addr) : list (addr * Callback) :=
  omap (λ a, pair a <$> active h a) links.

(** The collector after it was fed the results of the invocations [tr]. *)
Definition fed (args : Args) (collector : CollectorState C) (tr : list (addr * Callback))
    : CollectorState C :=
  foldl (λ c p, fst (collect C c (val (snd p) args))) collector tr.

(** Where the loop of [emit] goes after a node whose successors in the
    ring before the sentinel [s] are [post]: back to the sentinel, where it
    ends, or on to the next node.  [h] is the store without the traversal's
    reference. *)
Definition onward (call : Callback → Args → M Callback R) (h : gmap addr Link) (k : nat)
    (bits : nat → bool) (s : addr) (args : Args) (fuel : nat) (post : list addr)
    (col : CollectorState C) (tr : list (addr * Callback))
    : outcome ((addr * CollectorState C) * State Callback) :=
  match post with
  | [] => Done ((s, col), mkState (held h s) k bits (Some s) tr)
  | b :: _ => emit_loop call C fuel args b col (mkState (held h b) k bits (Some s) tr)
  end.

End Sweep.

(** ** Using a signal through its public interface *)

Section Client.

Context {Callback Args R : Type}.

Variable val : Callback → Args → R.
Variable C : Collector R.

(** The calls a client makes on one signal from outside of any emission.
    The handles [connect] returned are kept in a list, in the order they
    were obtained, and named by their position. *)
Inductive Op : Type :=
| Connect (callback : option Callback)
| Disconnect (i : nat)
| SetEnabled (i : nat) (flag : bool)
| Emit (junk : Storage C) (args : Args).

Definition run_op (fuel : nat) (op : Op) (handles : list ConnectionRef)
    : M Callback (list ConnectionRef) :=
  match op with
  | Connect callback =>
      ref <- connect callback ;; ret (handles ++ [ref])
  | Disconnect i =>
      match handles !! i with
      | Some ref => r <- disconnect fuel ref ;; ret (<[i := snd r]> handles)
      | None => ret handles
      end
  | SetEnabled i flag =>
      match handles !! i with
      | Some ref => setEnabled ref flag ;; ret handles
      | None => ret handles
      end
  | Emit junk args =>
      emit (pure_call val) C fuel junk args ;; ret handles
  end.

Fixpoint run_ops (fuel : nat) (ops : list Op) (handles : list ConnectionRef)
    : M Callback (list ConnectionRef) :=
  match ops with
  | [] => ret handles
  | op :: ops' => handles' <- run_op fuel op handles ;; run_ops fuel ops' handles'
  end.

(** A signal constructed with [method] and then used. *)
Definition session (fuel : nat) (method : option Callback) (ops : list Op)
    : M Callback (list ConnectionRef) :=
  ProtoSignal_ctor method ;; run_ops fuel ops [].

(** The outcome [o] of a piece of client code is a normal completion that
    satisfies [P], or undefined behaviour under the circumstances [U]; no
    assertion fired and the loops ended. *)
Definition ends {A} (U : Prop) (P : A → State Callback → Prop)
    (o : outcome (A * State Callback)) : Prop :=
  match o with
  | Done (a, w) => P a w
  | Undefined => U
  | Abort _ | Diverge => False
  end.

Definition is_SetEnabled (op : Op) : Prop :=
  match op with
  | SetEnabled _ _ => True
  | _ => False
  end.


(** The non-null handles of the client point to distinct connected nodes. *)
Definition handles_ok (l : list addr) (handles : list ConnectionRef) : Prop :=
  (∀ i a, handles !! i = Some (mkRef (Some a)) → a ∈ l) ∧
  (∀ i j a, handles !! i = Some (mkRef (Some a)) →
            handles !! j = Some (mkRef (Some a)) → i = j).

(** What holds of a signal constructed with [method] between two calls of
    its client: either the ring was never made, or the signal is at rest,
    its sentinel holds [method], and the sentinel was only ever invoked for
    [method]. *)
Definition client_ok (method : option Callback) (bound : nat)
    (handles : list ConnectionRef) (w : State Callback) : Prop :=
  match _callbackRing w with
  | None =>
      method = None ∧ invoked w = [] ∧ Forall (λ ref, _link ref = None) handles
  | Some s =>
      ∃ l, at_rest w s l ∧
           _callbackFunc <$> store w !! s = Some method ∧
           length l ≤ bound ∧
           (∀ a f, (a, f) ∈ invoked w → a = s → method = Some f) ∧
           handles_ok l handles
  end.

End Client.

Arguments Connect {Callback Args R C} callback.
Arguments Disconnect {Callback Args R C} i.
Arguments SetEnabled {Callback Args R C} i flag.
Arguments Emit {Callback Args R C} junk args.
Arguments is_SetEnabled {Callback Args R C} op.

(** ** Scenarios *)

Section Scenarios.

Context {Callback Args R : Type}.

(** A signal constructed without a default callback, on which [f1], [f2]
    and [f3] are connected in this order; the handles are dropped and
    nothing is enabled or disabled. *)
Definition three_connected (f1 f2 f3 : Callback) : M Callback unit :=
  ProtoSignal_ctor None ;;
  connect (Some f1) ;;
  connect (Some f2) ;;
  connect (Some f3) ;;
  ret tt.

(** A signal constructed without a default callback, on which [f] is
    connected. *)
Definition one_connected (f : Callback) : M Callback ConnectionRef :=
  ProtoSignal_ctor None ;;
  connect (Some f).

(** A callback [f] whose body connects [g] to the signal it is called
    from before it returns; every other callback leaves the signal alone. *)
Definition connecting_call `{EqDecision Callback} (val : Callback → Args → R)
    (f g : Callback) : Callback → Args → M Callback R :=
  λ f' args,
    if decide (f' = f) then connect (Some g) ;; ret (val f' args)
    else ret (val f' args).

(** A signal on which [f] is connected and enabled through its handle, then
    emitted under the Vector collector with callbacks that behave as
    [call] says. *)
Definition enabled_then_emitted (call : Callback → Args → M Callback R) (f : Callback)
    (fuel : nat) (args : Args) : M Callback (list R) :=
  ProtoSignal_ctor None ;;
  ref <- connect (Some f) ;;
  enable ref ;;
  emit call (CollectorVector R) fuel tt args.

(** The callbacks invoked during a run, in order. *)
Definition calls (w : State Callback) : list Callback := (invoked w).*2.

End Scenarios.

(** ** Deciding the shape of a concrete state *)

Section Deciding.

Context {Callback : Type}.

Local Abbreviation Link := (SignalLink Callback).

Global Instance linked_dec (h : gmap addr Link) pv a nx : Decision (linked h pv a nx).
Proof. unfold linked. destruct (h !! a); apply _. Defined.

Global Instance chain_dec (h : gmap addr Link) pv l z : Decision (chain h pv l z).
Proof. revert pv. induction l as [|a l IH]; intros pv; simpl; apply _. Defined.

Global Instance cycle_dec (h : gmap addr Link) c : Decision (cycle h c).
Proof. unfold cycle. apply _. Defined.

Global Instance counted_dec (h : gmap addr Link) c : Decision (counted h c).
Proof.
  unfold counted. apply Forall_dec. intros a. destruct (h !! a); apply _.
Defined.

Global Instance at_rest_dec (w : State Callback) s l : Decision (at_rest w s l).
Proof. unfold at_rest, refs. apply _. Defined.

End Deciding.

(** ** Concrete signals *)

(** The signal after [three_connected 10 20 30] on storage whose
    [_enabled] bytes read [true]: callbacks are named by numbers. *)
Definition ring3 : State nat :=
  mkState (list_to_map [(0, mkLink true (Some 1) (Some 3) None 2);
                        (1, mkLink true (Some 2) (Some 0) (Some 10) 1);
                        (2, mkLink true (Some 3) (Some 1) (Some 20) 1);
                        (3, mkLink true (Some 0) (Some 2) (Some 30) 1)])
          4 (λ _, true) (Some 0) [].

(** A sentinel that reports no reference at all. *)
Definition spent : State nat :=
  mkState {[0 := mkLink true (Some 0) (Some 0) None 0]} 1 (λ _, true) (Some 0) [].

(** Callbacks named by numbers that return their own name. *)
Definition own_name (f : nat) (_ : unit) : nat := f.

(** A client that connects a callback, emits, disconnects it and emits
    again. *)
Definition connect_emit_disconnect_emit : list (@Op nat unit nat (CollectorVector nat)) :=
  [Connect (Some 10); Emit (C := CollectorVector nat) tt tt; Disconnect 0;
   Emit (C := CollectorVector nat) tt tt].


(** ** What the collector lets through *)

Section Cut.

Context {Callback Args R : Type}.

Variable val : Callback → Args → R.
Variable C : Collector R.

(** Of the invocations [tr] a pass would make if nothing stopped it, those
    it makes under the collector: all up to and including the first whose
    result makes the collector ask to stop. *)
Fixpoint cut (args : Args) (collector : CollectorState C) (tr : list (addr * Callback))
    : list (addr * Callback) :=
  match tr with
  | [] => []
  | p :: tr' =>
      let step := collect C collector (val (snd p) args) in
      p :: (if snd step then cut args (fst step) tr' else [])
  end.

End Cut.

(** Numbered callbacks whose result tells whether they are callback 20. *)
Definition is_20 (f : nat) (_ : unit) : bool := bool_decide (f = 20).

(** Numbered callbacks that return their own number as an [int]. *)
Definition own_number (f : nat) (_ : unit) : Z := Z.of_nat f.

(** Numbered callbacks whose result tells whether they are another
    callback than 20. *)
Definition not_20 (f : nat) (_ : unit) : bool := negb (bool_decide (f = 20)).

(** ** Handles that own their connection *)

Section Scope.

Context {Callback : Type}.

Local Abbreviation Run := (M Callback).

(** [ConnectionRef(ConnectionRef &&other)]: the new handle takes the
    pointer, [other._link = nullptr].  The result is the new handle and
    [other] as it is left. *)
Definition ConnectionRef_move (other : ConnectionRef) : ConnectionRef * ConnectionRef :=
  (mkRef (_link other), mkRef None).

(** [ConnectionRef& operator=(ConnectionRef &&other)]: the two pointers
    are swapped.  The result is [*this] and [other] as they are left. *)
Definition ConnectionRef_move_assign (this other : ConnectionRef)
    : ConnectionRef * ConnectionRef :=
  (mkRef (_link other), mkRef (_link this)).

(** [~ScopedConnectionRef() { disconnect(); }] *)
Definition ScopedConnectionRef_dtor (fuel : nat) (ref : ConnectionRef) : Run unit :=
  ConnectionRef_disconnect fuel ref ;; ret tt.

(** [class ConnectionScope]: its only member is
    [std::vector<ScopedConnectionRef> _connections]. *)
Definition ConnectionScope : Type := list ConnectionRef.

(** [ConnectionRef& operator+=(ConnectionRef &&ref)]:
    [_connections.push_back(std::move(ref))].  The argument of [push_back]
    is a temporary [ScopedConnectionRef] move-constructed from [ref]; the
    new element is move-constructed from the temporary, and the temporary
    is destroyed at the end of the statement.  (When the vector grows, it
    move-constructs its elements in the new storage and destroys the empty
    handles left behind, which does nothing.)  The result is the scope and
    [ref] as they are left. *)
Definition ConnectionScope_add (fuel : nat) (scope : ConnectionScope) (ref : ConnectionRef)
    : Run (ConnectionScope * ConnectionRef) :=
  let '(temporary, ref') := ConnectionRef_move ref in
  let '(element, temporary') := ConnectionRef_move temporary in
  ScopedConnectionRef_dtor fuel temporary' ;;
  ret (scope ++ [element], ref').

(** [~ConnectionScope()]: the vector destroys its elements, from the first
    to the last. *)
Fixpoint ConnectionScope_dtor (fuel : nat) (scope : ConnectionScope) : Run unit :=
  match scope with
  | [] => ret tt
  | ref :: rest => ScopedConnectionRef_dtor fuel ref ;; ConnectionScope_dtor fuel rest
  end.

(** A client that connects the callbacks [callbacks], in this order, and
    hands each handle over to a scope: [scope += signal.connect(callback)]. *)
Fixpoint connect_scoped (fuel : nat) (callbacks : list (option Callback))
    (scope : ConnectionScope) : Run ConnectionScope :=
  match callbacks with
  | [] => ret scope
  | callback :: rest =>
      ref <- connect callback ;;
      r <- ConnectionScope_add fuel scope ref ;;
      connect_scoped fuel rest (fst r)
  end.

(** The nodes the handles of a scope point to. *)
Definition scoped (scope : ConnectionScope) : list addr := omap _link scope.

End Scope.

(** ** Callbacks that disconnect *)

Section DisconnectingCallbacks.

Context {Callback Args R : Type}.

(** A callback [f] whose body disconnects the nodes [nodes], in this
    order, through handles it holds, before it returns; every other
    callback leaves the signal alone. *)
Definition disconnecting_call `{EqDecision Callback} (val : Callback → Args → R)
    (f : Callback) (fuel : nat) (nodes : list addr) : Callback → Args → M Callback R :=
  λ f' args,
    if decide (f' = f) then
      foldr (λ x rest, disconnect fuel (mkRef (Some x)) ;; rest) (ret (val f' args)) nodes
    else ret (val f' args).

End DisconnectingCallbacks.

(** ** What the store holds *)

Section Tight.

Context {Callback : Type}.

(** The store holds what it held before the signal was constructed, [h0],
    and the nodes of the signal, apart from each other, and nothing else:
    just [h0] before the ring is made, and then [h0] and exactly the
    sentinel and the connected nodes, in storage that was free in [h0]. *)
Definition tight (h0 : gmap addr (SignalLink Callback)) (w : State Callback) : Prop :=
  match _callbackRing w with
  | None => store w = h0
  | Some s =>
      ∃ l, at_rest w s l ∧
           (∀ x, x ∈ s :: l → h0 !! x = None) ∧
           (∀ x, x ∉ s :: l → store w !! x = h0 !! x)
  end.

End Tight.

(** A client that connects two callbacks, emits and disconnects the first
    one; the second connection is still there when the client is done. *)
Definition connect_two_drop_one : list (@Op nat unit nat (CollectorVector nat)) :=
  [Connect (Some 10); Connect (Some 20); Emit (C := CollectorVector nat) tt tt;
   Disconnect 0].

(** ** Moving signals and scoped handles *)

Section Moves.

Context {Callback : Type}.

Local Abbreviation Run := (M Callback).

(** [ProtoSignal& operator=(ProtoSignal &&other)]: the two ring pointers
    are swapped.  A signal object is its one member; [other] is given by
    that member, and the result is the member as it is left. *)
Definition ProtoSignal_move_assign (other : option addr) : Run (option addr) :=
  mine <- get_callbackRing ;;
  set_callbackRing other ;;
  ret mine.

(** A member function [m] run on another signal object, whose member is
    [ring]; the result comes with that member as [m] leaves it. *)
Definition on_signal {A} (ring : option addr) (m : Run A) : Run (A * option addr) :=
  mine <- get_callbackRing ;;
  set_callbackRing ring ;;
  a <- m ;;
  ring' <- get_callbackRing ;;
  set_callbackRing mine ;;
  ret (a, ring').

(** [signal = std::move(other)] where [other] is destroyed afterwards, as
    the temporary of [signal = Signal()] is at the end of the statement. *)
Definition assign_and_destroy (fuel : nat) (other : option addr) : Run unit :=
  other' <- ProtoSignal_move_assign other ;;
  on_signal other' (ProtoSignal_dtor fuel) ;;
  ret tt.

(** [ScopedConnectionRef& operator=(ScopedConnectionRef &&other)] where
    [other] is a temporary, destroyed at the end of the statement: the
    pointers are swapped, and the destructor of the temporary disconnects
    what the assigned handle held.  The result is the assigned handle. *)
Definition ScopedConnectionRef_assign (fuel : nat) (this other : ConnectionRef)
    : Run ConnectionRef :=
  let '(this', other') := ConnectionRef_move_assign this other in
  ScopedConnectionRef_dtor fuel other' ;;
  ret this'.

(** [scoped = signal.connect(callback)] for a [ScopedConnectionRef scoped]:
    the temporary is move-constructed from the handle [connect] returns. *)
Definition reconnect_scoped (fuel : nat) (scoped : ConnectionRef)
    (callback : option Callback) : Run ConnectionRef :=
  ref <- connect callback ;;
  let '(temporary, _) := ConnectionRef_move ref in
  ScopedConnectionRef_assign fuel scoped temporary.

End Moves.

(** ** Callbacks that emit *)

Section EmittingCallbacks.

Context {Callback Args R : Type}.

(** A callback [f], held by node [x], whose body disables its own
    connection, emits the signal it is called from, enables the connection
    again and returns; every other callback leaves the signal alone.  The
    nested emission runs the same callbacks; [depth] bounds the nesting. *)
Fixpoint reemitting_call `{EqDecision Callback} (val : Callback → Args → R)
    (C : Collector R) (f : Callback) (x : addr) (fuel : nat) (junk : Storage C)
    (depth : nat) : Callback → Args → M Callback R :=
  match depth with
  | O => λ _ _, diverge
  | S depth' =>
      λ f' args,
        if decide (f' = f) then
          disable (mkRef (Some x)) ;;
          emit (reemitting_call val C f x fuel junk depth') C fuel junk args ;;
          enable (mkRef (Some x)) ;;
          ret (val f' args)
        else ret (val f' args)
  end.

End EmittingCallbacks.

(** ** Using a signal from inside its own emissions *)

Section Reentrancy.

Context {Callback Args R : Type}.

Variable C : Collector R.

Local Abbreviation Link := (SignalLink Callback).
Local Abbreviation Run := (M Callback).

(** From a state in [P], the computation [m] completes in a state in [Q];
    or an assertion fires, and then [E] holds; or it runs into undefined
    behaviour; or the loop budget runs out. *)
Definition hoare {A} (P : State Callback → Prop) (m : Run A)
    (Q : A → State Callback → Prop) (E : Prop) : Prop :=
  ∀ w, P w → match m w with
              | Done (a, w') => Q a w'
              | Abort _ => E
              | Undefined | Diverge => True
              end.

(** What a client does with a signal whose sentinel is at [s], from
    outside or from inside of an emission: it connects callbacks and goes
    on with the handle it gets, it disconnects, enables, disables and tests
    through handles (which never point to the sentinel), and it emits, with
    callbacks that in turn are clients of the same signal.  What a callback
    does may depend on the state it is called in, as the code of a callback
    with variables of its own does.  Emissions are nested at most [depth]
    deep. *)
Inductive api (s : addr) : nat → ∀ A : Type, Run A → Prop :=
| api_ret depth A (a : A) :
    api s depth A (ret a)
| api_bind depth A B (m : Run A) (k : A → Run B) :
    api s depth A m → (∀ a, api s depth B (k a)) → api s depth B (bind m k)
| api_connect depth B (callback : option Callback) (k : ConnectionRef → Run B) :
    (∀ a, a ≠ s → api s depth B (k (mkRef (Some a)))) →
    api s depth B (bind (connect callback) k)
| api_disconnect depth fuel (ref : ConnectionRef) :
    _link ref ≠ Some s → api s depth (bool * ConnectionRef)%type (disconnect fuel ref)
| api_setEnabled depth (ref : ConnectionRef) flag :
    api s depth unit (setEnabled ref flag)
| api_isEnabled depth (ref : ConnectionRef) :
    api s depth bool (isEnabled ref)
| api_emit depth (call : Callback → Args → Run R)
      (body : State Callback → Callback → Args → Run R) fuel junk args :
    (∀ w f a, api s depth R (body w f a)) →
    (∀ f a w, call f a w = body w f a w) →
    api s (S depth) (CollectorResult C) (emit call C fuel junk args)
| api_deeper depth A (m : Run A) :
    api s depth A m → api s (S depth) A m.

(** How many of the emissions in progress stand on node [a]; [frames]
    lists the nodes they stand on, the innermost emission first. *)
Definition standing (a : addr) (frames : list addr) : Z :=
  Z.of_nat (length (filter (λ b, b = a) frames)).

(** A signal constructed with [method] whose ring is made, seen from
    inside the emissions [frames]: the sentinel [s] is live, holds [method]
    and has the two references of the anchor and one for each emission that
    stands on it; [emit] invoked nothing but [method] at the sentinel;
    every live node has at least one reference and at most its own and one
    for each emission that stands on it. *)
Definition guarded (method : option Callback) (s : addr) (frames : list addr)
    (w : State Callback) : Prop :=
  _callbackRing w = Some s ∧
  (∀ f, (s, f) ∈ invoked w → method = Some f) ∧
  (∀ a n, store w !! a = Some n →
     (1 ≤ _refCount n ≤ 2147483647)%Z ∧
     (_refCount n ≤ (if decide (a = s) then 2 else 1) + standing a frames)%Z) ∧
  (∃ n, store w !! s = Some n ∧ _callbackFunc n = method ∧
        _refCount n = (2 + standing s frames)%Z).

(** A signal constructed without a default callback in an empty store,
    before its ring is made; the first allocation will be the sentinel's. *)
Definition unmade (method : option Callback) (s : addr) (w : State Callback) : Prop :=
  _callbackRing w = None ∧ store w = ∅ ∧ invoked w = [] ∧ method = None ∧
  s = fresh (dom (∅ : gmap addr Link)).

(** What holds of a signal at every point of its use, also inside
    emissions. *)
Definition kept (method : option Callback) (s : addr) (frames : list addr)
    (w : State Callback) : Prop :=
  guarded method s frames w ∨ (frames = [] ∧ unmade method s w).

End Reentrancy.

Arguments api {Callback} Args {R} C s depth A m.

(** A sentinel whose count is negative. *)
Definition indebted : State nat :=
  mkState {[0 := mkLink true (Some 0) (Some 0) None (-1)]} 1 (λ _, true) (Some 0) [].

(** A client of a signal with callbacks named by numbers: it connects
    callback 10, enables it and emits; callback 10, when it runs, connects
    callback 40 and disconnects the node at address 1, which is its own. *)
Definition busy_callback (f : nat) (_ : unit) : M nat nat :=
  if decide (f = 10) then
    connect (Some 40) ;; disconnect 4 (mkRef (Some 1)) ;; ret f
  else ret f.

Definition busy_client : M nat (list nat) :=
  ref <- connect (Some 10) ;;
  setEnabled ref true ;;
  emit busy_callback (CollectorVector nat) 5 tt tt.

(** * Properties *)

(** ** Running the monad *)

Section Running.

Context {Callback : Type}.

Local Abbreviation Link := (SignalLink Callback).
Local Abbreviation St := (State Callback).
Local Abbreviation Run := (M Callback).

Lemma bind_Done {A B} (m : Run A) (k : A → Run B) w a w' :
  m w = Done (a, w') → bind m k w = k a w'.
Proof. unfold bind. by intros ->. Qed.

Lemma bind_Abort {A B} (m : Run A) (k : A → Run B) w q :
  m w = Abort q → bind m k w = Abort q.
Proof. unfold bind. by intros ->. Qed.

Lemma bind_Done_inv {A B} (m : Run A) (k : A → Run B) w b w2 :
  bind m k w = Done (b, w2) → ∃ a w1, m w = Done (a, w1) ∧ k a w1 = Done (b, w2).
Proof.
  unfold bind. destruct (m w) as [[a w1]| | |]; try discriminate. eauto.
Qed.

Lemma int_wrap_id z : (-2147483648 ≤ z < 2147483648)%Z → int_wrap z = z.
Proof.
  intros Hz. unfold int_wrap.
  rewrite Z.mod_small by lia. lia.
Qed.

Lemma with_refCount_same (n : Link) : with_refCount (_refCount n) n = n.
Proof. by destruct n. Qed.

Lemma load_at h k bits ring tr a (n : Link) :
  h !! a = Some n →
  load a (mkState h k bits ring tr) = Done (n, mkState h k bits ring tr).
Proof. unfold load. simpl. by intros ->. Qed.

Lemma update_at h k bits ring tr a (n : Link) f :
  h !! a = Some n →
  update a f (mkState h k bits ring tr) = Done (tt, mkState (<[a := f n]> h) k bits ring tr).
Proof. intros Ha. unfold update. by rewrite (bind_Done _ _ _ _ _ (load_at _ _ _ _ _ _ _ Ha)). Qed.

(** [incref] on a live node whose count stays within [int]. *)
Lemma incref_at h k bits ring tr a (n : Link) :
  h !! a = Some n →
  (0 ≤ _refCount n < 2147483647)%Z →
  incref a (mkState h k bits ring tr)
  = Done (tt, mkState (<[a := with_refCount (_refCount n + 1) n]> h) k bits ring tr).
Proof.
  intros Ha Hc. unfold incref.
  rewrite (bind_Done _ _ _ _ _ (update_at _ _ _ _ _ _ _ _ Ha)).
  rewrite int_wrap_id by lia.
  erewrite bind_Done by (apply load_at, lookup_insert_eq).
  unfold assert. simpl.
  destruct (0 <? _refCount n + 1)%Z eqn:E; [done | lia].
Qed.

(** [decref] on a node that keeps at least one reference. *)
Lemma decref_keep h k bits ring tr a (n : Link) :
  h !! a = Some n →
  (1 < _refCount n ≤ 2147483647)%Z →
  decref a (mkState h k bits ring tr)
  = Done (tt, mkState (<[a := with_refCount (_refCount n - 1) n]> h) k bits ring tr).
Proof.
  intros Ha Hc. unfold decref.
  rewrite (bind_Done _ _ _ _ _ (update_at _ _ _ _ _ _ _ _ Ha)).
  rewrite int_wrap_id by lia.
  erewrite bind_Done by (apply load_at, lookup_insert_eq).
  simpl. destruct (_refCount n - 1 =? 0)%Z eqn:E; [lia |].
  unfold assert. destruct (0 <? _refCount n - 1)%Z eqn:E'; [done | lia].
Qed.

(** [decref] on the last reference destroys the node. *)
Lemma decref_last h k bits ring tr a (n : Link) :
  h !! a = Some n →
  _refCount n = 1%Z →
  decref a (mkState h k bits ring tr) = Done (tt, mkState (delete a h) k bits ring tr).
Proof.
  intros Ha Hc. unfold decref.
  rewrite (bind_Done _ _ _ _ _ (update_at _ _ _ _ _ _ _ _ Ha)).
  rewrite Hc. change (int_wrap (1 - 1)) with 0%Z.
  erewrite bind_Done by (apply load_at, lookup_insert_eq).
  simpl. unfold delete_SignalLink.
  erewrite bind_Done by (apply load_at, lookup_insert_eq).
  simpl. unfold bind, assert, with_store. simpl.
  by rewrite delete_insert_eq.
Qed.

End Running.

(** ** Structure of rings *)

Section RingFacts.

Context {Callback : Type}.

Local Abbreviation Link := (SignalLink Callback).

Implicit Types (h : gmap addr Link) (l c : list addr).

Lemma last_cons_shift {A} (a : A) (l : list A) (d : A) :
  List.last (a :: l) d = List.last l a.
Proof.
  revert a d. induction l as [|b l IH]; intros a d; [done|].
  change (List.last (a :: b :: l) d) with (List.last (b :: l) d).
  by rewrite (IH b d), (IH b a).
Qed.

Lemma last_app_cons {A} (l1 : list A) (a : A) (l2 : list A) (d : A) :
  List.last (l1 ++ a :: l2) d = List.last l2 a.
Proof.
  revert d. induction l1 as [|b l1 IH]; intros d.
  - apply last_cons_shift.
  - change ((b :: l1) ++ a :: l2) with (b :: (l1 ++ a :: l2)).
    rewrite last_cons_shift. apply IH.
Qed.

Lemma chain_app h pv l1 l2 z :
  chain h pv (l1 ++ l2) z ↔ chain h pv l1 (hd z l2) ∧ chain h (List.last l1 pv) l2 z.
Proof.
  revert pv. induction l1 as [|a l1 IH]; intros pv.
  - simpl. tauto.
  - rewrite last_cons_shift. simpl. rewrite IH.
    replace (hd z (l1 ++ l2)) with (hd (hd z l2) l1) by (by destruct l1).
    tauto.
Qed.

(** A chain only looks at the links of its own nodes. *)
Lemma chain_mono h h' pv l z :
  (∀ a p n, a ∈ l → linked h p a n → linked h' p a n) →
  chain h pv l z → chain h' pv l z.
Proof.
  revert pv. induction l as [|a l IH]; intros pv Heq; simpl; [done|].
  intros [Ha Hl]. split.
  - apply Heq; [left | done].
  - apply IH; [|done]. intros b p n Hb. apply Heq. by right.
Qed.

Lemma chain_ext h h' pv l z :
  (∀ a, a ∈ l → h' !! a = h !! a) → chain h pv l z → chain h' pv l z.
Proof.
  intros Heq. apply chain_mono. intros a p n Ha. unfold linked. by rewrite Heq.
Qed.

Lemma chain_live h pv l z a : chain h pv l z → a ∈ l → is_Some (h !! a).
Proof.
  revert pv. induction l as [|b l IH]; intros pv; simpl.
  - intros _ Ha. by apply elem_of_nil in Ha.
  - intros [Hb Hl] Ha. apply elem_of_cons in Ha as [->|Ha]; [|by eapply IH].
    unfold linked in Hb. destruct (h !! b); [by eexists | done].
Qed.

Lemma linked_inv h pv a nx :
  linked h pv a nx → ∃ n, h !! a = Some n ∧ _prev n = Some pv ∧ _next n = Some nx.
Proof. unfold linked. destruct (h !! a) as [n|]; [|done]. intros [??]. by exists n. Qed.

Lemma linked_intro h pv a nx n :
  h !! a = Some n → _prev n = Some pv → _next n = Some nx → linked h pv a nx.
Proof. unfold linked. by intros -> ??. Qed.

(** Redirecting the [_prev] of the first node of a chain. *)
Lemma chain_set_head_prev h pv pv' x r z n :
  chain h pv (x :: r) z → x ∉ r → h !! x = Some n →
  chain (<[x := with_prev (Some pv') n]> h) pv' (x :: r) z.
Proof.
  simpl. intros [Hx Hr] Hnot Hn. split.
  - apply linked_inv in Hx as (n' & Hn' & _ & Hnx).
    assert (n' = n) as -> by congruence.
    eapply linked_intro; [apply lookup_insert_eq | done | done].
  - eapply chain_ext; [|done]. intros a Ha.
    apply lookup_insert_ne. by intros ->.
Qed.

(** Redirecting the [_next] of the last node of a chain. *)
Lemma chain_set_last_next h pv r y z z' n :
  chain h pv (r ++ [y]) z → y ∉ r → h !! y = Some n →
  chain (<[y := with_next (Some z') n]> h) pv (r ++ [y]) z'.
Proof.
  rewrite !chain_app. simpl. intros (Hr & Hy & _) Hnot Hn. split_and!; [| |done].
  - eapply chain_ext; [|done]. intros a Ha.
    apply lookup_insert_ne. by intros ->.
  - apply linked_inv in Hy as (n' & Hn' & Hpv & _).
    assert (n' = n) as -> by congruence.
    eapply linked_intro; [apply lookup_insert_eq | done | done].
Qed.

(** A ring can be read starting from any of its nodes. *)
Lemma cycle_rotate h c1 c2 : cycle h (c1 ++ c2) → cycle h (c2 ++ c1).
Proof.
  destruct c1 as [|a c1]; [by rewrite app_nil_r|].
  destruct c2 as [|b c2]; [by rewrite app_nil_r|].
  intros [Hnd Hch]. split.
  - revert Hnd. apply NoDup_Permutation_proper, Permutation_app_comm.
  - revert Hch. rewrite !chain_app, !last_app_cons, !last_cons_shift.
    simpl hd. tauto.
Qed.

(** The successor of a node of the ring is the next node of the list, and
    the sentinel after the last one. *)
Lemma cycle_next h s l pre a post :
  cycle h (s :: l) → s :: l = pre ++ a :: post →
  ∃ n, h !! a = Some n ∧ _next n = Some (hd s post).
Proof.
  intros [_ Hch] Heq. rewrite Heq in Hch.
  apply chain_app in Hch as [_ Hch]. simpl in Hch. destruct Hch as [Ha _].
  apply linked_inv in Ha as (n & Hn & _ & Hnx).
  exists n. split; [done|]. rewrite Hnx. do 2 f_equal.
  by rewrite <- Heq.
Qed.

(** The predecessor of the sentinel is the last node of the ring. *)
Lemma cycle_prev_head h s l :
  cycle h (s :: l) → ∃ n, h !! s = Some n ∧ _prev n = Some (List.last l s).
Proof.
  intros [_ [Hs _]]. rewrite last_cons_shift in Hs.
  apply linked_inv in Hs as (n & Hn & Hpv & _). eauto.
Qed.

Lemma cycle_live h c a : cycle h c → a ∈ c → is_Some (h !! a).
Proof. intros [_ Hch]. by eapply chain_live. Qed.

End RingFacts.

(** ** The node methods on a ring *)

Section LinkFacts.

Context {Callback : Type}.

Local Abbreviation Link := (SignalLink Callback).

Implicit Types (h : gmap addr Link) (l c : list addr).

Lemma payload_insert h a (n n' : Link) x :
  h !! a = Some n → payload n' = payload n →
  payload <$> <[a := n']> h !! x = payload <$> h !! x.
Proof.
  intros Ha Hp. destruct (decide (a = x)) as [->|Hne].
  - rewrite lookup_insert_eq, Ha. simpl. by rewrite Hp.
  - by rewrite lookup_insert_ne.
Qed.

(** [unlink] on a node [a] of a ring with at least one other node: the
    ring closes over [a]; every other node keeps its payload; [a] is
    destroyed when it held its last reference and otherwise stays behind
    with an empty callback and its old links. *)
Lemma unlink_cycle h k bits ring tr a rest (na : Link) :
  rest ≠ [] → cycle h (a :: rest) → h !! a = Some na →
  (1 ≤ _refCount na ≤ 2147483647)%Z →
  ∃ h', unlink a (mkState h k bits ring tr) = Done (tt, mkState h' k bits ring tr) ∧
        cycle h' rest ∧
        (∀ x, x ≠ a → payload <$> h' !! x = payload <$> h !! x) ∧
        (∀ x, x ∉ rest → x ≠ a → h' !! x = h !! x) ∧
        h' !! a = (if decide (_refCount na = 1%Z) then None
                   else Some (with_refCount (_refCount na - 1) (with_callbackFunc None na))).
Proof.
  intros Hne [Hnd Hch] Ha Hrc.
  apply NoDup_cons in Hnd as [Hany Hnd].
  rewrite last_cons_shift in Hch. simpl in Hch. destruct Hch as [Hla Hch].
  destruct rest as [|x r]; [done|]. clear Hne.
  destruct (exists_last (l := x :: r)) as (r' & y & Hr'); [done|].
  assert (x ∈ x :: r) as Hx by left.
  assert (y ∈ x :: r) as Hy by (rewrite Hr'; apply elem_of_app; right; left).
  assert (a ≠ x) as Hax by (by intros ->).
  assert (a ≠ y) as Hay by (by intros ->).
  assert (y ∉ r') as Hyr'.
  { rewrite Hr' in Hnd. apply NoDup_app in Hnd as (_ & Hd & _).
    intros Hin. apply (Hd y Hin). left. }
  assert (x ∉ r) as Hxr by (by apply NoDup_cons in Hnd as [? _]).
  apply linked_inv in Hla as (na' & Hna' & Hpv & Hnx).
  assert (na' = na) as -> by congruence. clear Hna'.
  rewrite Hr', last_last in Hpv. simpl in Hnx.
  (* _callbackFunc = nullptr *)
  set (na1 := with_callbackFunc None na).
  set (h1 := <[a := na1]> h).
  assert (chain h1 a (x :: r) a) as Hch1.
  { eapply chain_ext; [|done]. intros b Hb. apply lookup_insert_ne. by intros ->. }
  destruct (chain_live _ _ _ _ _ Hch1 Hx) as [nx Hnx1].
  (* _next->_prev = _prev *)
  set (h2 := <[x := with_prev (Some y) nx]> h1).
  assert (chain h2 y (x :: r) a) as Hch2 by (by eapply chain_set_head_prev).
  destruct (chain_live _ _ _ _ _ Hch2 Hy) as [ny Hny2].
  (* _prev->_next = _next *)
  set (h3 := <[y := with_next (Some x) ny]> h2).
  assert (chain h3 y (x :: r) x) as Hch3.
  { rewrite Hr' in Hch2 |- *. by eapply chain_set_last_next. }
  assert (h3 !! a = Some na1) as Ha3.
  { unfold h3, h2, h1. by rewrite !lookup_insert_ne, lookup_insert_eq by done. }
  assert (∀ b, b ≠ a → payload <$> h3 !! b = payload <$> h !! b) as Hpay3.
  { intros b Hb. unfold h3.
    rewrite (payload_insert h2 y ny); [|done|reflexivity].
    unfold h2. rewrite (payload_insert h1 x nx); [|done|reflexivity].
    unfold h1. by rewrite lookup_insert_ne. }
  assert (∀ b, b ∉ x :: r → b ≠ a → h3 !! b = h !! b) as Hout3.
  { intros b Hb Hba. unfold h3, h2, h1.
    rewrite !lookup_insert_ne; [done|by intros -> ..]. }
  assert (∃ h', decref a (mkState h3 k bits ring tr) = Done (tt, mkState h' k bits ring tr) ∧
                (∀ b, b ≠ a → h' !! b = h3 !! b) ∧
                h' !! a = (if decide (_refCount na = 1%Z) then None
                           else Some (with_refCount (_refCount na - 1) na1)))
    as (h' & Hdec & Hoth & Hself).
  { destruct (decide (_refCount na = 1%Z)) as [H1|H1].
    - exists (delete a h3). split; [by apply (decref_last _ _ _ _ _ _ na1)|].
      split; [|apply lookup_delete_eq].
      intros b Hb. by apply lookup_delete_ne.
    - exists (<[a := with_refCount (_refCount na1 - 1) na1]> h3).
      split; [apply decref_keep; [done | simpl; lia]|].
      split; [|apply lookup_insert_eq].
      intros b Hb. by apply lookup_insert_ne. }
  exists h'. split_and!.
  - unfold unlink.
    erewrite bind_Done by (by apply update_at).
    erewrite bind_Done by (apply load_at, lookup_insert_eq).
    simpl _next. rewrite Hnx.
    erewrite bind_Done by (by apply update_at).
    erewrite bind_Done by (apply load_at; by rewrite lookup_insert_ne, lookup_insert_eq).
    simpl _prev. rewrite Hpv.
    erewrite bind_Done by (by apply update_at).
    simpl _next. rewrite Hnx. apply Hdec.
  - split; [done|]. rewrite Hr' at 1. rewrite last_last. simpl hd.
    eapply chain_ext; [|done]. intros b Hb. apply Hoth. by intros ->.
  - intros b Hb. by rewrite Hoth, Hpay3.
  - intros b Hb Hba. rewrite Hoth by done. by apply Hout3.
  - done.
Qed.

(** [addBefore] on the sentinel of a ring: the new node is a fresh one,
    spliced in as the last node of the ring, right before the sentinel; it
    carries the callback, one reference, and whatever [_enabled] its storage
    held; every other node keeps its payload. *)
Lemma addBefore_cycle h k bits ring tr s l (cb : option Callback) :
  cycle h (s :: l) →
  ∃ h', addBefore s cb (mkState h k bits ring tr)
        = Done (fresh (dom h), mkState h' (S k) bits ring tr) ∧
        (fresh (dom h) ∉ s :: l) ∧
        h !! (fresh (dom h)) = None ∧
        cycle h' (s :: l ++ [fresh (dom h)]) ∧
        (∀ x, x ≠ fresh (dom h) → payload <$> h' !! x = payload <$> h !! x) ∧
        (∀ x, x ∉ s :: l → x ≠ fresh (dom h) → h' !! x = h !! x) ∧
        payload <$> h' !! (fresh (dom h)) = Some (bits k, cb, 1%Z).
Proof.
  intros Hcyc. set (a := fresh (dom h)).
  assert (h !! a = None) as Hfresh by (apply not_elem_of_dom, is_fresh).
  assert (a ∉ s :: l) as Hnew.
  { intros Hin. destruct (cycle_live _ _ _ Hcyc Hin) as [? Hl]. congruence. }
  destruct (cycle_prev_head _ _ _ Hcyc) as (ns & Hns & Hpv).
  destruct Hcyc as [Hnd Hch]. rewrite last_cons_shift in Hch. simpl hd in Hch.
  set (y := List.last l s) in *.
  destruct (exists_last (l := s :: l)) as (r' & y' & Hr'); [done|].
  assert (y' = y) as ->.
  { unfold y. rewrite <- (last_cons_shift s l 0), Hr'. by rewrite last_last. }
  assert (y ∈ s :: l) as Hy by (rewrite Hr'; apply elem_of_app; right; left).
  assert (s ∈ s :: l) as Hs by left.
  assert (a ≠ s) as Has by (by intros <-).
  assert (a ≠ y) as Hay by (by intros <-).
  assert (y ∉ r') as Hyr'.
  { rewrite Hr' in Hnd. apply NoDup_app in Hnd as (_ & Hd & _).
    intros Hin. apply (Hd y Hin). left. }
  assert (s ∉ l) as Hsl by (by apply NoDup_cons in Hnd as [? _]).
  set (n0 := mkLink (bits k) None None cb 1).
  set (na := with_next (Some s) (with_prev (Some y) n0)).
  set (h3 := <[a := na]> h).
  assert (chain h3 y (s :: l) s) as Hch3.
  { eapply chain_ext; [|done]. intros b Hb. apply lookup_insert_ne. by intros <-. }
  destruct (chain_live _ _ _ _ _ Hch3 Hy) as [ny Hny].
  set (h4 := <[y := with_next (Some a) ny]> h3).
  assert (chain h4 y (s :: l) a) as Hch4.
  { rewrite Hr' in Hch3 |- *. by eapply chain_set_last_next. }
  destruct (chain_live _ _ _ _ _ Hch4 Hs) as [ns4 Hns4].
  set (h5 := <[s := with_prev (Some a) ns4]> h4).
  assert (chain h5 a (s :: l) a) as Hch5 by (by eapply chain_set_head_prev).
  assert (h5 !! a = Some na) as Ha5.
  { unfold h5, h4, h3. by rewrite !lookup_insert_ne, lookup_insert_eq by done. }
  exists h5. split_and!; try done.
  - unfold addBefore, new_SignalLink.
    rewrite (bind_Done _ _ _ a (mkState (<[a := n0]> h) (S k) bits ring tr)) by done.
    erewrite bind_Done by (apply load_at; by rewrite lookup_insert_ne).
    erewrite bind_Done by (apply update_at, lookup_insert_eq).
    erewrite bind_Done by (apply update_at, lookup_insert_eq).
    rewrite !insert_insert_eq. rewrite Hpv. fold na. fold h3.
    erewrite bind_Done by (apply load_at; unfold h3; by rewrite lookup_insert_ne).
    rewrite Hpv. simpl deref. unfold ret at 1.
    rewrite (bind_Done _ _ _ y (mkState h3 (S k) bits ring tr)) by done.
    erewrite bind_Done by (by apply update_at).
    erewrite bind_Done by (by apply update_at).
    done.
  - split.
    + rewrite app_comm_cons. apply NoDup_app. split_and!; [done| |apply NoDup_singleton].
      intros b Hb Hba. apply list_elem_of_singleton in Hba as ->. done.
    + rewrite app_comm_cons. rewrite last_last. simpl hd.
      rewrite chain_app. simpl hd. split; [done|].
      rewrite last_cons_shift. fold y. simpl. split; [|done].
      by eapply linked_intro.
  - intros b Hb. unfold h5.
    rewrite (payload_insert h4 s ns4); [|done|reflexivity].
    unfold h4. rewrite (payload_insert h3 y ny); [|done|reflexivity].
    unfold h3. by rewrite lookup_insert_ne.
  - intros b Hb Hba. unfold h5, h4, h3.
    rewrite !lookup_insert_ne; [done|by intros <- ..].
  - by rewrite Ha5.
Qed.

(** The scan of [removeSibling] steps over the nodes that are not [id]. *)
Lemma removeSibling_from_skip h k bits ring tr this l pre mid rest id fuel :
  cycle h (this :: l) → l = pre ++ mid ++ rest →
  (∀ x, x ∈ mid → id ≠ Some x) →
  removeSibling_from (length mid + fuel) this id (Some (hd (hd this rest) mid))
    (mkState h k bits ring tr)
  = removeSibling_from fuel this id (Some (hd this rest)) (mkState h k bits ring tr).
Proof.
  intros Hcyc. revert pre. induction mid as [|x mid IH]; intros pre Hl Hid; [done|].
  simpl hd. simpl length. simpl removeSibling_from.
  assert (x ∈ l) as Hxl.
  { rewrite Hl. apply elem_of_app. right. left. }
  assert (x ≠ this) as Hxt.
  { destruct Hcyc as [Hnd _]. apply NoDup_cons in Hnd as [Hnot _]. by intros ->. }
  rewrite decide_False by congruence.
  rewrite decide_False by (apply Hid; left).
  simpl deref. unfold ret at 1.
  rewrite (bind_Done _ _ _ x (mkState h k bits ring tr)) by done.
  destruct (cycle_next h this l (this :: pre) x (mid ++ rest) Hcyc) as (n & Hn & Hnx).
  { by rewrite Hl. }
  erewrite bind_Done by (by apply load_at).
  rewrite Hnx.
  replace (hd this (mid ++ rest)) with (hd (hd this rest) mid) by (by destruct mid).
  apply (IH (pre ++ [x])).
  - by rewrite <- app_assoc.
  - intros b Hb. apply Hid. by right.
Qed.

(** [removeSibling] on a node of a ring, for a pointer that is none of
    the other nodes: the scan comes back to the node, nothing is changed,
    the answer is [false]. *)
Lemma removeSibling_miss h k bits ring tr this l id fuel :
  cycle h (this :: l) → (∀ x, x ∈ l → id ≠ Some x) → length l < fuel →
  removeSibling fuel this id (mkState h k bits ring tr)
  = Done (false, mkState h k bits ring tr).
Proof.
  intros Hcyc Hid Hfuel. unfold removeSibling.
  destruct (cycle_next h this l [] this l Hcyc eq_refl) as (n & Hn & Hnx).
  erewrite bind_Done by (by apply load_at).
  rewrite Hnx.
  replace fuel with (length l + S (fuel - length l - 1)) by lia.
  pose proof (removeSibling_from_skip h k bits ring tr this l [] l [] id
                (S (fuel - length l - 1)) Hcyc) as Hskip.
  simpl hd in Hskip. rewrite Hskip; [|by rewrite app_nil_r|done].
  simpl. by rewrite decide_True.
Qed.

(** [removeSibling] on a node of a ring, for a pointer to another node [x]
    of the ring: [x] is unlinked and the answer is [true]. *)
Lemma removeSibling_hit h k bits ring tr this l1 x l2 (nx : Link) fuel :
  cycle h (this :: l1 ++ x :: l2) → h !! x = Some nx →
  (1 ≤ _refCount nx ≤ 2147483647)%Z → length l1 < fuel →
  ∃ h', removeSibling fuel this (Some x) (mkState h k bits ring tr)
        = Done (true, mkState h' k bits ring tr) ∧
        cycle h' (this :: l1 ++ l2) ∧
        (∀ b, b ≠ x → payload <$> h' !! b = payload <$> h !! b) ∧
        (∀ b, b ∉ this :: l1 ++ l2 → b ≠ x → h' !! b = h !! b) ∧
        h' !! x = (if decide (_refCount nx = 1%Z) then None
                   else Some (with_refCount (_refCount nx - 1) (with_callbackFunc None nx))).
Proof.
  intros Hcyc Hx Hrc Hfuel.
  assert (NoDup (this :: l1 ++ x :: l2)) as Hnd by apply Hcyc.
  assert (x ≠ this) as Hxt.
  { apply NoDup_cons in Hnd as [Hnot _]. intros ->. apply Hnot.
    apply elem_of_app. right. left. }
  assert (x ∉ l1) as Hxl1.
  { apply NoDup_cons in Hnd as [_ Hnd]. apply NoDup_app in Hnd as (_ & Hd & _).
    intros Hin. apply (Hd x Hin). left. }
  pose proof (cycle_rotate h (this :: l1) (x :: l2) Hcyc) as Hrot. simpl in Hrot.
  destruct (unlink_cycle h k bits ring tr x (l2 ++ this :: l1) nx) as
    (h' & Hun & Hcyc' & Hpay & Hout & Hself); [by destruct l2|done|done|done|].
  exists h'. split_and!; [| |done| |done].
  - unfold removeSibling.
    destruct (cycle_next h this _ [] this _ Hcyc eq_refl) as (n & Hn & Hnx).
    erewrite bind_Done by (by apply load_at).
    rewrite Hnx.
    replace fuel with (length l1 + S (fuel - length l1 - 1)) by lia.
    pose proof (removeSibling_from_skip h k bits ring tr this _ [] l1 (x :: l2) (Some x)
                  (S (fuel - length l1 - 1)) Hcyc eq_refl) as Hskip.
    simpl hd in Hskip.
    replace (hd this (l1 ++ x :: l2)) with (hd x l1) by (by destruct l1).
    rewrite Hskip by (intros b Hb; congruence).
    simpl. rewrite decide_False by congruence. rewrite decide_True by done.
    unfold ret at 1.
    rewrite (bind_Done _ _ _ x (mkState h k bits ring tr)) by done.
    by rewrite (bind_Done _ _ _ _ _ Hun).
  - by apply (cycle_rotate h' l2 (this :: l1)).
  - intros b Hb Hbx. apply Hout; [|done].
    intros Hin. apply Hb.
    apply elem_of_app in Hin as [Hin|Hin].
    + right. apply elem_of_app. by right.
    + apply elem_of_cons in Hin as [->|Hin]; [left|].
      right. apply elem_of_app. by left.
Qed.

End LinkFacts.

(** ** A traversal by [emit] *)

Section EmitFacts.

Context {Callback Args R : Type}.

Local Abbreviation Link := (SignalLink Callback).

Implicit Types (h : gmap addr Link) (l c : list addr).

Variable val : Callback → Args → R.
Variable C : Collector R.

Lemma with_refCount_twice (z z' : Z) (n : Link) :
  with_refCount z (with_refCount z' n) = with_refCount z n.
Proof. done. Qed.

(** Moving the traversal's reference from [a] to [b]. *)
Lemma advance_held {B} (K : M Callback B) h k bits ring tr a b (na nb : Link) :
  h !! a = Some na → h !! b = Some nb →
  (1 ≤ _refCount na < 2147483646)%Z → (1 ≤ _refCount nb < 2147483646)%Z →
  (incref b ;; decref a ;; K) (mkState (held h a) k bits ring tr)
  = K (mkState (held h b) k bits ring tr).
Proof.
  intros Ha Hb Hca Hcb.
  destruct (decide (a = b)) as [<-|Hab].
  - assert (nb = na) as -> by congruence.
    assert (held h a !! a = Some (with_refCount (_refCount na + 1) na)) as Hh.
    { unfold held. by rewrite lookup_alter_eq, Ha. }
    erewrite bind_Done by (apply incref_at; [done | simpl; lia]).
    erewrite bind_Done by (apply decref_keep; [apply lookup_insert_eq | simpl; lia]).
    do 2 f_equal. rewrite insert_insert_eq. simpl _refCount.
    rewrite !with_refCount_twice.
    replace (_refCount na + 1 + 1 - 1)%Z with (_refCount na + 1)%Z by lia.
    apply insert_id. done.
  - assert (held h a !! b = Some nb) as Hhb.
    { unfold held. by rewrite lookup_alter_ne. }
    assert (held h a !! a = Some (with_refCount (_refCount na + 1) na)) as Hha.
    { unfold held. by rewrite lookup_alter_eq, Ha. }
    erewrite bind_Done by (apply incref_at; [done | lia]).
    erewrite bind_Done by (apply decref_keep; [by rewrite lookup_insert_ne | simpl; lia]).
    do 2 f_equal. apply map_eq. intros x. simpl _refCount.
    rewrite with_refCount_twice.
    replace (_refCount na + 1 - 1)%Z with (_refCount na) by lia.
    rewrite with_refCount_same. unfold held.
    destruct (decide (x = a)) as [->|Hxa]; [|destruct (decide (x = b)) as [->|Hxb]].
    + by rewrite lookup_insert_eq, lookup_alter_ne, Ha.
    + by rewrite lookup_insert_ne, lookup_insert_eq, lookup_alter_eq, Hb.
    + by rewrite !lookup_insert_ne, !lookup_alter_ne.
Qed.

(** Taking the traversal's first reference, and giving up its last. *)
Lemma acquire_held h k bits ring tr a (na : Link) :
  h !! a = Some na → (1 ≤ _refCount na < 2147483646)%Z →
  incref a (mkState h k bits ring tr) = Done (tt, mkState (held h a) k bits ring tr).
Proof.
  intros Ha Hc. erewrite incref_at; [|done|lia].
  do 3 f_equal. apply map_eq. intros x. unfold held.
  destruct (decide (x = a)) as [->|Hxa].
  - by rewrite lookup_insert_eq, lookup_alter_eq, Ha.
  - by rewrite lookup_insert_ne, lookup_alter_ne.
Qed.

Lemma release_held h k bits ring tr a (na : Link) :
  h !! a = Some na → (1 ≤ _refCount na < 2147483646)%Z →
  decref a (mkState (held h a) k bits ring tr) = Done (tt, mkState h k bits ring tr).
Proof.
  intros Ha Hc.
  assert (held h a !! a = Some (with_refCount (_refCount na + 1) na)) as Hha.
  { unfold held. by rewrite lookup_alter_eq, Ha. }
  erewrite decref_keep; [|done|simpl; lia].
  do 3 f_equal. simpl _refCount. rewrite with_refCount_twice.
  replace (_refCount na + 1 - 1)%Z with (_refCount na) by lia.
  rewrite with_refCount_same. apply map_eq. intros x. unfold held.
  destruct (decide (x = a)) as [->|Hxa].
  - by rewrite lookup_insert_eq.
  - by rewrite lookup_insert_ne, lookup_alter_ne.
Qed.

Lemma counted_at h c a :
  counted h c → a ∈ c → ∃ n, h !! a = Some n ∧ (1 ≤ _refCount n < 2147483646)%Z.
Proof.
  intros Hc Ha. unfold counted in Hc. rewrite Forall_forall in Hc.
  specialize (Hc a Ha). destruct (h !! a) as [n|]; [eauto | done].
Qed.

Lemma sweep_stop h args links col e :
  (sweep val C h args links col).1.1 = Some e → e ∈ links.
Proof.
  revert col. induction links as [|a links IH]; intros col; simpl; [done|].
  destruct (active h a) as [f|].
  - destruct (collect C col (val f args)) as [col' []]; simpl.
    + specialize (IH col'). destruct (sweep val C h args links col') as [[e' c] t].
      simpl in *. intros He. right. by apply IH.
    + intros [= ->]. left.
  - intros He. right. by eapply IH.
Qed.

(** Every invocation of a pass is the active callback of a node of the
    pass. *)
Lemma sweep_invoked h args links col a f :
  (a, f) ∈ (sweep val C h args links col).2 → a ∈ links ∧ active h a = Some f.
Proof.
  revert col. induction links as [|b links IH]; intros col; simpl.
  - intros Hin. by apply elem_of_nil in Hin.
  - destruct (active h b) as [g|] eqn:Hact.
    + destruct (collect C col (val g args)) as [col' []]; simpl.
      * specialize (IH col'). destruct (sweep val C h args links col') as [[e' c] t].
        simpl in *. intros Hin. apply elem_of_cons in Hin as [[= -> ->]|Hin].
        { split; [left|done]. }
        destruct (IH Hin). split; [by right|done].
      * intros Hin. apply list_elem_of_singleton in Hin as [= -> ->]. split; [left|done].
    + intros Hin. destruct (IH _ Hin). split; [by right|done].
Qed.

(** A pass under a collector that never asks to stop visits every active
    node of the stretch. *)
Lemma sweep_nonstop h args links col :
  (∀ st r, snd (collect C st r) = true) →
  sweep val C h args links col = (None, fed val C args col (visits h links), visits h links).
Proof.
  intros Hgo. revert col. induction links as [|a links IH]; intros col; [done|].
  simpl sweep. unfold visits. simpl omap. fold (visits h links).
  destruct (active h a) as [f|]; simpl; [|apply IH].
  rewrite Hgo. by rewrite IH.
Qed.

Section Loop.

(** The callbacks may be any code; the lemmas below ask that those found
    on the stretch of ring they walk leave the signal alone. *)
Variable call : Callback → Args → M Callback R.

Variables (h : gmap addr Link) (k : nat) (bits : nat → bool) (s : addr) (l : list addr).
Variable args : Args.

Hypothesis Hcyc : cycle h (s :: l).
Hypothesis Hcnt : counted h (s :: l).

Local Abbreviation onward := (onward C call h k bits s args).

(** The second half of the loop body: the traversal's reference moves to
    the successor. *)
Lemma emit_advance pre a post col tr fuel :
  s :: l = pre ++ a :: post →
  (old <- load a ;; next <- deref (_next old) ;; incref next ;; decref a ;;
   ring <- get_callbackRing ;;
   if decide (Some next = ring) then ret (next, col)
   else emit_loop call C fuel args next col)
    (mkState (held h a) k bits (Some s) tr)
  = onward fuel post col tr.
Proof using Hcyc Hcnt.
  intros Heq.
  assert (a ∈ s :: l) as Hain by (rewrite Heq; apply elem_of_app; right; left).
  destruct (counted_at _ _ _ Hcnt Hain) as (na & Ha & Hca).
  destruct (cycle_next _ _ _ _ _ _ Hcyc Heq) as (na' & Ha' & Hnx).
  assert (na' = na) as -> by congruence; clear Ha'.
  assert (held h a !! a = Some (with_refCount (_refCount na + 1) na)) as Hha
    by (unfold held; by rewrite lookup_alter_eq, Ha).
  assert (hd s post ∈ s :: l) as Hbin.
  { destruct post as [|b post]; [left|]. rewrite Heq. apply elem_of_app. right. right. left. }
  destruct (counted_at _ _ _ Hcnt Hbin) as (nb & Hb & Hcb).
  erewrite bind_Done by (by apply load_at).
  simpl _next. rewrite Hnx. simpl deref. unfold ret at 1.
  rewrite (bind_Done _ _ _ (hd s post) (mkState (held h a) k bits (Some s) tr)) by done.
  erewrite advance_held by done.
  unfold get_callbackRing at 1.
  rewrite (bind_Done _ _ _ (Some s) (mkState (held h (hd s post)) k bits (Some s) tr)) by done.
  destruct post as [|b post]; simpl hd.
  - by rewrite decide_True.
  - rewrite decide_False; [done|]. intros [= ->].
    destruct Hcyc as [Hnd _]. apply NoDup_cons in Hnd as [Hnot _]. apply Hnot.
    destruct pre as [|p pre]; inversion Heq; subst.
    + left.
    + apply elem_of_app. right. right. left.
Qed.

(** One turn of the loop on a node whose callback, if it is active, leaves
    the signal alone. *)
Lemma emit_loop_turn pre a post col tr fuel :
  s :: l = pre ++ a :: post →
  (∀ f, active h a = Some f → ∀ w, call f args w = Done (val f args, w)) →
  emit_loop call C (S fuel) args a col (mkState (held h a) k bits (Some s) tr)
  = match active h a with
    | Some f =>
        let step := collect C col (val f args) in
        if snd step then onward fuel post (fst step) (tr ++ [(a, f)])
        else Done ((a, fst step), mkState (held h a) k bits (Some s) (tr ++ [(a, f)]))
    | None => onward fuel post col tr
    end.
Proof using Hcyc Hcnt.
  intros Heq Hpure.
  assert (a ∈ s :: l) as Hain by (rewrite Heq; apply elem_of_app; right; left).
  destruct (counted_at _ _ _ Hcnt Hain) as (na & Ha & Hca).
  assert (held h a !! a = Some (with_refCount (_refCount na + 1) na)) as Hha
    by (unfold held; by rewrite lookup_alter_eq, Ha).
  simpl emit_loop. erewrite bind_Done by (by apply load_at).
  unfold active in *. rewrite Ha in *. simpl _enabled. simpl _callbackFunc.
  destruct (_enabled na); [destruct (_callbackFunc na) as [f|]|].
  - assert ((note a f ;; invoke call C col f args) (mkState (held h a) k bits (Some s) tr)
            = Done (collect C col (val f args),
                    mkState (held h a) k bits (Some s) (tr ++ [(a, f)]))) as Hinv.
    { unfold note, invoke. unfold bind at 1. simpl. unfold with_invoked. simpl.
      by erewrite bind_Done by (by apply Hpure). }
    rewrite (bind_Done _ _ _ _ _ Hinv).
    destruct (collect C col (val f args)) as [col' []]; cbn [negb fst snd].
    + by eapply emit_advance.
    + done.
  - unfold ret at 1. unfold bind at 1. cbn [negb]. by eapply emit_advance.
  - unfold ret at 1. unfold bind at 1. cbn [negb]. by eapply emit_advance.
Qed.

(** The loop over a stretch [a :: seg] of the ring whose active callbacks
    leave the signal alone makes the pass [sweep] describes; when the
    collector does not stop it, it goes on after the stretch. *)
Lemma emit_loop_stretch seg :
  ∀ pre a post col tr fuel,
    s :: l = pre ++ (a :: seg) ++ post →
    (∀ x f, x ∈ a :: seg → active h x = Some f → ∀ w, call f args w = Done (val f args, w)) →
    emit_loop call C (S (length seg + fuel)) args a col (mkState (held h a) k bits (Some s) tr)
    = let '(e, c, t) := sweep val C h args (a :: seg) col in
      match e with
      | Some e => Done ((e, c), mkState (held h e) k bits (Some s) (tr ++ t))
      | None => onward fuel post c (tr ++ t)
      end.
Proof using Hcyc Hcnt.
  induction seg as [|b seg IH]; intros pre a post col tr fuel Heq Hpure.
  - rewrite (emit_loop_turn pre a post) by (done || (intros f Hf; apply (Hpure a f); [left|done])).
    simpl. destruct (active h a) as [f|]; [|by rewrite app_nil_r].
    destruct (collect C col (val f args)) as [col' []]; done.
  - rewrite (emit_loop_turn pre a (b :: seg ++ post))
      by (done || (intros f Hf; apply (Hpure a f); [left|done])).
    change (sweep val C h args (a :: b :: seg) col) with
      (match active h a with
       | Some f =>
           let step := collect C col (val f args) in
           if snd step then
             let '(e, c, t) := sweep val C h args (b :: seg) (fst step) in (e, c, (a, f) :: t)
           else (Some a, fst step, [(a, f)])
       | None => sweep val C h args (b :: seg) col
       end).
    assert (∀ col' tr',
      onward (length (b :: seg) + fuel) (b :: seg ++ post) col' tr'
      = let '(e, c, t) := sweep val C h args (b :: seg) col' in
        match e with
        | Some e => Done ((e, c), mkState (held h e) k bits (Some s) (tr' ++ t))
        | None => onward fuel post c (tr' ++ t)
        end) as Hon.
    { intros col' tr'. unfold onward at 1. simpl length.
      apply (IH (pre ++ [a])).
      - rewrite Heq. by rewrite <- app_assoc.
      - intros x f Hx. apply (Hpure x f). by right. }
    destruct (active h a) as [f|]; [|apply Hon].
    destruct (collect C col (val f args)) as [col' []]; cbn [fst snd]; [|done].
    rewrite Hon. destruct (sweep val C h args (b :: seg) col') as [[e c] t].
    by rewrite <- app_assoc.
Qed.

End Loop.

(** The loop of [emit], started on the sentinel of a ring with callbacks
    that leave the signal alone, makes the pass of [sweep] over the whole
    ring and ends with its reference on the node where the pass ends. *)
Lemma emit_loop_sweep h k bits s l args col tr fuel :
  cycle h (s :: l) → counted h (s :: l) → length l < fuel →
  emit_loop (pure_call val) C fuel args s col (mkState (held h s) k bits (Some s) tr)
  = Done (let '(e, c, t) := sweep val C h args (s :: l) col in
          ((default s e, c), mkState (held h (default s e)) k bits (Some s) (tr ++ t))).
Proof.
  intros Hcyc Hcnt Hfuel.
  replace fuel with (S (length l + (fuel - length l - 1))) by lia.
  rewrite (emit_loop_stretch (pure_call val) h k bits s l args Hcyc Hcnt l [] s []);
    [|by rewrite app_nil_r|done].
  by destruct (sweep val C h args (s :: l) col) as [[[e|] c] t].
Qed.

(** [emit] with callbacks that leave the signal alone, on a ring: the
    result is the collector's result after the pass of [sweep] over the
    sentinel and the connected nodes in ring order; the store is left as
    it was found. *)
Lemma emit_sweep h k bits s l tr junk args fuel :
  cycle h (s :: l) → counted h (s :: l) → length l < fuel →
  emit (pure_call val) C fuel junk args (mkState h k bits (Some s) tr)
  = Done (let '(e, c, t) := sweep val C h args (s :: l) (construct C junk) in
          (result C c, mkState h k bits (Some s) (tr ++ t))).
Proof.
  intros Hcyc Hcnt Hfuel. unfold emit.
  unfold get_callbackRing at 1.
  rewrite (bind_Done _ _ _ (Some s) (mkState h k bits (Some s) tr)) by done.
  assert (s ∈ s :: l) as Hsin by left.
  destruct (counted_at _ _ _ Hcnt Hsin) as (ns & Hs & Hcs).
  erewrite bind_Done by (by eapply acquire_held).
  pose proof (emit_loop_sweep h k bits s l args (construct C junk) tr fuel
                Hcyc Hcnt Hfuel) as Hloop.
  pose proof (sweep_stop h args (s :: l) (construct C junk)) as Hend.
  destruct (sweep val C h args (s :: l) (construct C junk)) as [[e c] t].
  erewrite bind_Done by exact Hloop.
  simpl in Hend. simpl fst. simpl snd.
  assert (default s e ∈ s :: l) as Hein.
  { destruct e as [e|]; simpl; [by apply Hend | left]. }
  destruct (counted_at _ _ _ Hcnt Hein) as (ne & He & Hce).
  by erewrite bind_Done by (by eapply release_held).
Qed.

End EmitFacts.

(** ** The signal's methods on a signal at rest *)

Section SignalFacts.

Context {Callback : Type}.

Local Abbreviation Link := (SignalLink Callback).

Implicit Types (h : gmap addr Link) (l c : list addr) (w : State Callback).

Lemma refs_payload h h' x :
  payload <$> h' !! x = payload <$> h !! x → refs h' x = refs h x.
Proof.
  unfold refs. destruct (h' !! x) as [n'|], (h !! x) as [n|]; simpl; try done.
  unfold payload. by intros [= _ _ ->].
Qed.

Lemma refs_Some h x z : refs h x = Some z → ∃ n, h !! x = Some n ∧ _refCount n = z.
Proof.
  unfold refs. destruct (h !! x) as [n|]; simpl; [|done]. intros [= <-]. eauto.
Qed.

Lemma at_rest_counted w s l : at_rest w s l → counted (store w) (s :: l).
Proof.
  intros (_ & _ & Hs & Hl). apply Forall_cons. split.
  - apply refs_Some in Hs as (n & -> & ->). lia.
  - eapply Forall_impl; [exact Hl|]. intros a Ha. simpl in Ha.
    apply refs_Some in Ha as (n & -> & ->). lia.
Qed.

(** A ring does not depend on the payloads of its nodes. *)
Lemma cycle_same_links h h' c :
  (∀ a n, a ∈ c → h !! a = Some n →
     ∃ n', h' !! a = Some n' ∧ _next n' = _next n ∧ _prev n' = _prev n) →
  cycle h c → cycle h' c.
Proof.
  intros Hsame [Hnd Hch]. split; [done|].
  eapply chain_mono; [|done]. intros a p nx Ha Hl.
  apply linked_inv in Hl as (n & Hn & Hp & Hx).
  destruct (Hsame a n Ha Hn) as (n' & Hn' & Hx' & Hp').
  eapply linked_intro; [done|congruence..].
Qed.

(** [remove] on a connected node: it finds itself from its successor and
    unlinks itself. *)
Lemma remove_hit h k bits ring tr s l1 x l2 (nx : Link) fuel :
  cycle h (s :: l1 ++ x :: l2) → h !! x = Some nx →
  (1 ≤ _refCount nx ≤ 2147483647)%Z → length (l1 ++ l2) < fuel →
  ∃ h', remove fuel x (mkState h k bits ring tr) = Done (true, mkState h' k bits ring tr) ∧
        cycle h' (s :: l1 ++ l2) ∧
        (∀ b, b ≠ x → payload <$> h' !! b = payload <$> h !! b) ∧
        (∀ b, b ∉ s :: l1 ++ l2 → b ≠ x → h' !! b = h !! b) ∧
        h' !! x = (if decide (_refCount nx = 1%Z) then None
                   else Some (with_refCount (_refCount nx - 1) (with_callbackFunc None nx))).
Proof.
  intros Hcyc Hx Hrc Hfuel. rewrite length_app in Hfuel.
  destruct (cycle_next h s _ (s :: l1) x l2 Hcyc eq_refl) as (nx' & Hx' & Hnext).
  assert (nx' = nx) as -> by congruence. clear Hx'.
  unfold remove. destruct l2 as [|b l2].
  - simpl hd in Hnext.
    destruct (removeSibling_hit h k bits ring tr s l1 x [] nx fuel Hcyc Hx Hrc)
      as (h' & Hrem & Hcyc' & Hpay & Hout & Hself); [lia|].
    exists h'. split_and!; try done.
    erewrite bind_Done by (by apply load_at). by rewrite Hnext.
  - simpl hd in Hnext.
    pose proof (cycle_rotate h (s :: l1 ++ [x]) (b :: l2)) as Hrot.
    simpl in Hrot. rewrite <- app_assoc in Hrot. specialize (Hrot Hcyc).
    replace (l2 ++ s :: l1 ++ [x]) with ((l2 ++ s :: l1) ++ [x]) in Hrot
      by (by rewrite <- app_assoc).
    destruct (removeSibling_hit h k bits ring tr b (l2 ++ s :: l1) x [] nx fuel Hrot Hx Hrc)
      as (h' & Hrem & Hcyc' & Hpay & Hout & Hself).
    { rewrite length_app. simpl in *. lia. }
    exists h'. split_and!; try done.
    + erewrite bind_Done by (by apply load_at). by rewrite Hnext.
    + rewrite app_nil_r in Hcyc'.
      apply (cycle_rotate h' (b :: l2) (s :: l1)) in Hcyc'. done.
    + intros c Hc Hcx. apply Hout; [|done]. intros Hin. apply Hc.
      rewrite app_nil_r in Hin.
      apply elem_of_cons in Hin as [->|Hin].
      { right. apply elem_of_app. right. left. }
      apply elem_of_app in Hin as [Hin|Hin].
      { right. apply elem_of_app. right. by right. }
      apply elem_of_cons in Hin as [->|Hin]; [left|].
      right. apply elem_of_app. by left.
Qed.

(** [ensureRing] on a signal without a ring allocates the sentinel, linked
    to itself, with the anchor's two references and an empty callback. *)
Lemma ensureRing_fresh h k bits tr :
  ensureRing (mkState h k bits None tr)
  = Done (tt, mkState (<[fresh (dom h) :=
                          mkLink (bits k) (Some (fresh (dom h))) (Some (fresh (dom h))) None 2]> h)
                      (S k) bits (Some (fresh (dom h))) tr).
Proof.
  unfold ensureRing, get_callbackRing, new_SignalLink, set_callbackRing.
  unfold bind at 1. simpl. unfold bind at 1. simpl. unfold bind at 1.
  unfold with_ring. simpl.
  erewrite bind_Done by (apply incref_at; [apply lookup_insert_eq | simpl; lia]).
  erewrite bind_Done by (apply update_at, lookup_insert_eq).
  erewrite update_at by apply lookup_insert_eq.
  by rewrite !insert_insert_eq.
Qed.

Lemma ensureRing_there h k bits s tr :
  @ensureRing Callback (mkState h k bits (Some s) tr) = Done (tt, mkState h k bits (Some s) tr).
Proof. done. Qed.

Lemma cycle_singleton h s (n : Link) :
  h !! s = Some n → _next n = Some s → _prev n = Some s → cycle h [s].
Proof.
  intros Hs Hn Hp. split; [apply NoDup_singleton|]. simpl. split; [|done].
  by eapply linked_intro.
Qed.

(** The state right after the sentinel is made is a signal at rest with no
    connection. *)
Lemma at_rest_fresh h k bits tr f b :
  at_rest (mkState (<[fresh (dom h) :=
                       mkLink b (Some (fresh (dom h))) (Some (fresh (dom h))) f 2]> h)
                   k bits (Some (fresh (dom h))) tr) (fresh (dom h)) [].
Proof.
  split_and!; simpl; [done| | |done].
  - eapply cycle_singleton; [apply lookup_insert_eq|done..].
  - unfold refs. by rewrite lookup_insert_eq.
Qed.

(** [connect] on a signal at rest appends a fresh node to the ring. *)
Lemma connect_at_rest w s l (cb : option Callback) :
  at_rest w s l →
  ∃ a w', connect cb w = Done (mkRef (Some a), w') ∧
          at_rest w' s (l ++ [a]) ∧
          (a ∉ s :: l) ∧
          store w !! a = None ∧
          payload <$> store w' !! a = Some (raw w (allocs w), cb, 1%Z) ∧
          (∀ x, x ≠ a → payload <$> store w' !! x = payload <$> store w !! x) ∧
          (∀ x, x ∉ s :: l → x ≠ a → store w' !! x = store w !! x) ∧
          allocs w' = S (allocs w) ∧ raw w' = raw w ∧ invoked w' = invoked w.
Proof.
  destruct w as [h k bits ring tr]. intros (Hring & Hcyc & Hs & Hl). simpl in *. subst ring.
  destruct (addBefore_cycle h k bits (Some s) tr s l cb Hcyc)
    as (h' & Hadd & Hnew & Hfresh & Hcyc' & Hpay & Hout & Hpa).
  exists (fresh (dom h)), (mkState h' (S k) bits (Some s) tr).
  split_and!; simpl; try done.
  - unfold connect. rewrite (bind_Done _ _ _ _ _ (ensureRing_there _ _ _ _ _)).
    unfold get_callbackRing at 1.
    rewrite (bind_Done _ _ _ (Some s) (mkState h k bits (Some s) tr)) by done.
    simpl deref. unfold ret at 1.
    rewrite (bind_Done _ _ _ s (mkState h k bits (Some s) tr)) by done.
    by rewrite (bind_Done _ _ _ _ _ Hadd).
  - split_and!; simpl; [done|done| |].
    + rewrite <- Hs. apply refs_payload, Hpay. intros ->. apply Hnew. left.
    + apply Forall_app. split.
      * rewrite Forall_forall in Hl |- *. intros x Hx.
        rewrite <- (Hl x Hx). apply refs_payload, Hpay. intros ->. apply Hnew. by right.
      * apply Forall_singleton. unfold refs.
        destruct (h' !! fresh (dom h)) as [n|]; simpl in *; [|done].
        by injection Hpa as _ _ ->.
Qed.

(** The first [connect] on a signal without a ring makes the sentinel and
    the node. *)
Lemma connect_first h k bits tr (cb : option Callback) :
  ∃ s a w', connect cb (mkState h k bits None tr) = Done (mkRef (Some a), w') ∧
            at_rest w' s [a] ∧ s = fresh (dom h) ∧ h !! s = None ∧ h !! a = None ∧
            payload <$> store w' !! s = Some (bits k, None, 2%Z) ∧
            payload <$> store w' !! a = Some (bits (S k), cb, 1%Z) ∧
            (∀ x, x ≠ s → x ≠ a → store w' !! x = h !! x) ∧
            allocs w' = S (S k) ∧ raw w' = bits ∧ invoked w' = tr.
Proof.
  set (s := fresh (dom h)).
  set (w1 := mkState (<[s := mkLink (bits k) (Some s) (Some s) None 2]> h) (S k) bits (Some s) tr).
  assert (h !! s = None) as Hfresh by (apply not_elem_of_dom, is_fresh).
  destruct (connect_at_rest w1 s [] cb (at_rest_fresh h k bits tr None (bits k)))
    as (a & w' & Hconn & Hrest & Hnew & Hfa & Hpa & Hpay & Hout & Hk & Hbits & Htr).
  assert (a ≠ s) as Has by (intros ->; apply Hnew; left).
  exists s, a, w'. split_and!; try done.
  - unfold connect in *. rewrite (bind_Done _ _ _ _ _ (ensureRing_fresh _ _ _ _)).
    unfold connect in Hconn. unfold w1 in Hconn.
    by rewrite (bind_Done _ _ _ _ _ (ensureRing_there _ _ _ _ _)) in Hconn.
  - unfold w1 in Hfa. simpl in Hfa. by rewrite lookup_insert_ne in Hfa.
  - rewrite Hpay by done. unfold w1. simpl. by rewrite lookup_insert_eq.
  - intros x Hxs Hxa. rewrite Hout; [| |done].
    + unfold w1. simpl. by rewrite lookup_insert_ne.
    + intros Hin. apply list_elem_of_singleton in Hin. done.
Qed.

(** [disconnect] through a handle on a connected node of a signal at rest
    removes the node from the ring, destroys it, and empties the handle. *)
Lemma disconnect_at_rest w s l1 x l2 fuel :
  at_rest w s (l1 ++ x :: l2) → length (l1 ++ l2) < fuel →
  ∃ w', disconnect fuel (mkRef (Some x)) w = Done ((true, mkRef None), w') ∧
        at_rest w' s (l1 ++ l2) ∧
        store w' !! x = None ∧
        (∀ b, b ≠ x → payload <$> store w' !! b = payload <$> store w !! b) ∧
        (∀ b, b ∉ s :: l1 ++ l2 → b ≠ x → store w' !! b = store w !! b) ∧
        allocs w' = allocs w ∧ raw w' = raw w ∧ invoked w' = invoked w.
Proof.
  destruct w as [h k bits ring tr]. intros (Hring & Hcyc & Hs & Hl) Hfuel.
  simpl in *. subst ring.
  assert (refs h x = Some 1%Z) as Hx.
  { rewrite Forall_forall in Hl. apply Hl, elem_of_app. right. left. }
  apply refs_Some in Hx as (nx & Hx & Hrc).
  destruct (remove_hit h k bits (Some s) tr s l1 x l2 nx fuel Hcyc Hx)
    as (h' & Hrem & Hcyc' & Hpay & Hout & Hself); [lia|done|].
  rewrite decide_True in Hself by done.
  assert (NoDup (s :: l1 ++ x :: l2)) as Hnd by apply Hcyc.
  exists (mkState h' k bits (Some s) tr). split_and!; simpl; try done.
  - unfold disconnect, ConnectionRef_disconnect. simpl.
    by rewrite (bind_Done _ _ _ _ _ Hrem).
  - split_and!; simpl; [done|done| |].
    + rewrite <- Hs. apply refs_payload, Hpay.
      apply NoDup_cons in Hnd as [Hnot _]. intros ->. apply Hnot.
      apply elem_of_app. right. left.
    + apply NoDup_cons in Hnd as [_ Hnd].
      rewrite Forall_forall in Hl |- *. intros b Hb.
      rewrite <- (Hl b).
      * apply refs_payload, Hpay. intros ->.
        apply NoDup_app in Hnd as (_ & Hd & Hnd2). apply NoDup_cons in Hnd2 as [Hx2 _].
        apply elem_of_app in Hb as [Hb|Hb]; [|done].
        apply (Hd x Hb). left.
      * apply elem_of_app in Hb as [Hb|Hb]; apply elem_of_app; [by left|right; by right].
Qed.

(** A handle whose [_link] is null: [disconnect] answers [false] and
    touches nothing. *)
Lemma disconnect_null w fuel :
  @disconnect Callback fuel (mkRef None) w = Done ((false, mkRef None), w).
Proof. done. Qed.

(** [setEnabled] through a handle on a live node only writes the flag. *)
Lemma setEnabled_at h k bits ring tr x (nx : Link) flag :
  h !! x = Some nx →
  setEnabled (mkRef (Some x)) flag (mkState h k bits ring tr)
  = Done (tt, mkState (<[x := with_enabled flag nx]> h) k bits ring tr).
Proof.
  intros Hx. unfold setEnabled. simpl deref. unfold ret at 1.
  rewrite (bind_Done _ _ _ x (mkState h k bits ring tr)) by done.
  unfold link_setEnabled. by apply update_at.
Qed.

Lemma setEnabled_at_rest w s l x flag :
  at_rest w s l → x ∈ l →
  ∃ nx, store w !! x = Some nx ∧
        setEnabled (mkRef (Some x)) flag w
        = Done (tt, with_store (<[x := with_enabled flag nx]> (store w)) w) ∧
        at_rest (with_store (<[x := with_enabled flag nx]> (store w)) w) s l.
Proof.
  destruct w as [h k bits ring tr]. intros (Hring & Hcyc & Hs & Hl) Hx.
  simpl in *. subst ring.
  destruct (cycle_live h (s :: l) x Hcyc) as [nx Hnx]; [by right|].
  exists nx. split_and!; [done|by apply setEnabled_at|].
  assert (∀ b, refs (<[x := with_enabled flag nx]> h) b = refs h b) as Hrefs.
  { intros b. unfold refs. destruct (decide (x = b)) as [->|?].
    - by rewrite lookup_insert_eq, Hnx.
    - by rewrite lookup_insert_ne. }
  unfold with_store. split_and!; simpl; [done| | |].
  - eapply cycle_same_links; [|done]. intros a n Ha Hn.
    destruct (decide (x = a)) as [->|?].
    + rewrite lookup_insert_eq. assert (n = nx) as -> by congruence. by eexists.
    + rewrite lookup_insert_ne by done. by exists n.
  - by rewrite Hrefs.
  - eapply Forall_impl; [exact Hl|]. intros b Hb. simpl in *. by rewrite Hrefs.
Qed.

End SignalFacts.

Section EmitAtRest.

Context {Callback Args R : Type}.
Variable val : Callback → Args → R.
Variable C : Collector R.

(** [emit] on a signal at rest, with callbacks that leave the signal
    alone: one pass of [sweep] from the sentinel; only the ghost record of
    invocations grows. *)
Lemma emit_at_rest (w : State Callback) s l junk args fuel :
  at_rest w s l → length l < fuel →
  emit (pure_call val) C fuel junk args w
  = Done (let '(e, c, t) := sweep val C (store w) args (s :: l) (construct C junk) in
          (result C c, with_invoked (invoked w ++ t) w)).
Proof.
  intros Hrest Hfuel. pose proof (at_rest_counted _ _ _ Hrest) as Hcnt.
  destruct w as [h k bits ring tr]. destruct Hrest as (Hring & Hcyc & _).
  simpl in *. subst ring. by apply emit_sweep.
Qed.

(** [emit] on a signal whose ring was never made: the fresh collector's
    result, at once. *)
Lemma emit_no_ring (call : Callback → Args → M Callback R) (w : State Callback) junk args fuel :
  _callbackRing w = None →
  emit call C fuel junk args w = Done (result C (construct C junk), w).
Proof. intros Hring. unfold emit, get_callbackRing, bind. by rewrite Hring. Qed.

End EmitAtRest.

(** ** Destruction *)

Section DtorFacts.

Context {Callback : Type}.

Local Abbreviation Link := (SignalLink Callback).

Implicit Types (h : gmap addr Link) (l c : list addr).

Lemma counted_payload h h' c :
  counted h c → (∀ x, x ∈ c → payload <$> h' !! x = payload <$> h !! x) → counted h' c.
Proof.
  unfold counted. rewrite !Forall_forall. intros Hc Hp x Hx.
  specialize (Hc x Hx). specialize (Hp x Hx).
  destruct (h !! x) as [n|]; [|done]. destruct (h' !! x) as [n'|]; [|done].
  simpl in Hp. unfold payload in Hp. injection Hp as _ _ ->. done.
Qed.

(** The loop of the destructor unlinks the connected nodes one by one,
    from the first; what is left is the sentinel linked to itself. *)
Lemma unlink_all_ring k bits ring tr s l :
  ∀ h fuel,
    cycle h (s :: l) → counted h l → length l < fuel →
    ∃ h', unlink_all fuel s (mkState h k bits ring tr) = Done (tt, mkState h' k bits ring tr) ∧
          cycle h' [s] ∧
          payload <$> h' !! s = payload <$> h !! s ∧
          (∀ x, x ∈ l → refs h x = Some 1%Z → h' !! x = None) ∧
          (∀ x, x ∉ s :: l → h' !! x = h !! x).
Proof.
  induction l as [|a l IH]; intros h fuel Hcyc Hcnt Hfuel.
  all: destruct fuel as [|fuel]; [simpl in Hfuel; lia|].
  all: destruct (cycle_next h s _ [] s _ Hcyc eq_refl) as (ns & Hs & Hnx); simpl hd in Hnx.
  - exists h. split_and!; try done.
    + simpl. erewrite bind_Done by (by apply load_at). by rewrite decide_True.
    + intros x Hx. by apply elem_of_nil in Hx.
  - assert (NoDup (s :: a :: l)) as Hnd by apply Hcyc.
    assert (a ≠ s) as Has.
    { apply NoDup_cons in Hnd as [Hnot _]. intros ->. apply Hnot. left. }
    assert (a ∉ l) as Hal.
    { apply NoDup_cons in Hnd as [_ Hnd]. by apply NoDup_cons in Hnd as [? _]. }
    destruct (counted_at h (a :: l) a Hcnt) as (na & Ha & Hca); [left|].
    pose proof (cycle_rotate h [s] (a :: l) Hcyc) as Hrot. simpl in Hrot.
    destruct (unlink_cycle h k bits ring tr a (l ++ [s]) na) as
      (h1 & Hun & Hcyc1 & Hpay1 & Hout1 & Hself1); [by destruct l|done|done|lia|].
    apply (cycle_rotate h1 l [s]) in Hcyc1. simpl in Hcyc1.
    assert (counted h1 l) as Hcnt1.
    { eapply counted_payload.
      - unfold counted in *. by apply Forall_cons in Hcnt as [_ ?].
      - intros x Hx. apply Hpay1. by intros ->. }
    destruct (IH h1 fuel Hcyc1 Hcnt1) as (h' & Hall & Hcyc' & Hpays & Hgone & Hout);
      [simpl in Hfuel; lia|].
    exists h'. split_and!; try done.
    + simpl. erewrite bind_Done by (by apply load_at).
      rewrite Hnx. rewrite decide_False by congruence.
      simpl deref. unfold ret at 1.
      rewrite (bind_Done _ _ _ a (mkState h k bits ring tr)) by done.
      by rewrite (bind_Done _ _ _ _ _ Hun).
    + rewrite Hpays. by apply Hpay1.
    + intros x Hx Hone. apply elem_of_cons in Hx as [->|Hx].
      * rewrite Hout.
        -- rewrite Hself1. apply refs_Some in Hone as (n & Hn & Hc).
           assert (n = na) as -> by congruence. by rewrite decide_True.
        -- intros Hin. apply elem_of_cons in Hin as [?|?]; done.
      * apply Hgone; [done|]. rewrite <- Hone. apply refs_payload, Hpay1. by intros ->.
    + intros x Hx. rewrite Hout.
      * apply Hout1.
        -- intros Hin. apply Hx. apply elem_of_app in Hin as [Hin|Hin].
           ++ right. by right.
           ++ apply list_elem_of_singleton in Hin as ->. left.
        -- intros ->. apply Hx. right. left.
      * intros Hin. apply Hx. apply elem_of_cons in Hin as [->|Hin]; [left|right; by right].
Qed.

(** The destructor on a ring whose sentinel reports fewer than two
    references stops at its assertion. *)
Lemma dtor_few_refs h k bits tr s l (ns : Link) fuel :
  cycle h (s :: l) → counted h l → length l < fuel →
  h !! s = Some ns → (_refCount ns < 2)%Z →
  ProtoSignal_dtor fuel (mkState h k bits (Some s) tr) = Abort ring_refCount_ge_2.
Proof.
  intros Hcyc Hcnt Hfuel Hs Hc.
  destruct (unlink_all_ring k bits (Some s) tr s l h fuel Hcyc Hcnt Hfuel)
    as (h' & Hall & _ & Hpay & _).
  unfold ProtoSignal_dtor. unfold get_callbackRing at 1.
  rewrite (bind_Done _ _ _ (Some s) (mkState h k bits (Some s) tr)) by done.
  rewrite (bind_Done _ _ _ _ _ Hall).
  rewrite Hs in Hpay. destruct (h' !! s) as [ns'|] eqn:Hs'; [|done].
  simpl in Hpay. unfold payload in Hpay. injection Hpay as _ _ Hrc.
  erewrite bind_Done by (by apply load_at).
  apply bind_Abort. unfold assert. rewrite Hrc.
  destruct (2 <=? _refCount ns)%Z eqn:E; [lia|done].
Qed.

(** The destructor on a ring whose sentinel reports two references or
    more passes its assertion and gives up two references: with exactly
    two the sentinel is destroyed, with more it stays behind. *)
Lemma dtor_enough_refs h k bits tr s l (ns : Link) fuel :
  cycle h (s :: l) → counted h l → length l < fuel →
  h !! s = Some ns → (2 ≤ _refCount ns ≤ 2147483647)%Z →
  ∃ h', ProtoSignal_dtor fuel (mkState h k bits (Some s) tr)
        = Done (tt, mkState h' k bits (Some s) tr) ∧
        refs h' s = (if decide (_refCount ns = 2%Z) then None else Some (_refCount ns - 2)%Z) ∧
        (∀ x, x ∈ l → refs h x = Some 1%Z → h' !! x = None) ∧
        (∀ x, x ∉ s :: l → h' !! x = h !! x).
Proof.
  intros Hcyc Hcnt Hfuel Hs Hc.
  assert (s ∉ l) as Hsl.
  { destruct Hcyc as [Hnd _]. by apply NoDup_cons in Hnd as [? _]. }
  destruct (unlink_all_ring k bits (Some s) tr s l h fuel Hcyc Hcnt Hfuel)
    as (h1 & Hall & _ & Hpay & Hgone & Hout).
  rewrite Hs in Hpay. destruct (h1 !! s) as [n1|] eqn:Hs1; [|done].
  simpl in Hpay. unfold payload in Hpay. injection Hpay as _ _ Hrc.
  set (n2 := with_refCount (_refCount n1 - 1) n1).
  assert (∃ h', decref s (mkState (<[s := n2]> h1) k bits (Some s) tr)
                = Done (tt, mkState h' k bits (Some s) tr) ∧
                refs h' s = (if decide (_refCount ns = 2%Z) then None
                             else Some (_refCount ns - 2)%Z) ∧
                (∀ x, x ≠ s → h' !! x = h1 !! x)) as (h' & Hdec & Hself & Hoth).
  { destruct (decide (_refCount ns = 2%Z)) as [H2|H2].
    - exists (delete s (<[s := n2]> h1)). split_and!.
      + apply (decref_last _ _ _ _ _ _ n2); [apply lookup_insert_eq|]. simpl. lia.
      + unfold refs. by rewrite lookup_delete_eq.
      + intros x Hx. by rewrite lookup_delete_ne, lookup_insert_ne.
    - exists (<[s := with_refCount (_refCount n2 - 1) n2]> (<[s := n2]> h1)). split_and!.
      + apply decref_keep; [apply lookup_insert_eq|]. simpl. lia.
      + unfold refs. rewrite lookup_insert_eq. simpl. f_equal. lia.
      + intros x Hx. by rewrite !lookup_insert_ne. }
  exists h'. split_and!; [|done| |].
  - unfold ProtoSignal_dtor. unfold get_callbackRing at 1.
    rewrite (bind_Done _ _ _ (Some s) (mkState h k bits (Some s) tr)) by done.
    rewrite (bind_Done _ _ _ _ _ Hall).
    erewrite bind_Done by (by apply load_at).
    unfold assert at 1. rewrite Hrc.
    destruct (2 <=? _refCount ns)%Z eqn:E; [|lia].
    unfold bind at 1.
    erewrite bind_Done by (apply decref_keep; [done|lia]).
    apply Hdec.
  - intros x Hx Hone. rewrite Hoth by (by intros ->). by apply Hgone.
  - intros x Hx. rewrite Hoth; [by apply Hout|]. intros ->. apply Hx. left.
Qed.

(** Destroying a signal at rest frees the whole ring. *)
Lemma dtor_at_rest (w : State Callback) s l fuel :
  at_rest w s l → length l < fuel →
  ∃ w', ProtoSignal_dtor fuel w = Done (tt, w') ∧
        (∀ x, x ∈ s :: l → store w' !! x = None) ∧
        (∀ x, x ∉ s :: l → store w' !! x = store w !! x) ∧
        invoked w' = invoked w.
Proof.
  intros Hrest Hfuel. pose proof (at_rest_counted _ _ _ Hrest) as Hcnt.
  destruct w as [h k bits ring tr]. destruct Hrest as (Hring & Hcyc & Hs & Hl).
  simpl in *. subst ring.
  apply Forall_cons in Hcnt as [_ Hcnt].
  apply refs_Some in Hs as (ns & Hs & Hc).
  destruct (dtor_enough_refs h k bits tr s l ns fuel Hcyc Hcnt Hfuel Hs)
    as (h' & Hd & Hself & Hgone & Hout); [lia|].
  rewrite decide_True in Hself by done.
  exists (mkState h' k bits (Some s) tr). split_and!; simpl; try done.
  intros x Hx. apply elem_of_cons in Hx as [->|Hx].
  - unfold refs in Hself. by destruct (h' !! s).
  - apply Hgone; [done|]. rewrite Forall_forall in Hl. by apply Hl.
Qed.

End DtorFacts.

(** ** What a client can reach *)

Section ClientFacts.

Context {Callback Args R : Type}.

Variable val : Callback → Args → R.
Variable C : Collector R.

Local Abbreviation Link := (SignalLink Callback).
Local Abbreviation Op := (@Op Callback Args R C).

Implicit Types (w : State Callback) (hs : list ConnectionRef) (l : list addr).

Lemma at_rest_same_store w w' s l :
  store w' = store w → _callbackRing w' = _callbackRing w → at_rest w s l → at_rest w' s l.
Proof. unfold at_rest. by intros -> ->. Qed.

Lemma handles_ok_null l hs : Forall (λ ref, _link ref = None) hs → handles_ok l hs.
Proof.
  rewrite Forall_forall. intros Hnull.
  assert (∀ i a, hs !! i = Some (mkRef (Some a)) → False) as Hno.
  { intros i a Hi. apply list_elem_of_lookup_2 in Hi. by apply Hnull in Hi. }
  split; [intros i a Hi | intros i j a Hi]; by destruct (Hno i a).
Qed.

Lemma handles_ok_snoc l hs a :
  handles_ok l hs → a ∉ l → handles_ok (l ++ [a]) (hs ++ [mkRef (Some a)]).
Proof.
  intros [Hin Huniq] Ha.
  assert (∀ i b, (hs ++ [mkRef (Some a)]) !! i = Some (mkRef (Some b)) →
                 (hs !! i = Some (mkRef (Some b)) ∧ b ∈ l) ∨ (i = length hs ∧ b = a)) as Hcase.
  { intros i b Hi. apply lookup_app_Some in Hi as [Hi|[Hge Hi]].
    - left. split; [done|]. by eapply Hin.
    - right. apply list_lookup_singleton_Some in Hi as [Hi0 [= ->]]. split; [lia|done]. }
  split.
  - intros i b Hi. apply elem_of_app.
    destruct (Hcase i b Hi) as [[_ ?]|[_ ->]]; [by left|right; left].
  - intros i j b Hi Hj.
    destruct (Hcase i b Hi) as [[Hi' Hb]|[Hil Hba]], (Hcase j b Hj) as [[Hj' Hb']|[Hjl Hba']];
      subst; try done.
    by eapply Huniq.
Qed.

Lemma handles_ok_drop l1 x l2 hs i :
  NoDup (l1 ++ x :: l2) → handles_ok (l1 ++ x :: l2) hs → hs !! i = Some (mkRef (Some x)) →
  handles_ok (l1 ++ l2) (<[i := mkRef None]> hs).
Proof.
  intros Hnd [Hin Huniq] Hi.
  assert (∀ j b, <[i := mkRef None]> hs !! j = Some (mkRef (Some b)) →
                 j ≠ i ∧ hs !! j = Some (mkRef (Some b))) as Hold.
  { intros j b Hj. destruct (decide (j = i)) as [->|Hne].
    - rewrite list_lookup_insert_eq in Hj; [done|]. by eapply lookup_lt_Some.
    - by rewrite list_lookup_insert_ne in Hj. }
  split.
  - intros j b Hj. destruct (Hold j b Hj) as [Hne Hj'].
    assert (b ≠ x) as Hbx by (intros ->; apply Hne; by eapply Huniq).
    specialize (Hin j b Hj'). apply elem_of_app in Hin as [?|Hin]; apply elem_of_app.
    + by left.
    + apply elem_of_cons in Hin as [?|?]; [done|by right].
  - intros j j' b Hj Hj'. destruct (Hold j b Hj) as [_ ?], (Hold j' b Hj') as [_ ?].
    by eapply Huniq.
Qed.

(** The constructor establishes the client's invariant. *)
Lemma ctor_ok bits (method : option Callback) :
  ∃ w, ProtoSignal_ctor method (boot bits) = Done (tt, w) ∧ client_ok method 0 [] w.
Proof.
  destruct method as [m|].
  - unfold ProtoSignal_ctor, boot.
    unfold set_callbackRing at 1. unfold bind at 1. unfold with_ring. simpl.
    rewrite (bind_Done _ _ _ _ _ (ensureRing_fresh _ _ _ _)).
    unfold get_callbackRing at 1. unfold bind at 1. simpl deref. unfold ret at 1.
    unfold bind at 1.
    erewrite update_at by apply lookup_insert_eq.
    rewrite insert_insert_eq. eexists. split; [done|].
    unfold client_ok. simpl. exists []. split_and!.
    + apply (at_rest_fresh ∅ 1 bits [] (Some m)).
    + by rewrite lookup_insert_eq.
    + done.
    + intros a f Hin. by apply elem_of_nil in Hin.
    + by apply handles_ok_null.
  - exists (boot bits). split; [done|]. unfold client_ok. simpl. done.
Qed.

Lemma client_ok_weaken method b b' w hs :
  b ≤ b' → client_ok method b hs w → client_ok method b' hs w.
Proof.
  intros Hle. unfold client_ok. destruct (_callbackRing w); [|done].
  intros (l & ? & ? & ? & ? & ?). exists l. split_and!; try done. lia.
Qed.

Lemma active_callback (h : gmap addr Link) a f :
  active h a = Some f → _callbackFunc <$> h !! a = Some (Some f).
Proof.
  unfold active. destruct (h !! a) as [n|]; [|done]. simpl.
  destruct (_enabled n); [|done]. by intros ->.
Qed.

(** Every call of the interface keeps the client's invariant. *)
Lemma run_op_ok method b w hs fuel (op : Op) :
  client_ok method b hs w → b < fuel →
  ends (is_SetEnabled op) (client_ok method (S b)) (run_op val C fuel op hs w).
Proof.
  intros Hok Hfuel. unfold client_ok in Hok.
  destruct (_callbackRing w) as [s|] eqn:Hring.
  - destruct Hok as (l & Hrest & Hcb & Hlen & Hinv & Hhs).
    assert (NoDup (s :: l)) as Hnd by apply Hrest.
    destruct op as [cb|i|i flag|junk args]; simpl.
    + (* connect *)
      destruct (connect_at_rest w s l cb Hrest)
        as (a & w' & Hconn & Hrest' & Hnew & _ & _ & Hpay & _ & _ & _ & Htr).
      rewrite (bind_Done _ _ _ _ _ Hconn). simpl.
      assert (_callbackRing w' = Some s) as Hring' by apply Hrest'.
      unfold client_ok. rewrite Hring'. exists (l ++ [a]). split_and!.
      * done.
      * assert (payload <$> store w' !! s = payload <$> store w !! s) as Hp.
        { apply Hpay. intros ->. apply Hnew. left. }
        destruct (store w' !! s) as [n'|], (store w !! s) as [n|]; simpl in *; try done.
        unfold payload in Hp. by injection Hp as _ -> _.
      * rewrite length_app. simpl. lia.
      * by rewrite Htr.
      * apply handles_ok_snoc; [done|]. intros Hin. apply Hnew. by right.
    + (* disconnect *)
      destruct (hs !! i) as [[[x|]]|] eqn:Hi.
      * assert (x ∈ l) as Hx by (by eapply (proj1 Hhs)).
        apply list_elem_of_split in Hx as (l1 & l2 & ->).
        destruct (disconnect_at_rest w s l1 x l2 fuel Hrest)
          as (w' & Hdis & Hrest' & _ & Hpay & _ & _ & _ & Htr).
        { rewrite length_app in *. simpl in *. lia. }
        rewrite (bind_Done _ _ _ _ _ Hdis). simpl.
        assert (_callbackRing w' = Some s) as Hring' by apply Hrest'.
        unfold client_ok. rewrite Hring'. exists (l1 ++ l2). split_and!.
        -- done.
        -- assert (payload <$> store w' !! s = payload <$> store w !! s) as Hp.
           { apply Hpay. apply NoDup_cons in Hnd as [Hnot _]. intros ->. apply Hnot.
             apply elem_of_app. right. left. }
           destruct (store w' !! s) as [n'|], (store w !! s) as [n|]; simpl in *; try done.
           unfold payload in Hp. by injection Hp as _ -> _.
        -- rewrite length_app in *. simpl in *. lia.
        -- by rewrite Htr.
        -- apply NoDup_cons in Hnd as [_ Hnd]. by eapply handles_ok_drop.
      * rewrite (bind_Done _ _ _ _ _ (disconnect_null w fuel)). simpl.
        rewrite list_insert_id by done.
        apply (client_ok_weaken method b); [lia|].
        unfold client_ok. rewrite Hring. by exists l.
      * simpl. apply (client_ok_weaken method b); [lia|].
        unfold client_ok. rewrite Hring. by exists l.
    + (* setEnabled *)
      destruct (hs !! i) as [[[x|]]|] eqn:Hi.
      * assert (x ∈ l) as Hx by (by eapply (proj1 Hhs)).
        destruct (setEnabled_at_rest w s l x flag Hrest Hx) as (nx & Hnx & Hset & Hrest').
        rewrite (bind_Done _ _ _ _ _ Hset). simpl.
        unfold client_ok. simpl. rewrite Hring. exists l. split_and!; try done; [|lia].
        rewrite lookup_insert_ne; [done|].
        apply NoDup_cons in Hnd as [Hnot _]. by intros ->.
      * done.
      * simpl. apply (client_ok_weaken method b); [lia|].
        unfold client_ok. rewrite Hring. by exists l.
    + (* emit *)
      assert (length l < fuel) as Hlf by lia.
      pose proof (emit_at_rest val C w s l junk args fuel Hrest Hlf) as Hemit.
      pose proof (sweep_invoked val C (store w) args (s :: l) (construct C junk)) as Hsw.
      destruct (sweep val C (store w) args (s :: l) (construct C junk)) as [[e c] t].
      rewrite (bind_Done _ _ _ _ _ Hemit).
      simpl. unfold client_ok. simpl. rewrite Hring. exists l. split_and!; try done; [lia|].
      intros a f Hin ->. apply elem_of_app in Hin as [Hin|Hin]; [by eapply Hinv|].
      destruct (Hsw s f Hin) as [_ Hact]. apply active_callback in Hact.
      rewrite Hact in Hcb. by injection Hcb as <-.
  - destruct Hok as (-> & Htr & Hnull).
    destruct op as [cb|i|i flag|junk args]; simpl.
    + (* the first connect *)
      destruct w as [h k bits ring tr]. simpl in *. subst ring tr.
      destruct (connect_first h k bits [] cb)
        as (s & a & w' & Hconn & Hrest' & _ & _ & _ & Hps & _ & _ & _ & _ & Htr).
      rewrite (bind_Done _ _ _ _ _ Hconn). simpl.
      assert (_callbackRing w' = Some s) as Hring' by apply Hrest'.
      unfold client_ok. rewrite Hring'. exists [a]. split_and!.
      * done.
      * destruct (store w' !! s) as [n'|]; simpl in *; [|done].
        unfold payload in Hps. by injection Hps as _ -> _.
      * simpl. lia.
      * rewrite Htr. intros ? ? Hin. by apply elem_of_nil in Hin.
      * apply (handles_ok_snoc [] hs a); [by apply handles_ok_null|]. apply not_elem_of_nil.
    + destruct (hs !! i) as [[[x|]]|] eqn:Hi.
      * rewrite Forall_forall in Hnull. apply list_elem_of_lookup_2 in Hi.
        by apply Hnull in Hi.
      * rewrite (bind_Done _ _ _ _ _ (disconnect_null w fuel)). simpl.
        rewrite list_insert_id by done. unfold client_ok. by rewrite Hring.
      * simpl. unfold client_ok. by rewrite Hring.
    + destruct (hs !! i) as [[[x|]]|] eqn:Hi.
      * rewrite Forall_forall in Hnull. apply list_elem_of_lookup_2 in Hi.
        by apply Hnull in Hi.
      * done.
      * simpl. unfold client_ok. by rewrite Hring.
    + rewrite (bind_Done _ _ _ _ _ (emit_no_ring C _ w junk args fuel Hring)). simpl.
      unfold client_ok. by rewrite Hring.
Qed.

Lemma run_ops_ok method (ops : list Op) :
  ∀ b w hs fuel,
    client_ok method b hs w → b + length ops ≤ fuel →
    ends (Exists is_SetEnabled ops) (client_ok method (b + length ops))
      (run_ops val C fuel ops hs w).
Proof.
  induction ops as [|op ops IH]; intros b w hs fuel Hok Hfuel; simpl.
  - by rewrite Nat.add_0_r.
  - simpl in Hfuel.
    pose proof (run_op_ok method b w hs fuel op Hok ltac:(lia)) as Hop.
    unfold bind. destruct (run_op val C fuel op hs w) as [[hs' w']| | |]; try done.
    + simpl in Hop. replace (b + S (length ops)) with (S b + length ops) by lia.
      specialize (IH (S b) w' hs' fuel Hop ltac:(lia)).
      destruct (run_ops val C fuel ops hs' w') as [[hs'' w'']| | |]; try done.
      simpl in *. by apply Exists_cons_tl.
    + simpl in *. by apply Exists_cons_hd.
Qed.

(** A session keeps the client's invariant. *)
Lemma session_ok bits method (ops : list Op) fuel :
  length ops ≤ fuel →
  ends (Exists is_SetEnabled ops) (client_ok method (length ops))
    (session val C fuel method ops (boot bits)).
Proof.
  intros Hfuel. destruct (ctor_ok bits method) as (w & Hctor & Hok).
  unfold session. rewrite (bind_Done _ _ _ _ _ Hctor).
  by apply (run_ops_ok method ops 0 w [] fuel).
Qed.

End ClientFacts.

(** ** Emission after connecting *)

Section EmitScenarios.

Context {Callback Args R : Type}.

Variable val : Callback → Args → R.

Local Abbreviation Link := (SignalLink Callback).

Lemma active_payload (h : gmap addr Link) a (e : bool) f z :
  payload <$> h !! a = Some (e, f, z) → active h a = if e then f else None.
Proof.
  unfold active. destruct (h !! a) as [n|]; [|done]. simpl.
  unfold payload. by intros [= -> -> _].
Qed.

Lemma ctor_None bits :
  @ProtoSignal_ctor Callback None (boot bits) = Done (tt, mkState ∅ 0 bits None []).
Proof. reflexivity. Qed.

(** The state after three connections on a fresh signal: a ring of the
    sentinel and three nodes, each carrying the [_enabled] its storage
    held. *)
Lemma three_connected_state bits (f1 f2 f3 : Callback) :
  ∃ s a b c w,
    three_connected f1 f2 f3 (boot bits) = Done (tt, w) ∧
    at_rest w s [a; b; c] ∧ invoked w = [] ∧
    active (store w) s = None ∧
    active (store w) a = (if bits 1 then Some f1 else None) ∧
    active (store w) b = (if bits 2 then Some f2 else None) ∧
    active (store w) c = (if bits 3 then Some f3 else None).
Proof.
  destruct (connect_first (∅ : gmap addr Link) 0 bits [] (Some f1))
    as (s & a & w1 & Hc1 & Hr1 & _ & _ & _ & Hps1 & Hpa1 & _ & Hk1 & Hb1 & Ht1).
  destruct (connect_at_rest w1 s [a] (Some f2) Hr1)
    as (b & w2 & Hc2 & Hr2 & Hnb & _ & Hpb2 & Hpay2 & _ & Hk2 & Hb2 & Ht2).
  destruct (connect_at_rest w2 s [a; b] (Some f3) Hr2)
    as (c & w3 & Hc3 & Hr3 & Hnc & _ & Hpc3 & Hpay3 & _ & Hk3 & Hb3 & Ht3).
  assert (b ≠ s ∧ b ≠ a) as [Hbs Hba].
  { split; intros ->; apply Hnb; [left | right; left]. }
  assert (c ≠ s ∧ c ≠ a ∧ c ≠ b) as (Hcs & Hca & Hcb).
  { split_and!; intros ->; apply Hnc; [left | right; left | right; right; left]. }
  exists s, a, b, c, w3. split_and!.
  - unfold three_connected.
    rewrite (bind_Done _ _ _ _ _ (ctor_None bits)).
    rewrite (bind_Done _ _ _ _ _ Hc1), (bind_Done _ _ _ _ _ Hc2), (bind_Done _ _ _ _ _ Hc3).
    done.
  - done.
  - by rewrite Ht3, Ht2, Ht1.
  - erewrite active_payload; [|rewrite Hpay3, Hpay2 by done; exact Hps1]. by destruct (bits 0).
  - erewrite active_payload; [|rewrite Hpay3, Hpay2 by done; exact Hpa1]. done.
  - erewrite active_payload; [|rewrite Hpay3 by done; exact Hpb2]. by rewrite Hk1, Hb1.
  - erewrite active_payload; [|exact Hpc3]. by rewrite Hb2, Hb1, Hk2, Hk1.
Qed.

(** Emission with the Vector collector after three connections, whatever
    the storage of the nodes held: exactly the callbacks whose [_enabled]
    reads [true] are invoked, in connection order, and the result is the
    sequence of their results. *)
Lemma emit_three_connected bits (f1 f2 f3 : Callback) args :
  ∃ w, (three_connected f1 f2 f3 ;; emit (pure_call val) (CollectorVector R) 4 tt args) (boot bits)
       = Done ((if bits 1 then [val f1 args] else []) ++
               (if bits 2 then [val f2 args] else []) ++
               (if bits 3 then [val f3 args] else []), w) ∧
       calls w = (if bits 1 then [f1] else []) ++
                 (if bits 2 then [f2] else []) ++
                 (if bits 3 then [f3] else []).
Proof.
  destruct (three_connected_state bits f1 f2 f3)
    as (s & a & b & c & w & Hrun & Hrest & Htr & Hs & Ha & Hb & Hc).
  assert (length [a; b; c] < 4) as Hfuel by (simpl; lia).
  pose proof (emit_at_rest val (CollectorVector R) w s [a; b; c] tt args 4 Hrest Hfuel) as Hemit.
  rewrite sweep_nonstop in Hemit by done.
  assert (visits (store w) [s; a; b; c]
          = (if bits 1 then [(a, f1)] else []) ++ (if bits 2 then [(b, f2)] else []) ++
            (if bits 3 then [(c, f3)] else [])) as Hvis.
  { unfold visits. simpl omap. rewrite Hs, Ha, Hb, Hc.
    by destruct (bits 1), (bits 2), (bits 3). }
  exists (with_invoked (invoked w ++ visits (store w) [s; a; b; c]) w). split.
  - rewrite (bind_Done _ _ _ _ _ Hrun), Hemit. do 2 f_equal. rewrite Hvis.
    by destruct (bits 1), (bits 2), (bits 3).
  - unfold calls, with_invoked. cbn [invoked]. rewrite Hvis, Htr.
    by destruct (bits 1), (bits 2), (bits 3).
Qed.

(** With every [_enabled] reading [true], emission after three
    connections invokes the three callbacks once each in connection order
    and returns their results in that order. *)
Lemma emit_three_connected_enabled bits (f1 f2 f3 : Callback) args :
  bits 1 = true → bits 2 = true → bits 3 = true →
  ∃ w, (three_connected f1 f2 f3 ;; emit (pure_call val) (CollectorVector R) 4 tt args) (boot bits)
       = Done ([val f1 args; val f2 args; val f3 args], w) ∧
       calls w = [f1; f2; f3].
Proof.
  intros H1 H2 H3. destruct (emit_three_connected bits f1 f2 f3 args) as (w & Hrun & Hcalls).
  rewrite H1, H2, H3 in Hrun, Hcalls. exists w. split; [exact Hrun | exact Hcalls].
Qed.

(** C1, at the input where the code departs from it: callbacks A, B, C are
    connected in that order on a fresh signal, no handle is enabled or
    disabled, and the storage of the nodes held a zero [_enabled] byte.
    [emit] with the Vector collector then invokes none of them and returns
    the empty sequence, where the claim has each invoked once in connection
    order and their three results returned. *)
Theorem emit_three_connected_unset_flags (A B C : Callback) args :
  ∃ w, (three_connected A B C ;; emit (pure_call val) (CollectorVector R) 4 tt args)
         (boot (λ _, false))
       = Done ([], w) ∧ calls w = [].
Proof.
  destruct (emit_three_connected (λ _, false) A B C args) as (w & Hrun & Hcalls).
  exists w. split; [exact Hrun | exact Hcalls].
Qed.

(** The state after one connection on a fresh signal. *)
Lemma one_connected_state bits (f : Callback) :
  ∃ s a w,
    one_connected f (boot bits) = Done (mkRef (Some a), w) ∧
    at_rest w s [a] ∧ invoked w = [] ∧
    active (store w) s = None ∧
    active (store w) a = (if bits 1 then Some f else None).
Proof.
  destruct (connect_first (∅ : gmap addr Link) 0 bits [] (Some f))
    as (s & a & w1 & Hc1 & Hr1 & _ & _ & _ & Hps1 & Hpa1 & _ & Hk1 & Hb1 & Ht1).
  exists s, a, w1. split_and!; [|done|done| |].
  - unfold one_connected. by rewrite (bind_Done _ _ _ _ _ (ctor_None bits)).
  - erewrite active_payload; [|exact Hps1]. by destruct (bits 0).
  - erewrite active_payload; [|exact Hpa1]. done.
Qed.

(** C10: the constructor of [SignalLink] sets [_next], [_prev],
    [_callbackFunc] and [_refCount] and leaves [_enabled] as the storage
    held it; and whether [emit] invokes a callback that was connected and
    never enabled or disabled is decided by that indeterminate value: it
    is invoked when the storage reads [true] and skipped when it reads
    [false]. *)
Theorem uninitialised_enabled_decides_invocation bits (A : Callback) args :
  (∀ (cb : option Callback) (w : State Callback),
     ∃ w', new_SignalLink cb w = Done (fresh (dom (store w)), w') ∧
           store w' !! (fresh (dom (store w)))
           = Some (mkLink (raw w (allocs w)) None None cb 1)) ∧
  (∃ w, (one_connected A ;; emit (pure_call val) (CollectorVector R) 2 tt args) (boot bits)
        = Done (if bits 1 then [val A args] else [], w) ∧
        calls w = (if bits 1 then [A] else [])).
Proof.
  split.
  - intros cb w. eexists. split; [reflexivity|]. apply lookup_insert_eq.
  - destruct (one_connected_state bits A) as (s & a & w & Hrun & Hrest & Htr & Hs & Ha).
    assert (length [a] < 2) as Hfuel by (simpl; lia).
    pose proof (emit_at_rest val (CollectorVector R) w s [a] tt args 2 Hrest Hfuel) as Hemit.
    rewrite sweep_nonstop in Hemit by done.
    assert (visits (store w) [s; a] = (if bits 1 then [(a, A)] else [])) as Hvis.
    { unfold visits. simpl omap. rewrite Hs, Ha. by destruct (bits 1). }
    exists (with_invoked (invoked w ++ visits (store w) [s; a]) w). split.
    + rewrite (bind_Done _ _ _ _ _ Hrun), Hemit. do 2 f_equal. rewrite Hvis.
      by destruct (bits 1).
    + unfold calls, with_invoked. cbn [invoked]. rewrite Hvis, Htr.
      by destruct (bits 1).
Qed.

Lemma sweep_cons_inactive (C : Collector R) (h : gmap addr Link) args a rest col :
  active h a = None → sweep val C h args (a :: rest) col = sweep val C h args rest col.
Proof. intros Ha. simpl. by rewrite Ha. Qed.

Lemma sweep_cons_stop (C : Collector R) (h : gmap addr Link) args a f rest col :
  active h a = Some f → snd (collect C col (val f args)) = false →
  sweep val C h args (a :: rest) col = (Some a, fst (collect C col (val f args)), [(a, f)]).
Proof. intros Ha Hstop. simpl. by rewrite Ha, Hstop. Qed.

(** Emission on a signal whose ring was never made gives back what the
    collector's constructor left in it, and invokes nothing. *)
Lemma emit_unconnected (C : Collector R) (call : Callback → Args → M Callback R)
    bits junk args fuel :
  (ProtoSignal_ctor None ;; emit call C fuel junk args) (boot bits)
  = Done (result C (construct C junk), boot bits).
Proof. reflexivity. Qed.

End EmitScenarios.

Section CollectorScenarios.

Context {Callback Args : Type}.

Local Abbreviation Link := (SignalLink Callback).

(** Emission under [CollectorUntil0] after three connections, when the
    first node is enabled and its handler returns a value that converts to
    [false]: the pass ends right after that handler. *)
Lemma emit_until0_first_false {R} `{ResultType R} (val : Callback → Args → R)
    bits (h1 h2 h3 : Callback) args :
  bits 1 = true → to_bool (val h1 args) = false →
  ∃ w, (three_connected h1 h2 h3 ;; emit (pure_call val) (CollectorUntil0 R) 4 tt args)
         (boot bits)
       = Done (val h1 args, w) ∧ calls w = [h1].
Proof.
  intros Hb1 Hv1.
  destruct (three_connected_state bits h1 h2 h3)
    as (s & a & b & c & w & Hrun & Hrest & Htr & Hs & Ha & _ & _).
  rewrite Hb1 in Ha.
  assert (length [a; b; c] < 4) as Hfuel by (simpl; lia).
  pose proof (emit_at_rest val (CollectorUntil0 R) w s [a; b; c] tt args 4 Hrest Hfuel) as Hemit.
  rewrite sweep_cons_inactive in Hemit by done.
  rewrite (sweep_cons_stop val (CollectorUntil0 R) _ _ a h1) in Hemit;
    [|done|simpl; by rewrite Hv1].
  exists (with_invoked (invoked w ++ [(a, h1)]) w). split.
  - by rewrite (bind_Done _ _ _ _ _ Hrun), Hemit.
  - unfold calls, with_invoked. cbn [invoked]. by rewrite Htr.
Qed.

(** C3, amended: under the Until0 collector, with three connected handlers
    returning false, true, false in that order and the first one enabled,
    [emit] stops after the first handler; the second and the third are not
    invoked, and the result is false. *)
Theorem emit_until0_false_true_false (val : Callback → Args → bool)
    bits (h1 h2 h3 : Callback) args :
  bits 1 = true →
  val h1 args = false → val h2 args = true → val h3 args = false →
  ∃ w, (three_connected h1 h2 h3 ;; emit (pure_call val) (CollectorUntil0 bool) 4 tt args)
         (boot bits)
       = Done (false, w) ∧ calls w = [h1].
Proof.
  intros Hb1 Hv1 _ _.
  destruct (emit_until0_first_false val bits h1 h2 h3 args Hb1) as (w & Hrun & Hcalls).
  { simpl. by rewrite Hv1. }
  rewrite Hv1 in Hrun. exists w. split; [exact Hrun | exact Hcalls].
Qed.

(** C6, at the input where the code departs from it: a signal of [int]
    results under the Default/Last collector, never connected, emitted
    while the storage of the collector's [_last] holds 42.  No callback is
    invoked and the state is untouched, as the claim says; the result is
    the 42 the storage held, where the claim has [int()], zero. *)
Theorem emit_unconnected_last_is_indeterminate
    (call : Callback → Args → M Callback Z) bits args fuel :
  (ProtoSignal_ctor None ;; emit call (CollectorDefault Z) fuel 42%Z args) (boot bits)
  = Done (42%Z, boot bits) ∧
  42%Z ≠ value_init ∧
  (ProtoSignal_ctor None ;; emit call (CollectorUntil0 Z) fuel tt args) (boot bits)
  = Done (value_init, boot bits).
Proof. split_and!; [reflexivity | discriminate | reflexivity]. Qed.

End CollectorScenarios.

(** C3 as stated fails: with the three handlers enabled, the emission does
    not stop after the second handler with result true. *)
Lemma emit_until0_false_true_false_counterexample :
  ¬ ∃ w, (three_connected 1 2 3 ;;
          emit (pure_call (λ (f : nat) (_ : unit), bool_decide (f = 2)))
               (CollectorUntil0 bool) 4 tt tt) (boot (λ _, true))
         = Done (true, w) ∧ calls w = [1; 2].
Proof.
  intros (w & Hrun & _). vm_compute in Hrun. discriminate Hrun.
Qed.

(** The amended C3 at three handlers named 1, 2, 3. *)
Lemma emit_until0_false_true_false_witness :
  ∃ w, (three_connected 1 2 3 ;;
        emit (pure_call (λ (f : nat) (_ : unit), bool_decide (f = 2)))
             (CollectorUntil0 bool) 4 tt tt) (boot (λ _, true))
       = Done (false, w) ∧ calls w = [1].
Proof.
  apply (emit_until0_false_true_false (λ (f : nat) (_ : unit), bool_decide (f = 2))
           (λ _, true) 1 2 3 tt); reflexivity.
Defined.

(** ** Concrete signals *)

Lemma ring3_reached : three_connected 10 20 30 (boot (λ _, true)) = Done (tt, ring3).
Proof. vm_compute. reflexivity. Qed.

Lemma ring3_at_rest : at_rest ring3 0 [1; 2; 3].
Proof. by apply (bool_decide_unpack _). Qed.

(** ** Disconnecting *)

Section DisconnectFacts.

Context {Callback : Type}.

Local Abbreviation Link := (SignalLink Callback).

Implicit Types (h : gmap addr Link) (l : list addr) (w : State Callback).

(** [remove] on a node that has no successor link answers [false]. *)
Lemma remove_unlinked h k bits ring tr x (nx : Link) fuel :
  h !! x = Some nx → _next nx = None →
  remove fuel x (mkState h k bits ring tr) = Done (false, mkState h k bits ring tr).
Proof.
  intros Hx Hn. unfold remove. erewrite bind_Done by (by apply load_at). by rewrite Hn.
Qed.

(** [remove] on a live node that is not in the ring its successor link
    points into: the scan goes once around that ring and answers [false]. *)
Lemma remove_miss h k bits ring tr s l x (nx : Link) y fuel :
  cycle h (s :: l) → x ∉ s :: l → h !! x = Some nx → _next nx = Some y → y ∈ s :: l →
  length l < fuel →
  remove fuel x (mkState h k bits ring tr) = Done (false, mkState h k bits ring tr).
Proof.
  intros Hcyc Hx Hnx Hnext Hy Hfuel. unfold remove.
  erewrite bind_Done by (by apply load_at). rewrite Hnext.
  apply list_elem_of_split in Hy as (pre & post & Heq).
  rewrite Heq in Hcyc. apply cycle_rotate in Hcyc. simpl in Hcyc.
  apply removeSibling_miss with (l := post ++ pre); [done| |].
  - intros b Hb [= ->]. apply Hx. rewrite Heq.
    apply elem_of_app in Hb as [Hb|Hb]; apply elem_of_app; [right; by right | by left].
  - assert (length (s :: l) = length (pre ++ y :: post)) as Hlen by (by rewrite Heq).
    rewrite length_app in *. simpl in *. lia.
Qed.

(** Whatever the first [disconnect] through a handle did, it left the
    handle empty: the next one answers [false] and touches nothing. *)
Lemma disconnect_again w fuel ref b ref' w' :
  disconnect fuel ref w = Done ((b, ref'), w') →
  ∀ fuel', disconnect fuel' ref' w' = Done ((false, ref'), w').
Proof.
  unfold disconnect, ConnectionRef_disconnect. destruct ref as [[x|]]; simpl.
  - intros Hrun fuel'. apply bind_Done_inv in Hrun as (r & w1 & _ & Hret).
    by injection Hret as _ <- <-.
  - intros [= _ <- <-] fuel'. done.
Qed.

(** C4: on a signal at rest, the first [disconnect] through a handle
    answers [true] when the handle's node is connected, removing it from
    the ring, and [false] when it is not: the handle is empty, or its node
    is live outside the ring, with or without a successor link; in these
    cases nothing is changed.  Every later [disconnect] through the same
    handle answers [false] and leaves the state as it is. *)
Theorem disconnect_first_then_false w s l fuel :
  at_rest w s l → length l < fuel →
  (∀ l1 x l2, l = l1 ++ x :: l2 →
     ∃ w', disconnect fuel (mkRef (Some x)) w = Done ((true, mkRef None), w') ∧
           at_rest w' s (l1 ++ l2) ∧ store w' !! x = None) ∧
  disconnect fuel (mkRef None) w = Done ((false, mkRef None), w) ∧
  (∀ x nx, x ∉ s :: l → store w !! x = Some nx →
     (_next nx = None ∨ ∃ y, _next nx = Some y ∧ y ∈ s :: l) →
     disconnect fuel (mkRef (Some x)) w = Done ((false, mkRef None), w)) ∧
  (∀ ref b ref' w', disconnect fuel ref w = Done ((b, ref'), w') →
     ∀ fuel', disconnect fuel' ref' w' = Done ((false, ref'), w')).
Proof.
  intros Hrest Hfuel. split_and!.
  - intros l1 x l2 ->.
    destruct (disconnect_at_rest w s l1 x l2 fuel Hrest) as (w' & Hdis & Hrest' & Hgone & _).
    { rewrite length_app in *. simpl in *. lia. }
    by exists w'.
  - done.
  - intros x nx Hx Hnx Hnext. destruct w as [h k bits ring tr].
    destruct Hrest as (_ & Hcyc & _). simpl in *.
    unfold disconnect, ConnectionRef_disconnect. simpl.
    destruct Hnext as [Hnone|(y & Hy & Hin)].
    + by rewrite (bind_Done _ _ _ _ _ (remove_unlinked h k bits ring tr x nx fuel Hnx Hnone)).
    + by rewrite (bind_Done _ _ _ _ _
                    (remove_miss h k bits ring tr s l x nx y fuel Hcyc Hx Hnx Hy Hin Hfuel)).
  - intros ref b ref' w'. apply disconnect_again.
Qed.

(** C8: for a node [this] of a ring whose other nodes are [l],
    [removeSibling] answers [true] exactly for a pointer to one of the nodes
    of [l]; it then has unlinked that node: the ring closes over it, its
    callback is emptied and it gives up one reference.  For every other
    pointer (null, [this] itself, a node that was unlinked before, a node
    of another ring, a dangling pointer) it answers [false] and changes
    nothing.  [remove] on a node without a successor link answers
    [false]. *)
Theorem removeSibling_iff_in_ring h k bits ring tr this l id fuel :
  cycle h (this :: l) → counted h l → length l < fuel →
  ((∃ w', removeSibling fuel this id (mkState h k bits ring tr) = Done (true, w'))
   ↔ (∃ x, id = Some x ∧ x ∈ l)) ∧
  (∀ l1 x l2 nx, id = Some x → l = l1 ++ x :: l2 → h !! x = Some nx →
     ∃ h', removeSibling fuel this id (mkState h k bits ring tr)
           = Done (true, mkState h' k bits ring tr) ∧
           cycle h' (this :: l1 ++ l2) ∧
           h' !! x = (if decide (_refCount nx = 1%Z) then None
                      else Some (with_refCount (_refCount nx - 1)
                                   (with_callbackFunc None nx)))) ∧
  ((∀ x, x ∈ l → id ≠ Some x) →
     removeSibling fuel this id (mkState h k bits ring tr)
     = Done (false, mkState h k bits ring tr)) ∧
  (∀ x nx, h !! x = Some nx → _next nx = None →
     remove fuel x (mkState h k bits ring tr) = Done (false, mkState h k bits ring tr)).
Proof.
  intros Hcyc Hcnt Hfuel.
  assert (∀ l1 x l2 nx, id = Some x → l = l1 ++ x :: l2 → h !! x = Some nx →
     ∃ h', removeSibling fuel this id (mkState h k bits ring tr)
           = Done (true, mkState h' k bits ring tr) ∧
           cycle h' (this :: l1 ++ l2) ∧
           h' !! x = (if decide (_refCount nx = 1%Z) then None
                      else Some (with_refCount (_refCount nx - 1)
                                   (with_callbackFunc None nx)))) as Hhit.
  { intros l1 x l2 nx -> -> Hx.
    destruct (counted_at h _ x Hcnt) as (nx' & Hx' & Hc).
    { apply elem_of_app. right. left. }
    assert (nx' = nx) as -> by congruence.
    destruct (removeSibling_hit h k bits ring tr this l1 x l2 nx fuel Hcyc Hx)
      as (h' & Hrem & Hcyc' & _ & _ & Hself); [lia| |].
    { rewrite length_app in Hfuel. simpl in Hfuel. lia. }
    by exists h'. }
  split_and!; [|done| |].
  - split.
    + intros (w' & Hrun).
      destruct id as [x|].
      * destruct (decide (x ∈ l)) as [Hin|Hout]; [by exists x|].
        rewrite (removeSibling_miss h k bits ring tr this l) in Hrun; [done|done| |done].
        intros b Hb [= ->]. done.
      * rewrite (removeSibling_miss h k bits ring tr this l) in Hrun; done.
    + intros (x & -> & Hin).
      apply list_elem_of_split in Hin as (l1 & l2 & ->).
      destruct (counted_at h _ x Hcnt) as (nx & Hx & _).
      { apply elem_of_app. right. left. }
      destruct (Hhit l1 x l2 nx eq_refl eq_refl Hx) as (h' & Hrun & _).
      by eexists.
  - intros Hmiss. by apply (removeSibling_miss h k bits ring tr this l).
  - intros x nx. apply remove_unlinked.
Qed.

End DisconnectFacts.

(** C4 on the ring of three: the handle of the second connection. *)
Lemma disconnect_first_then_false_witness :
  (∃ w', disconnect 4 (mkRef (Some 2)) ring3 = Done ((true, mkRef None), w') ∧
         at_rest w' 0 [1; 3] ∧ store w' !! 2 = None) ∧
  disconnect 4 (mkRef None) ring3 = Done ((false, mkRef None), ring3).
Proof.
  destruct (disconnect_first_then_false ring3 0 [1; 2; 3] 4) as (Hfirst & Hnull & _).
  - by apply (bool_decide_unpack _).
  - simpl. lia.
  - split; [apply (Hfirst [1] 2 [3] eq_refl) | exact Hnull].
Defined.

(** C8 on the ring of three, from the sentinel, for the pointer to the
    second connection. *)
Lemma removeSibling_iff_in_ring_witness :
  (∃ w', removeSibling 4 0 (Some 2) ring3 = Done (true, w')) ↔ (∃ x, Some 2 = Some x ∧ x ∈ [1; 2; 3]).
Proof.
  refine (proj1 (removeSibling_iff_in_ring (store ring3) 4 (λ _, true) (Some 0) [] 0
                   [1; 2; 3] (Some 2) 4 _ _ _)).
  - by apply (bool_decide_unpack _).
  - by apply (bool_decide_unpack _).
  - simpl. lia.
Defined.

(** ** Enabling and disabling *)

Section EnableFacts.

Context {Callback Args R : Type}.

Variable val : Callback → Args → R.
Variable C : Collector R.

Local Abbreviation Link := (SignalLink Callback).

Implicit Types (h : gmap addr Link) (l : list addr) (w : State Callback).

Lemma visits_cons_active h a f links :
  active h a = Some f → visits h (a :: links) = (a, f) :: visits h links.
Proof. intros Ha. unfold visits. simpl. by rewrite Ha. Qed.

Lemma visits_cons_inactive h a links :
  active h a = None → visits h (a :: links) = visits h links.
Proof. intros Ha. unfold visits. simpl. by rewrite Ha. Qed.

Lemma visits_none h links x :
  x ∉ links → filter (λ p, p.1 = x) (visits h links) = [].
Proof.
  induction links as [|a links IH]; intros Hx; [done|].
  apply not_elem_of_cons in Hx as [Hxa Hx].
  destruct (active h a) as [f|] eqn:Ha.
  - rewrite (visits_cons_active h a f) by done.
    rewrite filter_cons_False by (simpl; congruence). by apply IH.
  - rewrite visits_cons_inactive by done. by apply IH.
Qed.

(** Among the invocations of an unstopped pass over distinct nodes, an
    active node appears exactly once, with its callback. *)
Lemma visits_once h links x f :
  NoDup links → x ∈ links → active h x = Some f →
  filter (λ p, p.1 = x) (visits h links) = [(x, f)].
Proof.
  induction links as [|a links IH]; intros Hnd Hx Hact.
  - by apply elem_of_nil in Hx.
  - apply NoDup_cons in Hnd as [Ha Hnd].
    apply elem_of_cons in Hx as [->|Hx].
    + rewrite (visits_cons_active h a f) by done.
      rewrite filter_cons_True by done. by rewrite visits_none.
    + assert (a ≠ x) as Hax by (by intros ->).
      destruct (active h a) as [g|] eqn:Haa.
      * rewrite (visits_cons_active h a g) by done.
        rewrite filter_cons_False by (simpl; congruence). by apply IH.
      * rewrite visits_cons_inactive by done. by apply IH.
Qed.

(** An emission on a signal at rest does not invoke a node that is not
    active. *)
Lemma emit_skips_inactive w s l x junk args fuel :
  at_rest w s l → length l < fuel → active (store w) x = None →
  ∃ r t, emit (pure_call val) C fuel junk args w = Done (r, with_invoked (invoked w ++ t) w) ∧
         ∀ g, (x, g) ∉ t.
Proof.
  intros Hrest Hfuel Hact.
  pose proof (emit_at_rest val C w s l junk args fuel Hrest Hfuel) as Hemit.
  pose proof (sweep_invoked val C (store w) args (s :: l) (construct C junk)) as Hsw.
  destruct (sweep val C (store w) args (s :: l) (construct C junk)) as [[e c] t].
  exists (result C c), t. split; [done|].
  intros g Hin. destruct (Hsw x g Hin) as [_ Hact']. congruence.
Qed.

(** An emission that the collector never stops invokes an active node of
    a signal at rest exactly once. *)
Lemma emit_visits_active w s l x f junk args fuel :
  at_rest w s l → length l < fuel → (∀ st r, snd (collect C st r) = true) →
  x ∈ s :: l → active (store w) x = Some f →
  ∃ r t, emit (pure_call val) C fuel junk args w = Done (r, with_invoked (invoked w ++ t) w) ∧
         filter (λ p, p.1 = x) t = [(x, f)].
Proof.
  intros Hrest Hfuel Hgo Hx Hact.
  pose proof (emit_at_rest val C w s l junk args fuel Hrest Hfuel) as Hemit.
  rewrite sweep_nonstop in Hemit by done.
  eexists _, _. split; [exact Hemit|].
  apply visits_once; [apply Hrest|done|done].
Qed.

End EnableFacts.

(** ** The sentinel and the assertions over a session *)

Section SessionFacts.

Context {Callback Args R : Type}.

Variable val : Callback → Args → R.
Variable C : Collector R.

Local Abbreviation Link := (SignalLink Callback).
Local Abbreviation Op := (@Op Callback Args R C).



(** What [decref] does on a live node, by the count it finds. *)
Lemma decref_outcome (h : gmap addr Link) k bits ring tr a (n : Link) :
  h !! a = Some n →
  decref a (mkState h k bits ring tr)
  = if (int_wrap (_refCount n - 1) =? 0)%Z then
      Done (tt, mkState (delete a h) k bits ring tr)
    else if (0 <? int_wrap (_refCount n - 1))%Z then
      Done (tt, mkState (<[a := with_refCount (int_wrap (_refCount n - 1)) n]> h) k bits ring tr)
    else Abort refCount_positive_decref.
Proof.
  intros Ha. unfold decref.
  rewrite (bind_Done _ _ _ _ _ (update_at _ _ _ _ _ _ _ _ Ha)).
  erewrite bind_Done by (apply load_at, lookup_insert_eq).
  cbn [_refCount with_refCount]. destruct (int_wrap (_refCount n - 1) =? 0)%Z eqn:E0.
  - unfold delete_SignalLink. erewrite bind_Done by (apply load_at, lookup_insert_eq).
    cbn [_refCount with_refCount]. rewrite E0. unfold assert, bind, with_store. simpl.
    by rewrite delete_insert_eq.
  - unfold assert. by destruct (0 <? int_wrap (_refCount n - 1))%Z.
Qed.

(** [decref] fails its assertion exactly when the count, once decremented,
    is negative; it fails no other. *)
Lemma decref_abort_iff (w : State Callback) a (n : Link) q :
  store w !! a = Some n →
  decref a w = Abort q ↔ q = refCount_positive_decref ∧ (int_wrap (_refCount n - 1) < 0)%Z.
Proof.
  intros Ha. destruct w as [h k bits ring tr]. simpl in Ha.
  rewrite (decref_outcome h k bits ring tr a n Ha).
  destruct (int_wrap (_refCount n - 1) =? 0)%Z eqn:E0; [split; [done|lia]|].
  destruct (0 <? int_wrap (_refCount n - 1))%Z eqn:E1; [split; [done|lia]|].
  split; [intros [= <-]; split; [done|lia] | by intros [-> _]].
Qed.

(** The destructor, on a ring whose connected nodes hold references, fails
    its assertion exactly when the sentinel reports fewer than two
    references. *)
Lemma dtor_abort_iff (h : gmap addr Link) k bits tr s l (ns : Link) fuel :
  cycle h (s :: l) → counted h l → length l < fuel →
  h !! s = Some ns → (_refCount ns ≤ 2147483647)%Z →
  (ProtoSignal_dtor fuel (mkState h k bits (Some s) tr) = Abort ring_refCount_ge_2
   ↔ (_refCount ns < 2)%Z) ∧
  ((2 ≤ _refCount ns)%Z →
   ∃ w', ProtoSignal_dtor fuel (mkState h k bits (Some s) tr) = Done (tt, w')).
Proof.
  intros Hcyc Hcnt Hfuel Hs Hmax.
  destruct (decide (_refCount ns < 2)%Z) as [Hlt|Hge].
  - split; [|lia]. split; [done|]. intros _. by eapply dtor_few_refs.
  - destruct (dtor_enough_refs h k bits tr s l ns fuel Hcyc Hcnt Hfuel Hs)
      as (h' & Hd & _); [lia|].
    split; [|by eexists]. rewrite Hd. split; [done|lia].
Qed.

(** Destroying the signal at the end of a session. *)
Lemma session_then_dtor bits method (ops : list Op) fuel :
  length ops < fuel →
  ends (Exists is_SetEnabled ops) (λ _ _, True)
    ((session val C fuel method ops ;; ProtoSignal_dtor fuel) (boot bits)).
Proof.
  intros Hfuel.
  pose proof (session_ok val C bits method ops fuel ltac:(lia)) as Hok.
  unfold bind at 1.
  destruct (session val C fuel method ops (boot bits)) as [[hs w]| | |]; try done.
  simpl in Hok. unfold client_ok in Hok.
  destruct (_callbackRing w) as [s|] eqn:Hring.
  - destruct Hok as (l & Hrest & _ & Hlen & _).
    destruct (dtor_at_rest w s l fuel Hrest) as (w' & Hd & _); [lia|]. by rewrite Hd.
  - unfold ProtoSignal_dtor, get_callbackRing, bind. by rewrite Hring.
Qed.

End SessionFacts.

(** ** Connecting from inside an emission *)

Section Reentrant.

Context {Callback Args R : Type}.

Variable val : Callback → Args → R.
Variable C : Collector R.
Variable call : Callback → Args → M Callback R.

Local Abbreviation Link := (SignalLink Callback).

Implicit Types (h : gmap addr Link) (l : list addr) (w : State Callback).

(** The store without the reference a traversal holds on [x]. *)
Local Abbreviation released h x := (alter (λ n : Link, with_refCount (_refCount n - 1) n) x h).

Lemma held_released h x : held (released h x) x = h.
Proof.
  apply map_eq. intros a. unfold held. destruct (decide (x = a)) as [->|Hne].
  - rewrite !lookup_alter_eq. destruct (h !! a) as [n|]; [|done]. simpl.
    rewrite with_refCount_twice.
    replace (_refCount n - 1 + 1)%Z with (_refCount n) by lia.
    by rewrite with_refCount_same.
  - by rewrite !lookup_alter_ne.
Qed.

Lemma active_inv h a f :
  active h a = Some f → ∃ n, h !! a = Some n ∧ _enabled n = true ∧ _callbackFunc n = Some f.
Proof.
  unfold active. destruct (h !! a) as [n|]; [|done].
  destruct (_enabled n) eqn:He; [|done]. intros Hf. by exists n.
Qed.

Lemma active_same_payload h h' a :
  payload <$> h' !! a = payload <$> h !! a → active h' a = active h a.
Proof.
  unfold active. destruct (h' !! a) as [n'|], (h !! a) as [n|]; simpl; try done.
  unfold payload. by intros [= -> -> _].
Qed.

Lemma visits_same_payload h h' links :
  (∀ a, a ∈ links → payload <$> h' !! a = payload <$> h !! a) →
  visits h' links = visits h links.
Proof.
  induction links as [|a links IH]; intros Hp; [done|].
  assert (active h' a = active h a) as Ha by (apply active_same_payload, Hp; left).
  assert (visits h' links = visits h links) as Hrest.
  { apply IH. intros b Hb. apply Hp. by right. }
  destruct (active h a) as [f|] eqn:Hact.
  - by rewrite (visits_cons_active h a f), (visits_cons_active h' a f), Hrest.
  - by rewrite (visits_cons_inactive h a), (visits_cons_inactive h' a), Hrest.
Qed.

Lemma visits_app h l1 l2 : visits h (l1 ++ l2) = visits h l1 ++ visits h l2.
Proof. unfold visits. apply omap_app. Qed.

Lemma emit_loop_unfold fuel args link collector :
  emit_loop call C (S fuel) args link collector
  = (n <- load link ;;
     step <- (if _enabled n then
                match _callbackFunc n with
                | Some f => note link f ;; invoke call C collector f args
                | None => ret (collector, true)
                end
              else ret (collector, true)) ;;
     let '(collector', continueEmission) := step in
     if negb continueEmission then ret (link, collector')
     else
       old <- load link ;;
       next <- deref (_next old) ;;
       incref next ;;
       decref link ;;
       ring <- get_callbackRing ;;
       if decide (Some next = ring) then ret (next, collector')
       else emit_loop call C fuel args next collector').
Proof. reflexivity. Qed.

(** [connect] called while a traversal stands on node [x] of the ring:
    the new node is spliced in right before the sentinel, and the traversal
    keeps its reference. *)
Lemma connect_held h k bits tr s l x (cb : option Callback) :
  cycle h (s :: l) → counted h (s :: l) → x ∈ s :: l →
  ∃ h', connect cb (mkState (held h x) k bits (Some s) tr)
        = Done (mkRef (Some (fresh (dom h))), mkState (held h' x) (S k) bits (Some s) tr) ∧
        cycle h' (s :: l ++ [fresh (dom h)]) ∧
        counted h' (s :: l ++ [fresh (dom h)]) ∧
        (fresh (dom h) ∉ s :: l) ∧
        payload <$> h' !! (fresh (dom h)) = Some (bits k, cb, 1%Z) ∧
        (∀ a, a ≠ fresh (dom h) → payload <$> h' !! a = payload <$> h !! a).
Proof.
  intros Hcyc Hcnt Hx.
  destruct (counted_at h _ x Hcnt Hx) as (nx & Hnx & Hcx).
  assert (cycle (held h x) (s :: l)) as Hcych.
  { eapply cycle_same_links; [|exact Hcyc]. intros a n Ha Hn. unfold held.
    destruct (decide (x = a)) as [->|Hne].
    - rewrite lookup_alter_eq, Hn. by eexists.
    - rewrite lookup_alter_ne by done. by exists n. }
  destruct (addBefore_cycle (held h x) k bits (Some s) tr s l cb Hcych)
    as (h2 & Hadd & Hnew & Hfresh & Hcyc2 & Hpay2 & _ & Hpd).
  assert (dom (held h x) = dom h) as Hdom by apply dom_alter_L.
  rewrite Hdom in *. set (d := fresh (dom h)) in *.
  assert (x ≠ d) as Hxd by (by intros ->).
  set (h' := released h2 x).
  assert (held h' x = h2) as Hheld by apply held_released.
  assert (∀ a, a ≠ d → payload <$> h' !! a = payload <$> h !! a) as Hpay.
  { intros a Had. unfold h'. destruct (decide (x = a)) as [<-|Hne].
    - rewrite lookup_alter_eq. specialize (Hpay2 x Hxd). unfold held in Hpay2.
      rewrite lookup_alter_eq, Hnx in Hpay2. rewrite Hnx.
      destruct (h2 !! x) as [n2|]; [|done]. simpl in *.
      unfold payload in *. simpl in Hpay2. injection Hpay2 as He Hf Hc.
      simpl. rewrite He, Hf, Hc. do 2 f_equal. lia.
    - rewrite lookup_alter_ne by done. rewrite Hpay2 by done.
      unfold held. by rewrite lookup_alter_ne. }
  assert (payload <$> h' !! d = Some (bits k, cb, 1%Z)) as Hpd'.
  { unfold h'. by rewrite lookup_alter_ne. }
  exists h'. split_and!; try done.
  - unfold connect. rewrite (bind_Done _ _ _ _ _ (ensureRing_there _ _ _ _ _)).
    unfold get_callbackRing at 1.
    rewrite (bind_Done _ _ _ (Some s) (mkState (held h x) k bits (Some s) tr)) by done.
    simpl deref. unfold ret at 1.
    rewrite (bind_Done _ _ _ s (mkState (held h x) k bits (Some s) tr)) by done.
    rewrite (bind_Done _ _ _ _ _ Hadd). by rewrite Hheld.
  - eapply cycle_same_links; [|exact Hcyc2]. intros a n Ha Hn. unfold h'.
    destruct (decide (x = a)) as [->|Hne].
    + rewrite lookup_alter_eq, Hn. by eexists.
    + rewrite lookup_alter_ne by done. by exists n.
  - unfold counted in *. rewrite app_comm_cons. apply Forall_app. split.
    + rewrite Forall_forall in Hcnt |- *. intros a Ha. specialize (Hcnt a Ha).
      assert (a ≠ d) as Had by (by intros ->).
      specialize (Hpay a Had).
      destruct (h' !! a) as [n'|], (h !! a) as [n|]; simpl in *; try done.
      unfold payload in Hpay. by injection Hpay as _ _ ->.
    + apply Forall_singleton.
      destruct (h' !! d) as [n'|]; simpl in *; [|done].
      unfold payload in Hpd'. injection Hpd' as _ _ ->. lia.
Qed.

(** Reentrant connection on any ring at rest.  The active callback [fx] of
    a connected node [x] connects [D] and returns; the other active
    callbacks of the ring, and [D], leave the signal alone; the collector
    never stops the emission.  Then [emit] completes; [D]'s node [d] is in
    the ring, last before the sentinel; and the invocations of the pass are
    those of the nodes before [x], [fx], those of the nodes after [x], and
    then, when the storage of the new node read [true], [D]. *)
Lemma emit_reentrant_connect w s l1 x l2 fx D junk args fuel :
  at_rest w s (l1 ++ x :: l2) →
  length (l1 ++ x :: l2) + 1 < fuel →
  (∀ st r, snd (collect C st r) = true) →
  active (store w) x = Some fx →
  (∀ w', call fx args w' = (connect (Some D) ;; ret (val fx args)) w') →
  (∀ a f, a ∈ s :: l1 ++ l2 → active (store w) a = Some f →
          ∀ w', call f args w' = Done (val f args, w')) →
  (∀ w', call D args w' = Done (val D args, w')) →
  ∃ d w' r,
    emit call C fuel junk args w = Done (r, w') ∧
    at_rest w' s (l1 ++ x :: l2 ++ [d]) ∧
    _callbackFunc <$> store w' !! d = Some (Some D) ∧
    invoked w' = invoked w ++ visits (store w) (s :: l1) ++ [(x, fx)] ++
                 visits (store w) l2 ++ (if raw w (allocs w) then [(d, D)] else []).
Proof.
  intros Hrest Hfuel Hgo Hact Hfx Hpure HD.
  pose proof (at_rest_counted _ _ _ Hrest) as Hcnt.
  destruct w as [h k bits ring tr]. destruct Hrest as (Hring & Hcyc & Hrs & Hrl).
  simpl in *. subst ring.
  set (l := l1 ++ x :: l2) in *.
  assert (NoDup (s :: l)) as Hnd by apply Hcyc.
  assert (x ∈ s :: l) as Hx by (right; apply elem_of_app; right; left).
  destruct (counted_at h _ s Hcnt) as (ns & Hs & Hcs); [left|].
  destruct (active_inv h x fx Hact) as (nx & Hnx & Hex & Hcbx).
  destruct (connect_held h k bits (tr ++ visits h (s :: l1) ++ [(x, fx)]) s l x (Some D)
              Hcyc Hcnt Hx)
    as (h' & Hconn & Hcyc' & Hcnt' & Hnew & Hpd & Hpay).
  set (d := fresh (dom h)) in *.
  unfold l in Hfuel. rewrite length_app in Hfuel. simpl in Hfuel.
  set (F := fuel - length l1 - length l2 - 3).
  replace fuel with (S (length l1 + S (S (length l2 + F)))) by (unfold F; lia).
  set (t1 := visits h (s :: l1)).
  set (c1 := fed val C args (construct C junk) t1).
  set (c2 := fst (collect C c1 (val fx args))).
  set (t3 := visits h' (l2 ++ [d])).
  exists d, (mkState h' (S k) bits (Some s) (tr ++ t1 ++ [(x, fx)] ++ t3)),
         (result C (fed val C args c2 t3)).
  split_and!.
  - unfold emit. unfold get_callbackRing at 1.
    rewrite (bind_Done _ _ _ (Some s) (mkState h k bits (Some s) tr)) by done.
    erewrite bind_Done by (by eapply acquire_held).
    (* the nodes before [x] *)
    rewrite (bind_Done _ _ _ (s, fed val C args c2 t3)
               (mkState (held h' s) (S k) bits (Some s) (tr ++ t1 ++ [(x, fx)] ++ t3))).
    { simpl fst. simpl snd.
      destruct (counted_at h' _ s Hcnt') as (ns' & Hs' & Hcs'); [left|].
      by erewrite bind_Done by (by eapply release_held). }
    rewrite (emit_loop_stretch val C call h k bits s l args Hcyc Hcnt l1 [] s (x :: l2));
      [|done|].
    2:{ intros a f Ha. apply Hpure. apply elem_of_cons in Ha as [->|Ha]; [left|].
        right. apply elem_of_app. by left. }
    rewrite sweep_nonstop by done. fold t1 c1. unfold onward.
    (* the turn on [x] *)
    assert (held h x !! x = Some (with_refCount (_refCount nx + 1) nx)) as Hhx
      by (unfold held; by rewrite lookup_alter_eq, Hnx).
    rewrite emit_loop_unfold. erewrite bind_Done by (by apply load_at).
    simpl _enabled. simpl _callbackFunc. rewrite Hex, Hcbx.
    rewrite (bind_Done _ _ _ (collect C c1 (val fx args))
               (mkState (held h' x) (S k) bits (Some s) (tr ++ t1 ++ [(x, fx)]))).
    2:{ unfold note, invoke. unfold bind at 1. simpl. unfold with_invoked. simpl.
        unfold bind at 1. rewrite Hfx. rewrite <- app_assoc.
        by rewrite (bind_Done _ _ _ _ _ Hconn). }
    rewrite (surjective_pairing (collect C c1 (val fx args))). rewrite Hgo. fold c2.
    cbn [negb].
    (* onward, in the ring with the new node *)
    rewrite (emit_advance C call h' (S k) bits s (l ++ [d]) args Hcyc' Hcnt' (s :: l1) x
               (l2 ++ [d]));
      [|unfold l; by rewrite <- app_assoc].
    unfold onward.
    destruct (l2 ++ [d]) as [|b rest] eqn:Hl2; [by destruct l2|].
    assert (length rest = length l2) as Hlen.
    { assert (length (b :: rest) = length (l2 ++ [d])) as Hl by (by rewrite Hl2).
      rewrite length_app in Hl. simpl in Hl. lia. }
    rewrite <- Hlen.
    rewrite (emit_loop_stretch val C call h' (S k) bits s (l ++ [d]) args Hcyc' Hcnt' rest
               (s :: l1 ++ [x]) b []).
    + rewrite sweep_nonstop by done. unfold onward. fold t3.
      by rewrite <- !app_assoc.
    + rewrite app_nil_r. rewrite <- Hl2. unfold l. simpl. by rewrite <- !app_assoc.
    + intros a f Ha Hf. rewrite <- Hl2 in Ha. apply elem_of_app in Ha as [Ha|Ha].
      * assert (a ≠ d) as Had.
        { intros ->. apply Hnew. right. apply elem_of_app. right. by right. }
        rewrite (active_same_payload h h' a) in Hf by (by apply Hpay).
        apply (Hpure a f); [|done]. right. apply elem_of_app. by right.
      * apply list_elem_of_singleton in Ha as ->.
        rewrite (active_payload h' d _ _ _ Hpd) in Hf.
        destruct (bits k); [|done]. injection Hf as <-. apply HD.
  - split_and!; simpl; [done| | |].
    + unfold l in Hcyc'. by rewrite <- app_assoc in Hcyc'.
    + rewrite <- Hrs. apply refs_payload, Hpay. intros ->. apply Hnew. left.
    + replace (l1 ++ x :: l2 ++ [d]) with (l ++ [d]) by (unfold l; by rewrite <- app_assoc).
      apply Forall_app. split.
      * rewrite Forall_forall in Hrl |- *. intros a Ha. rewrite <- (Hrl a Ha).
        apply refs_payload, Hpay. intros ->. apply Hnew. by right.
      * apply Forall_singleton. unfold refs.
        destruct (h' !! d) as [n'|]; simpl in *; [|done].
        unfold payload in Hpd. by injection Hpd as _ _ ->.
  - simpl. destruct (h' !! d) as [n'|]; simpl in *; [|done].
    unfold payload in Hpd. by injection Hpd as _ -> _.
  - simpl. do 3 f_equal. unfold t3. rewrite visits_app. f_equal.
    + apply visits_same_payload. intros a Ha. apply Hpay. intros ->.
      apply Hnew. right. apply elem_of_app. right. by right.
    + unfold visits. simpl. rewrite (active_payload h' d _ _ _ Hpd). by destruct (bits k).
Qed.

End Reentrant.

(** ** Sessions and scenarios on concrete signals *)


(** C9 as stated fails: a sentinel that reports three references, more
    than the two of the anchor (as it does while an emission stands on it),
    passes the destructor's assertion; the destructor gives up the anchor's
    two references and the sentinel stays with one. *)
Lemma dtor_more_than_two_refs_counterexample :
  ∃ w w', (ProtoSignal_ctor (Some 7) ;; incref 0) (boot (λ _, true)) = Done (tt, w) ∧
          refs (store w) 0 = Some 3%Z ∧
          ProtoSignal_dtor 1 w = Done (tt, w') ∧
          ProtoSignal_dtor 1 w ≠ Abort ring_refCount_ge_2 ∧
          refs (store w') 0 = Some 1%Z.
Proof.
  eexists _, _. split; [vm_compute; reflexivity|].
  split; [reflexivity|].
  split; [vm_compute; reflexivity|].
  split; [discriminate | reflexivity].
Qed.

(** The signal destroyed by its own default callback, from inside the
    emission: the destructor runs on a sentinel with three references, no
    assertion fires, and the emission itself releases the sentinel at its
    end. *)
Lemma destroyed_during_emission :
  ∃ w, (ProtoSignal_ctor (Some 7) ;;
        emit (λ (f : nat) (_ : unit), ProtoSignal_dtor 1 ;; ret f) (CollectorVector nat) 2 tt tt)
         (boot (λ _, true))
       = Done ([7], w) ∧ store w !! 0 = None.
Proof.
  eexists. split; [vm_compute; reflexivity | reflexivity].
Qed.

(** Reentrant connection on a fresh signal: callback 1, connected and
    enabled, connects callback 4 while it runs.  The node of 4 is spliced
    right before the sentinel; whether the same emission invokes it is
    decided by the [_enabled] its storage held. *)
Lemma emit_connecting_callback (b0 b1 b2 : bool) :
  ∃ w, enabled_then_emitted (connecting_call own_name 1 4) 1 3 tt
         (boot (λ k, nth k [b0; b1; b2] false))
       = Done (1 :: (if b2 then [4] else []), w) ∧
       calls w = 1 :: (if b2 then [4] else []) ∧
       at_rest w 0 [1; 2] ∧
       _callbackFunc <$> store w !! 2 = Some (Some 4).
Proof.
  destruct b0, b1, b2;
    (eexists; split; [vm_compute; reflexivity|]);
    (split_and!; [reflexivity | by apply (bool_decide_unpack _) | reflexivity]).
Qed.

(** C5, at the input where the code departs from it: callback 1, enabled,
    connects callback 4 while it runs in an emission under the Vector
    collector, and the storage of the new node held a zero [_enabled] byte.
    The node of 4 is spliced in right before the sentinel, as the claim
    says (the ring is then sentinel, node of 1, node of 4); the emission
    passes over it without invoking 4, where the claim has 4 invoked in
    that same pass. *)
Theorem emit_connecting_callback_unset_flag :
  ∃ w, enabled_then_emitted (connecting_call own_name 1 4) 1 3 tt
         (boot (λ _, false))
       = Done ([1], w) ∧
       calls w = [1] ∧
       at_rest w 0 [1; 2] ∧
       _callbackFunc <$> store w !! 2 = Some (Some 4).
Proof.
  eexists. split; [vm_compute; reflexivity|].
  split_and!; [reflexivity | by apply (bool_decide_unpack _) | reflexivity].
Qed.

(** * Further properties *)

(** ** Emission as a pass over the active callbacks *)

Section EmitOrder.

Context {Callback Args R : Type}.

Variable val : Callback → Args → R.

Local Abbreviation Link := (SignalLink Callback).

Implicit Types (h : gmap addr Link) (l : list addr) (w : State Callback).

Lemma cut_prefix (C : Collector R) args col tr : cut val C args col tr `prefix_of` tr.
Proof.
  revert col. induction tr as [|p tr IH]; intros col; simpl; [done|].
  apply prefix_cons. destruct (collect C col (val p.2 args)) as [col' []]; simpl.
  - apply IH.
  - apply prefix_nil.
Qed.

(** The pass of [sweep] invokes the active callbacks of the nodes in
    order, as far as the collector lets it. *)
Lemma sweep_cut (C : Collector R) h args links col :
  (sweep val C h args links col).2 = cut val C args col (visits h links) ∧
  (sweep val C h args links col).1.2
  = fed val C args col (cut val C args col (visits h links)).
Proof.
  revert col. induction links as [|a links IH]; intros col; [done|].
  destruct (active h a) as [f|] eqn:Ha.
  - rewrite (visits_cons_active h a f) by done. simpl. rewrite Ha.
    destruct (collect C col (val f args)) as [col' []] eqn:Hc; simpl.
    + destruct (IH col') as [IH1 IH2].
      destruct (sweep val C h args links col') as [[e c] t]. simpl in *.
      by subst.
    + done.
  - rewrite visits_cons_inactive by done. simpl. rewrite Ha. apply IH.
Qed.

Lemma emit_cut (C : Collector R) w s l junk args fuel :
  at_rest w s l → length l < fuel →
  emit (pure_call val) C fuel junk args w
  = Done (result C (fed val C args (construct C junk)
                      (cut val C args (construct C junk) (visits (store w) (s :: l)))),
          with_invoked (invoked w ++ cut val C args (construct C junk)
                                       (visits (store w) (s :: l))) w).
Proof.
  intros Hrest Hfuel.
  pose proof (emit_at_rest val C w s l junk args fuel Hrest Hfuel) as Hemit.
  destruct (sweep_cut C (store w) args (s :: l) (construct C junk)) as [Ht Hc].
  destruct (sweep val C (store w) args (s :: l) (construct C junk)) as [[e c] t].
  simpl in Ht, Hc. by rewrite Hemit, Ht, Hc.
Qed.

(** X1: [emit] on a signal at rest, with callbacks that do not re-enter
    it, completes; it leaves the store, the ring pointer and every
    reference count as it found them, also when the collector stops it
    early; the callbacks it invokes are a prefix of the active callbacks
    (enabled, not empty) in ring order: the sentinel's first, then the
    connected ones in connection order, up to and including the first one
    whose result makes the collector ask to stop; and the result is that of
    the collector fed with exactly these results, in this order. *)
Theorem emit_is_an_ordered_balanced_pass (C : Collector R) w s l junk args fuel :
  at_rest w s l → length l < fuel →
  ∃ t, emit (pure_call val) C fuel junk args w
       = Done (result C (fed val C args (construct C junk) t),
               with_invoked (invoked w ++ t) w) ∧
       t = cut val C args (construct C junk) (visits (store w) (s :: l)) ∧
       t `prefix_of` visits (store w) (s :: l).
Proof.
  intros Hrest Hfuel. eexists. split_and!; [by apply (emit_cut C w s l)|done|].
  apply cut_prefix.
Qed.

Lemma cut_nonstop (C : Collector R) args col tr :
  (∀ st r, snd (collect C st r) = true) → cut val C args col tr = tr.
Proof.
  intros Hgo. revert col. induction tr as [|p tr IH]; intros col; simpl; [done|].
  by rewrite Hgo, IH.
Qed.

Lemma fed_Vector args col tr :
  fed val (CollectorVector R) args col tr = col ++ ((λ p, val p.2 args) <$> tr).
Proof.
  revert col. induction tr as [|p tr IH]; intros col; simpl.
  - by rewrite app_nil_r.
  - unfold fed in *. simpl. rewrite IH. by rewrite <- app_assoc.
Qed.

Lemma fed_Last args col tr :
  fed val (CollectorLast R) args col tr = default col (last ((λ p, val p.2 args) <$> tr)).
Proof.
  revert col. induction tr as [|p tr IH]; intros col; [done|].
  unfold fed in *. simpl foldl. rewrite IH. simpl.
  destruct tr as [|q tr]; simpl; [done|]. rewrite last_cons.
  destruct (last (list_fmap _ _ _ tr)); reflexivity.
Qed.

(** X2: under the Vector collector, [emit] on a signal at rest invokes
    every active callback once, in ring order, and returns their results in
    that order; the result has one entry for each active callback. *)
Theorem emit_Vector_collects_all w s l args fuel :
  at_rest w s l → length l < fuel →
  emit (pure_call val) (CollectorVector R) fuel tt args w
  = Done ((λ p, val p.2 args) <$> visits (store w) (s :: l),
          with_invoked (invoked w ++ visits (store w) (s :: l)) w).
Proof.
  intros Hrest Hfuel. rewrite (emit_cut (CollectorVector R) w s l) by done.
  rewrite cut_nonstop by done. by rewrite fed_Vector.
Qed.

(** X3: under the Default/Last collector, [emit] on a signal at rest
    invokes every active callback, in ring order, and returns the result of
    the last of them; when no callback is active it returns what the
    storage of the collector held. *)
Theorem emit_Last_returns_the_last w s l junk args fuel :
  at_rest w s l → length l < fuel →
  emit (pure_call val) (CollectorLast R) fuel junk args w
  = Done (default junk (last ((λ p, val p.2 args) <$> visits (store w) (s :: l))),
          with_invoked (invoked w ++ visits (store w) (s :: l)) w).
Proof.
  intros Hrest Hfuel. rewrite (emit_cut (CollectorLast R) w s l) by done.
  rewrite cut_nonstop by done. by rewrite fed_Last.
Qed.

End EmitOrder.

Section EmitStops.

Context {Callback Args R : Type} `{ResultType R}.

Variable val : Callback → Args → R.

Local Abbreviation Link := (SignalLink Callback).

Implicit Types (h : gmap addr Link) (l : list addr) (w : State Callback).

(** The cut of a collector that asks to stop exactly on the results for
    which [stop] holds. *)
Lemma cut_at_first (C : Collector R) (stop : R → bool) args pre post :
  (∀ st r, snd (collect C st r) = negb (stop r)) →
  Forall (λ q, stop (val q.2 args) = false) pre →
  (∀ p, head post = Some p → stop (val p.2 args) = true) →
  ∀ col, cut val C args col (pre ++ post) = pre ++ take 1 post.
Proof.
  intros Hc Hpre Hp. induction Hpre as [|q pre Hq _ IH]; intros col; simpl.
  - destruct post as [|p post]; [done|]. simpl.
    by rewrite Hc, (Hp p).
  - by rewrite Hc, Hq, IH.
Qed.

Lemma fed_Until0 args col tr :
  fed val (CollectorUntil0 R) args col tr = default col (last ((λ p, val p.2 args) <$> tr)).
Proof.
  revert col. induction tr as [|p tr IH]; intros col; [done|].
  unfold fed in *. simpl foldl. rewrite IH. simpl.
  destruct tr as [|q tr]; simpl; [done|]. rewrite last_cons.
  destruct (last (list_fmap _ _ _ tr)); reflexivity.
Qed.

Lemma fed_While0 args col tr :
  fed val (CollectorWhile0 R) args col tr = default col (last ((λ p, val p.2 args) <$> tr)).
Proof.
  revert col. induction tr as [|p tr IH]; intros col; [done|].
  unfold fed in *. simpl foldl. rewrite IH. simpl.
  destruct tr as [|q tr]; simpl; [done|]. rewrite last_cons.
  destruct (last (list_fmap _ _ _ tr)); reflexivity.
Qed.

(** X4: under the Until0 collector, [emit] on a signal at rest invokes the
    active callbacks in ring order up to and including the first whose
    result converts to false, invokes none after it, and returns the result
    of the last callback it invoked; when no result converts to false it
    invokes all of them; when no callback is active it returns the
    value-initialised result. Here [pre] are active callbacks whose results
    convert to true and [post] is the rest of the active callbacks, empty
    or starting with one whose result converts to false. *)
Theorem emit_Until0_stops_at_first_false w s l args fuel pre post :
  at_rest w s l → length l < fuel →
  visits (store w) (s :: l) = pre ++ post →
  Forall (λ q, to_bool (val q.2 args) = true) pre →
  (∀ p, head post = Some p → to_bool (val p.2 args) = false) →
  emit (pure_call val) (CollectorUntil0 R) fuel tt args w
  = Done (default value_init (last ((λ p, val p.2 args) <$> pre ++ take 1 post)),
          with_invoked (invoked w ++ pre ++ take 1 post) w).
Proof.
  intros Hrest Hfuel Hv Hpre Hpost.
  rewrite (emit_cut val (CollectorUntil0 R) w s l) by done. rewrite Hv.
  rewrite (cut_at_first (CollectorUntil0 R) (λ r, negb (to_bool r))).
  - by rewrite fed_Until0.
  - intros st r. simpl. by destruct (to_bool r).
  - eapply Forall_impl; [exact Hpre|]. intros q Hq. simpl in Hq. by rewrite Hq.
  - intros p Hp. by rewrite (Hpost p Hp).
Qed.

(** X5: under the While0 collector, [emit] on a signal at rest invokes the
    active callbacks in ring order up to and including the first whose
    result converts to true, invokes none after it, and returns the result
    of the last callback it invoked; when no result converts to true it
    invokes all of them; when no callback is active it returns the
    value-initialised result. *)
Theorem emit_While0_stops_at_first_true w s l args fuel pre post :
  at_rest w s l → length l < fuel →
  visits (store w) (s :: l) = pre ++ post →
  Forall (λ q, to_bool (val q.2 args) = false) pre →
  (∀ p, head post = Some p → to_bool (val p.2 args) = true) →
  emit (pure_call val) (CollectorWhile0 R) fuel tt args w
  = Done (default value_init (last ((λ p, val p.2 args) <$> pre ++ take 1 post)),
          with_invoked (invoked w ++ pre ++ take 1 post) w).
Proof.
  intros Hrest Hfuel Hv Hpre Hpost.
  rewrite (emit_cut val (CollectorWhile0 R) w s l) by done. rewrite Hv.
  rewrite (cut_at_first (CollectorWhile0 R) to_bool).
  - by rewrite fed_While0.
  - intros st r. simpl. by destruct (to_bool r).
  - done.
  - done.
Qed.

End EmitStops.

(** X1 on the ring of three under the Until0 collector, where the second
    callback returns false. *)
Lemma emit_is_an_ordered_balanced_pass_witness :
  ∃ t, emit (pure_call not_20) (CollectorUntil0 bool) 4 tt tt ring3
       = Done (result (CollectorUntil0 bool)
                 (fed not_20 (CollectorUntil0 bool) tt (construct (CollectorUntil0 bool) tt) t),
               with_invoked (invoked ring3 ++ t) ring3) ∧
       t = [(1, 10); (2, 20)] ∧
       t `prefix_of` [(1, 10); (2, 20); (3, 30)].
Proof.
  destruct (emit_is_an_ordered_balanced_pass not_20 (CollectorUntil0 bool)
              ring3 0 [1; 2; 3] tt tt 4) as (t & Hemit & Ht & Hpre).
  - by apply (bool_decide_unpack _).
  - simpl. lia.
  - exists t. split_and!; [exact Hemit|exact Ht|exact Hpre].
Defined.

(** X2 on the ring of three. *)
Lemma emit_Vector_collects_all_witness :
  emit (pure_call own_number) (CollectorVector Z) 4 tt tt ring3
  = Done ([10; 20; 30]%Z, with_invoked [(1, 10); (2, 20); (3, 30)] ring3).
Proof.
  apply (emit_Vector_collects_all own_number ring3 0 [1; 2; 3] tt 4).
  - by apply (bool_decide_unpack _).
  - simpl. lia.
Defined.

(** X3 on the ring of three, with 7 in the storage of the collector. *)
Lemma emit_Last_returns_the_last_witness :
  emit (pure_call own_number) (CollectorLast Z) 4 7%Z tt ring3
  = Done (30%Z, with_invoked [(1, 10); (2, 20); (3, 30)] ring3).
Proof.
  apply (emit_Last_returns_the_last own_number ring3 0 [1; 2; 3] 7%Z tt 4).
  - by apply (bool_decide_unpack _).
  - simpl. lia.
Defined.

(** X4 on the ring of three, where the second callback returns false. *)
Lemma emit_Until0_stops_at_first_false_witness :
  emit (pure_call not_20) (CollectorUntil0 bool) 4 tt tt ring3
  = Done (false, with_invoked [(1, 10); (2, 20)] ring3).
Proof.
  apply (emit_Until0_stops_at_first_false not_20 ring3 0 [1; 2; 3] tt 4
           [(1, 10)] [(2, 20); (3, 30)]).
  - by apply (bool_decide_unpack _).
  - simpl. lia.
  - reflexivity.
  - by apply (bool_decide_unpack _).
  - intros p [= <-]. reflexivity.
Defined.

(** X5 on the ring of three, where the second callback returns true. *)
Lemma emit_While0_stops_at_first_true_witness :
  emit (pure_call is_20) (CollectorWhile0 bool) 4 tt tt ring3
  = Done (true, with_invoked [(1, 10); (2, 20)] ring3).
Proof.
  apply (emit_While0_stops_at_first_true is_20 ring3 0 [1; 2; 3] tt 4
           [(1, 10)] [(2, 20); (3, 30)]).
  - by apply (bool_decide_unpack _).
  - simpl. lia.
  - reflexivity.
  - by apply (bool_decide_unpack _).
  - intros p [= <-]. reflexivity.
Defined.

(** ** Connecting and disconnecting compose *)

Section RoundTrip.

Context {Callback : Type}.

Local Abbreviation Link := (SignalLink Callback).

Implicit Types (h : gmap addr Link) (l c : list addr) (w : State Callback).

(** The links of the nodes of a chain are determined by the chain. *)
Lemma chain_links_unique h h' pv l z a (n n' : Link) :
  chain h pv l z → chain h' pv l z → a ∈ l →
  h !! a = Some n → h' !! a = Some n' →
  _next n' = _next n ∧ _prev n' = _prev n.
Proof.
  revert pv. induction l as [|b l IH]; intros pv Hc Hc' Ha Hn Hn'.
  - by apply elem_of_nil in Ha.
  - destruct Hc as [Hb Hl], Hc' as [Hb' Hl'].
    apply elem_of_cons in Ha as [->|Ha].
    + unfold linked in Hb, Hb'. rewrite Hn in Hb. rewrite Hn' in Hb'.
      destruct Hb as [-> ->], Hb' as [-> ->]. done.
    + by apply (IH b).
Qed.

(** Two stores that hold the same ring with the same payloads agree on the
    nodes of the ring. *)
Lemma cycle_same_store h h' c a :
  cycle h c → cycle h' c → a ∈ c →
  payload <$> h' !! a = payload <$> h !! a → h' !! a = h !! a.
Proof.
  intros [_ Hc] [_ Hc'] Ha Hpay.
  destruct (h !! a) as [n|] eqn:Hn, (h' !! a) as [n'|] eqn:Hn'; try done.
  destruct (chain_links_unique h h' _ c _ a n n' Hc Hc' Ha Hn Hn') as [Hnx Hpv].
  simpl in Hpay. unfold payload in Hpay. injection Hpay as He Hf Hr.
  destruct n, n'. simpl in *. by subst.
Qed.

(** X6: on a signal at rest, [connect] followed by [disconnect] through
    the handle it returned completes, reports [true], and restores the
    store exactly: the new node is freed, and every node of the ring has
    the links, flag, callback and reference count it had before. *)
Theorem connect_then_disconnect_restores w s l (cb : option Callback) fuel :
  at_rest w s l → length l < fuel →
  ∃ a w1 w2,
    connect cb w = Done (mkRef (Some a), w1) ∧
    disconnect fuel (mkRef (Some a)) w1 = Done ((true, mkRef None), w2) ∧
    store w2 = store w ∧ _callbackRing w2 = _callbackRing w ∧ invoked w2 = invoked w.
Proof.
  intros Hrest Hfuel.
  destruct (connect_at_rest w s l cb Hrest)
    as (a & w1 & Hconn & Hrest1 & Hnew & Hfa & _ & Hpay1 & Hout1 & _ & _ & Htr1).
  destruct (disconnect_at_rest w1 s l a [] fuel Hrest1)
    as (w2 & Hdis & Hrest2 & Hgone & Hpay2 & Hout2 & _ & _ & Htr2).
  { by rewrite app_nil_r. }
  rewrite app_nil_r in Hrest2, Hout2.
  exists a, w1, w2. split_and!; [done|done| | |congruence].
  - apply map_eq. intros x.
    destruct (decide (x = a)) as [->|Hxa]; [by rewrite Hgone, Hfa|].
    destruct (decide (x ∈ s :: l)) as [Hx|Hx].
    + apply (cycle_same_store (store w) (store w2) (s :: l)); [apply Hrest|apply Hrest2|done|].
      by rewrite Hpay2, Hpay1.
    + rewrite Hout2 by done. by apply Hout1.
  - destruct Hrest as [-> _], Hrest2 as [-> _]. done.
Qed.

End RoundTrip.

Section Pointer.

Context {Callback : Type}.

Local Abbreviation Link := (SignalLink Callback).

Implicit Types (h : gmap addr Link) (l c : list addr) (w : State Callback).

(** A store is determined by a ring it holds, the payloads of the nodes
    of the ring, and what it holds elsewhere. *)
Lemma store_unique h1 h2 h c x :
  cycle h1 c → cycle h2 c → x ∉ c →
  (∀ b, b ≠ x → payload <$> h1 !! b = payload <$> h !! b) →
  (∀ b, b ≠ x → payload <$> h2 !! b = payload <$> h !! b) →
  (∀ b, b ∉ c → b ≠ x → h1 !! b = h !! b) →
  (∀ b, b ∉ c → b ≠ x → h2 !! b = h !! b) →
  h1 !! x = h2 !! x →
  h1 = h2.
Proof.
  intros Hc1 Hc2 Hx Hp1 Hp2 Ho1 Ho2 Hx12. apply map_eq. intros b.
  destruct (decide (b = x)) as [->|Hbx]; [done|].
  destruct (decide (b ∈ c)) as [Hb|Hb].
  - apply (cycle_same_store h2 h1 c); [done..|]. by rewrite Hp1, Hp2.
  - by rewrite Ho1, Ho2.
Qed.

(** X9: on a signal at rest, [disconnect(SignalLink *link)] with the pointer to
    a connected node does what [disconnect] through the handle of that
    node does, and reports [true]; with any other pointer (null, the
    sentinel itself, a node that is not in the ring) it reports [false]
    and changes nothing. *)
Theorem disconnect_by_pointer_agrees w s l fuel :
  at_rest w s l → length l < fuel →
  (∀ x, x ∈ l →
     ∃ w', disconnect_link fuel (Some x) w = Done (true, w') ∧
           disconnect fuel (mkRef (Some x)) w = Done ((true, mkRef None), w')) ∧
  (∀ id, (∀ x, x ∈ l → id ≠ Some x) → disconnect_link fuel id w = Done (false, w)).
Proof.
  intros Hrest Hfuel. destruct w as [h k bits ring tr].
  destruct (Hrest) as (Hring & Hcyc & Hs & Hl). simpl in *. subst ring. split.
  - intros x Hx. apply list_elem_of_split in Hx as (l1 & l2 & ->).
    rewrite length_app in Hfuel. simpl in Hfuel.
    assert (refs h x = Some 1%Z) as Hrx.
    { rewrite Forall_forall in Hl. apply Hl, elem_of_app. right. left. }
    apply refs_Some in Hrx as (nx & Hnx & Hrc).
    assert (x ∉ s :: l1 ++ l2) as Hxout.
    { destruct Hcyc as [Hnd _]. rewrite app_comm_cons in Hnd.
      apply NoDup_app in Hnd as (_ & Hd & Hnd2). apply NoDup_cons in Hnd2 as [Hx2 _].
      rewrite app_comm_cons. intros Hin. apply elem_of_app in Hin as [Hin|Hin]; [|done].
      apply (Hd x Hin). left. }
    destruct (removeSibling_hit h k bits (Some s) tr s l1 x l2 nx fuel Hcyc Hnx)
      as (h1 & Hrem1 & Hcyc1 & Hpay1 & Hout1 & Hself1); [lia|lia|].
    destruct (remove_hit h k bits (Some s) tr s l1 x l2 nx fuel Hcyc Hnx)
      as (h2 & Hrem2 & Hcyc2 & Hpay2 & Hout2 & Hself2); [lia|rewrite length_app; lia|].
    assert (h1 = h2) as <-.
    { apply (store_unique h1 h2 h (s :: l1 ++ l2) x); try done. by rewrite Hself1, Hself2. }
    exists (mkState h1 k bits (Some s) tr). split.
    + unfold disconnect_link, get_callbackRing.
      by rewrite (bind_Done _ _ _ (Some s) (mkState h k bits (Some s) tr)).
    + unfold disconnect, ConnectionRef_disconnect. simpl.
      by rewrite (bind_Done _ _ _ _ _ Hrem2).
  - intros id Hid. unfold disconnect_link, get_callbackRing.
    rewrite (bind_Done _ _ _ (Some s) (mkState h k bits (Some s) tr)) by done.
    by apply (removeSibling_miss h k bits (Some s) tr s l).
Qed.

End Pointer.

Section Composition.

Context {Callback Args R : Type}.

Variable val : Callback → Args → R.

Local Abbreviation Link := (SignalLink Callback).

Implicit Types (h : gmap addr Link) (l c : list addr) (w : State Callback).

(** X7: a callback connected to a signal at rest and then enabled through
    its handle is invoked last: the next emission invokes the callbacks
    that were active before, in the same order, then the new one, and the
    Vector collector returns their results in this order. *)
Theorem enabled_connection_is_invoked_last w s l (f : Callback) args fuel :
  at_rest w s l → S (length l) < fuel →
  ∃ a w1 w2,
    connect (Some f) w = Done (mkRef (Some a), w1) ∧
    enable (mkRef (Some a)) w1 = Done (tt, w2) ∧
    emit (pure_call val) (CollectorVector R) fuel tt args w2
    = Done (((λ p, val p.2 args) <$> visits (store w) (s :: l)) ++ [val f args],
            with_invoked (invoked w ++ visits (store w) (s :: l) ++ [(a, f)]) w2).
Proof.
  intros Hrest Hfuel.
  destruct (connect_at_rest w s l (Some f) Hrest)
    as (a & w1 & Hconn & Hrest1 & Hnew & Hfa & Hpa & Hpay1 & _ & _ & _ & Htr1).
  destruct (setEnabled_at_rest w1 s (l ++ [a]) a true Hrest1) as (na & Hna & Hset & Hrest2).
  { apply elem_of_app. right. left. }
  set (w2 := with_store (<[a := with_enabled true na]> (store w1)) w1) in *.
  exists a, w1, w2. split_and!; [done|done|].
  assert (visits (store w2) (s :: l ++ [a]) = visits (store w) (s :: l) ++ [(a, f)]) as Hv.
  { rewrite app_comm_cons, visits_app. f_equal.
    - apply visits_same_payload. intros x Hx.
      assert (x ≠ a) as Hxa by (by intros ->).
      unfold w2. destruct w1. simpl in *. rewrite lookup_insert_ne by done. by apply Hpay1.
    - rewrite (visits_cons_active _ a f); [done|].
      rewrite Hna in Hpa. simpl in Hpa. injection Hpa as _ Hf _.
      unfold active, w2. destruct w1. simpl in *. by rewrite lookup_insert_eq. }
  rewrite (emit_cut val (CollectorVector R) w2 s (l ++ [a])); [|done|].
  - rewrite cut_nonstop by done. rewrite fed_Vector, Hv, fmap_app.
    unfold w2. destruct w1. simpl in *. by rewrite Htr1.
  - rewrite length_app. simpl. lia.
Qed.

(** X8: [disconnect] of a connected node takes exactly its callback out of
    the following emissions: the next emission invokes the active callbacks
    of the other nodes as they were, in the same order. *)
Theorem disconnect_removes_one_callback w s l1 x l2 args fuel :
  at_rest w s (l1 ++ x :: l2) → length (l1 ++ l2) < fuel →
  ∃ w', disconnect fuel (mkRef (Some x)) w = Done ((true, mkRef None), w') ∧
        emit (pure_call val) (CollectorVector R) fuel tt args w'
        = Done ((λ p, val p.2 args) <$> visits (store w) (s :: l1) ++ visits (store w) l2,
                with_invoked (invoked w ++ visits (store w) (s :: l1) ++ visits (store w) l2) w').
Proof.
  intros Hrest Hfuel.
  assert (NoDup (s :: l1 ++ x :: l2)) as Hnd by apply Hrest.
  destruct (disconnect_at_rest w s l1 x l2 fuel Hrest Hfuel)
    as (w' & Hdis & Hrest' & _ & Hpay & _ & _ & _ & Htr).
  exists w'. split; [done|].
  rewrite (emit_cut val (CollectorVector R) w' s (l1 ++ l2)) by done.
  rewrite cut_nonstop by done. rewrite fed_Vector, Htr.
  assert (visits (store w') (s :: l1 ++ l2)
          = visits (store w) (s :: l1) ++ visits (store w) l2) as ->; [|done].
  rewrite app_comm_cons, <- visits_app. apply visits_same_payload.
  intros b Hb. apply Hpay. intros ->.
  rewrite app_comm_cons in Hnd. apply NoDup_app in Hnd as (_ & Hd & Hnd2).
  apply NoDup_cons in Hnd2 as [Hx2 _].
  apply elem_of_app in Hb as [Hb|Hb]; [|done]. apply (Hd x Hb). left.
Qed.

End Composition.

(** X6 on the ring of three. *)
Lemma connect_then_disconnect_restores_witness :
  ∃ a w1 w2,
    connect (Some 40) ring3 = Done (mkRef (Some a), w1) ∧
    disconnect 4 (mkRef (Some a)) w1 = Done ((true, mkRef None), w2) ∧
    store w2 = store ring3 ∧ _callbackRing w2 = _callbackRing ring3 ∧
    invoked w2 = invoked ring3.
Proof.
  apply (connect_then_disconnect_restores ring3 0 [1; 2; 3] (Some 40) 4).
  - by apply (bool_decide_unpack _).
  - simpl. lia.
Defined.

(** X9 on the ring of three. *)
Lemma disconnect_by_pointer_agrees_witness :
  (∀ x, x ∈ [1; 2; 3] →
     ∃ w', disconnect_link 4 (Some x) ring3 = Done (true, w') ∧
           disconnect 4 (mkRef (Some x)) ring3 = Done ((true, mkRef None), w')) ∧
  (∀ id, (∀ x, x ∈ [1; 2; 3] → id ≠ Some x) → disconnect_link 4 id ring3 = Done (false, ring3)).
Proof.
  apply (disconnect_by_pointer_agrees ring3 0 [1; 2; 3] 4).
  - by apply (bool_decide_unpack _).
  - simpl. lia.
Defined.

(** X7 on the ring of three, for a fourth callback. *)
Lemma enabled_connection_is_invoked_last_witness :
  ∃ a w1 w2,
    connect (Some 40) ring3 = Done (mkRef (Some a), w1) ∧
    enable (mkRef (Some a)) w1 = Done (tt, w2) ∧
    emit (pure_call own_number) (CollectorVector Z) 5 tt tt w2
    = Done ([10; 20; 30; 40]%Z,
            with_invoked [(1, 10); (2, 20); (3, 30); (a, 40)] w2).
Proof.
  destruct (enabled_connection_is_invoked_last own_number ring3 0 [1; 2; 3] 40 tt 5)
    as (a & w1 & w2 & Hconn & Hen & Hemit).
  - by apply (bool_decide_unpack _).
  - simpl. lia.
  - exists a, w1, w2. split_and!; [exact Hconn|exact Hen|exact Hemit].
Defined.

(** X8 on the ring of three, for the second connection. *)
Lemma disconnect_removes_one_callback_witness :
  ∃ w', disconnect 4 (mkRef (Some 2)) ring3 = Done ((true, mkRef None), w') ∧
        emit (pure_call own_number) (CollectorVector Z) 4 tt tt w'
        = Done ([10; 30]%Z, with_invoked [(1, 10); (3, 30)] w').
Proof.
  destruct (disconnect_removes_one_callback own_number ring3 0 [1] 2 [3] tt 4)
    as (w' & Hdis & Hemit).
  - by apply (bool_decide_unpack _).
  - simpl. lia.
  - exists w'. split; [exact Hdis|exact Hemit].
Defined.

(** ** Scopes *)

Section ScopeFacts.

Context {Callback : Type}.

Local Abbreviation Link := (SignalLink Callback).

Implicit Types (h : gmap addr Link) (l c : list addr) (w : State Callback).
Implicit Types (scope : ConnectionScope).

Lemma filter_ext_in {A} (P Q : A → Prop) `{∀ x, Decision (P x)} `{∀ x, Decision (Q x)}
    (l : list A) :
  (∀ x, x ∈ l → (P x ↔ Q x)) → filter P l = filter Q l.
Proof.
  induction l as [|a l IH]; intros Hext; [done|].
  rewrite !filter_cons.
  destruct (decide (P a)) as [Hp|Hp], (decide (Q a)) as [Hq|Hq].
  - f_equal. apply IH. intros x Hx. apply Hext. by right.
  - exfalso. apply Hq, (Hext a); [left|done].
  - exfalso. apply Hp, (Hext a); [left|done].
  - apply IH. intros x Hx. apply Hext. by right.
Qed.

Lemma filter_all {A} (P : A → Prop) `{∀ x, Decision (P x)} (l : list A) :
  (∀ x, x ∈ l → P x) → filter P l = l.
Proof.
  induction l as [|a l IH]; intros Hall; [done|].
  rewrite filter_cons_True by (apply Hall; left).
  f_equal. apply IH. intros x Hx. apply Hall. by right.
Qed.

Lemma filter_none {A} (P : A → Prop) `{∀ x, Decision (P x)} (l : list A) :
  (∀ x, x ∈ l → ¬ P x) → filter P l = [].
Proof.
  induction l as [|a l IH]; intros Hall; [done|].
  rewrite filter_cons_False by (apply Hall; left).
  apply IH. intros x Hx. apply Hall. by right.
Qed.

Lemma scope_dtor_at_rest fuel scope :
  ∀ w s l,
    at_rest w s l → length l < fuel →
    NoDup (scoped scope) → (∀ x, x ∈ scoped scope → x ∈ l) →
    ∃ w', ConnectionScope_dtor fuel scope w = Done (tt, w') ∧
          at_rest w' s (filter (λ x, x ∉ scoped scope) l) ∧
          (∀ x, x ∈ scoped scope → store w' !! x = None) ∧
          (∀ b, b ∉ scoped scope → payload <$> store w' !! b = payload <$> store w !! b) ∧
          (∀ b, b ∉ s :: l → store w' !! b = store w !! b) ∧
          invoked w' = invoked w.
Proof.
  induction scope as [|[[x|]] scope IH]; intros w s l Hrest Hfuel Hnd Hin.
  - exists w. split_and!; try done.
    + rewrite filter_all; [done|]. intros x _. apply not_elem_of_nil.
    + intros x Hx. by apply elem_of_nil in Hx.
  - change (scoped (mkRef (Some x) :: scope)) with (x :: scoped scope) in *.
    apply NoDup_cons in Hnd as [Hx Hnd].
    assert (NoDup (s :: l)) as Hndl by apply Hrest.
    apply NoDup_cons in Hndl as [Hs Hndl].
    destruct (list_elem_of_split l x) as (l1 & l2 & ->); [apply Hin; left|].
    apply NoDup_app in Hndl as (_ & Hd & Hnd2). apply NoDup_cons in Hnd2 as [Hx2 _].
    assert (x ∉ l1) as Hx1 by (intros Hx1; apply (Hd x Hx1); left).
    destruct (disconnect_at_rest w s l1 x l2 fuel Hrest)
      as (w1 & Hdis & Hrest1 & Hgone & Hpay1 & Hout1 & _ & _ & Htr1).
    { rewrite length_app in *. simpl in Hfuel. lia. }
    destruct (IH w1 s (l1 ++ l2) Hrest1) as (w' & Hd' & Hrest' & Hgone' & Hpay' & Hout' & Htr').
    { rewrite length_app in *. simpl in Hfuel. lia. }
    { done. }
    { intros y Hy. assert (y ≠ x) as Hyx by (by intros ->).
      assert (y ∈ l1 ++ x :: l2) as Hyl by (apply Hin; by right).
      rewrite elem_of_app, elem_of_cons in Hyl. rewrite elem_of_app. tauto. }
    assert (x ∉ s :: l1 ++ l2) as Hxout.
    { rewrite elem_of_cons, elem_of_app. intros [->|[?|?]]; [|done..].
      apply Hs, elem_of_app. right. left. }
    exists w'. split_and!.
    + simpl. unfold ScopedConnectionRef_dtor.
      unfold disconnect in Hdis.
      rewrite (bind_Done _ _ _ tt w1); [done|].
      by rewrite (bind_Done _ _ _ _ _ Hdis).
    + replace (filter (λ y, y ∉ x :: scoped scope) (l1 ++ x :: l2))
        with (filter (λ y, y ∉ scoped scope) (l1 ++ l2)); [done|].
      rewrite !filter_app, filter_cons_False by (intros Hn; apply Hn; left).
      f_equal; apply filter_ext_in; intros y Hy; rewrite not_elem_of_cons;
        (split; [intros ?; split; [by intros ->|done] | by intros [_ ?]]).
    + intros y Hy. apply elem_of_cons in Hy as [->|Hy]; [|by apply Hgone'].
      by rewrite Hout'.
    + intros b Hb. apply not_elem_of_cons in Hb as [Hbx Hb].
      rewrite Hpay' by done. by apply Hpay1.
    + intros b Hb. assert (b ≠ x) as Hbx.
      { intros ->. apply Hb. right. apply elem_of_app. right. left. }
      assert (b ∉ s :: l1 ++ l2) as Hb'.
      { intros Hb'. apply Hb. rewrite elem_of_cons, elem_of_app in Hb'.
        rewrite elem_of_cons, elem_of_app, elem_of_cons. tauto. }
      rewrite Hout' by done. by apply Hout1.
    + congruence.
  - change (scoped (mkRef None :: scope)) with (scoped scope) in *.
    destruct (IH w s l Hrest Hfuel Hnd Hin) as (w' & Hd' & Hrest').
    exists w'. split; [|done]. simpl. unfold ScopedConnectionRef_dtor.
    by rewrite (bind_Done _ _ _ tt w).
Qed.

(** X12: the destructor of a [ConnectionScope] whose handles point to
    distinct connected nodes of a signal at rest disconnects them all: it
    completes, the scoped nodes are freed, the signal is at rest with the
    other nodes in their order, their flags, callbacks and counts are as
    before, nothing outside the ring is touched and no callback is
    invoked.  Handles that were moved from are skipped.  The outcome does
    not depend on the order of the handles in the scope. *)
Theorem scope_destructor_disconnects_all fuel scope w s l :
  at_rest w s l → length l < fuel →
  NoDup (scoped scope) → (∀ x, x ∈ scoped scope → x ∈ l) →
  ∃ w', ConnectionScope_dtor fuel scope w = Done (tt, w') ∧
        at_rest w' s (filter (λ x, x ∉ scoped scope) l) ∧
        (∀ x, x ∈ scoped scope → store w' !! x = None) ∧
        (∀ b, b ∉ scoped scope → payload <$> store w' !! b = payload <$> store w !! b) ∧
        (∀ b, b ∉ s :: l → store w' !! b = store w !! b) ∧
        invoked w' = invoked w.
Proof. apply scope_dtor_at_rest. Qed.

Lemma scoped_handles (new : list addr) : scoped (mkRef ∘ Some <$> new) = new.
Proof.
  induction new as [|a new IH]; [done|].
  change (scoped (mkRef ∘ Some <$> a :: new)) with (a :: scoped (mkRef ∘ Some <$> new)).
  by rewrite IH.
Qed.

Lemma connect_scoped_at_rest fuel (callbacks : list (option Callback)) :
  ∀ w s l scope,
    at_rest w s l →
    ∃ new w1,
      connect_scoped fuel callbacks scope w = Done (scope ++ (mkRef ∘ Some <$> new), w1) ∧
      at_rest w1 s (l ++ new) ∧ length new = length callbacks ∧
      (∀ a, a ∈ new → store w !! a = None) ∧
      (∀ x, x ∉ new → payload <$> store w1 !! x = payload <$> store w !! x) ∧
      (∀ x, x ∉ s :: l → x ∉ new → store w1 !! x = store w !! x) ∧
      invoked w1 = invoked w.
Proof.
  induction callbacks as [|cb callbacks IH]; intros w s l scope Hrest.
  - exists [], w. rewrite !app_nil_r. split_and!; try done.
    intros a Ha. by apply elem_of_nil in Ha.
  - destruct (connect_at_rest w s l cb Hrest)
      as (a & w' & Hconn & Hrest' & Hnew & Hfa & _ & Hpay & Hout & _ & _ & Htr).
    destruct (IH w' s (l ++ [a]) (scope ++ [mkRef (Some a)]) Hrest')
      as (new & w1 & Hrun & Hrest1 & Hlen & Hfree & Hpay1 & Hout1 & Htr1).
    rewrite <- !app_assoc in Hrun, Hrest1. simpl in Hrun, Hrest1.
    assert (NoDup (s :: l ++ a :: new)) as Hnd by apply Hrest1.
    rewrite app_comm_cons in Hnd. apply NoDup_app in Hnd as (_ & Hd & Hnd2).
    apply NoDup_cons in Hnd2 as [Ha2 _].
    exists (a :: new), w1. split_and!.
    + simpl. rewrite (bind_Done _ _ _ _ _ Hconn).
      unfold ConnectionScope_add, ConnectionRef_move, ScopedConnectionRef_dtor. simpl.
      rewrite (bind_Done _ _ _ (scope ++ [mkRef (Some a)], mkRef None) w'); [exact Hrun|].
      rewrite (bind_Done _ _ _ tt w'); [done|].
      by rewrite (bind_Done _ _ _ (false, mkRef None) w').
    + done.
    + simpl. by rewrite Hlen.
    + intros b Hb. apply elem_of_cons in Hb as [->|Hb]; [done|].
      rewrite <- (Hfree b Hb). symmetry. apply Hout.
      * intros Hin. apply (Hd b Hin). by right.
      * by intros ->.
    + intros x Hx. apply not_elem_of_cons in Hx as [Hxa Hx].
      rewrite Hpay1 by done. by apply Hpay.
    + intros x Hx Hxn. apply not_elem_of_cons in Hxn as [Hxa Hxn].
      rewrite Hout1; [by apply Hout|..|done].
      rewrite app_comm_cons, elem_of_app, list_elem_of_singleton. tauto.
    + congruence.
Qed.

(** X13: connections handed over to a [ConnectionScope] are all released
    with it.  On a signal at rest, connecting callbacks with
    [scope += signal.connect(callback)] appends one node for each to the
    ring, in this order; the destructor of the scope then completes and
    restores the store exactly: the new nodes are freed and every other
    node has the links, flag, callback and reference count it had before. *)
Theorem scoped_connections_are_released w s l (callbacks : list (option Callback)) fuel :
  at_rest w s l → length l + length callbacks < fuel →
  ∃ scope w1 w2,
    connect_scoped fuel callbacks [] w = Done (scope, w1) ∧
    length (scoped scope) = length callbacks ∧
    at_rest w1 s (l ++ scoped scope) ∧
    ConnectionScope_dtor fuel scope w1 = Done (tt, w2) ∧
    store w2 = store w ∧ _callbackRing w2 = _callbackRing w ∧ invoked w2 = invoked w.
Proof.
  intros Hrest Hfuel.
  destruct (connect_scoped_at_rest fuel callbacks w s l [] Hrest)
    as (new & w1 & Hrun & Hrest1 & Hlen & Hfree & Hpay1 & Hout1 & Htr1).
  simpl in Hrun.
  assert (NoDup (s :: l ++ new)) as Hnd by apply Hrest1.
  rewrite app_comm_cons in Hnd. apply NoDup_app in Hnd as (_ & Hd & Hndn).
  destruct (scope_dtor_at_rest fuel (mkRef ∘ Some <$> new) w1 s (l ++ new) Hrest1)
    as (w2 & Hdtor & Hrest2 & Hgone & Hpay2 & Hout2 & Htr2).
  { rewrite length_app. lia. }
  { by rewrite scoped_handles. }
  { rewrite scoped_handles. intros x Hx. apply elem_of_app. by right. }
  rewrite scoped_handles in Hrest2, Hgone, Hpay2.
  assert (filter (λ x, x ∉ new) (l ++ new) = l) as Hfil.
  { rewrite filter_app, filter_all, filter_none, app_nil_r; [done|tauto|].
    intros x Hx Hxn. apply (Hd x); [by right|done]. }
  rewrite Hfil in Hrest2.
  exists (mkRef ∘ Some <$> new), w1, w2. rewrite scoped_handles.
  split_and!; [done|done|done|done| | |congruence].
  - apply map_eq. intros x.
    destruct (decide (x ∈ new)) as [Hxn|Hxn]; [by rewrite Hgone, Hfree|].
    destruct (decide (x ∈ s :: l)) as [Hx|Hx].
    + apply (cycle_same_store (store w) (store w2) (s :: l)); [apply Hrest|apply Hrest2|done|].
      by rewrite Hpay2, Hpay1.
    + rewrite Hout2; [by apply Hout1|].
      rewrite app_comm_cons, elem_of_app. tauto.
  - destruct Hrest as [-> _], Hrest2 as [-> _]. done.
Qed.

End ScopeFacts.

(** X12 on the ring of three, for a scope that holds the handles of the
    third and the first connection and a handle that was moved from. *)
Lemma scope_destructor_disconnects_all_witness :
  ∃ w', ConnectionScope_dtor 4 [mkRef (Some 3); mkRef None; mkRef (Some 1)] ring3
        = Done (tt, w') ∧
        at_rest w' 0 [2] ∧ store w' !! 1 = None ∧ store w' !! 3 = None ∧
        payload <$> store w' !! 2 = Some (true, Some 20, 1%Z).
Proof.
  destruct (scope_destructor_disconnects_all 4 [mkRef (Some 3); mkRef None; mkRef (Some 1)]
              ring3 0 [1; 2; 3]) as (w' & Hdtor & Hrest & Hgone & Hpay & _).
  - by apply (bool_decide_unpack _).
  - simpl. lia.
  - by apply (bool_decide_unpack _).
  - intros x Hx. unfold scoped in Hx. simpl in Hx.
    rewrite !elem_of_cons in Hx. rewrite !elem_of_cons. tauto.
  - exists w'. split_and!; [exact Hdtor|exact Hrest| | |].
    + apply Hgone. by apply (bool_decide_unpack _).
    + apply Hgone. by apply (bool_decide_unpack _).
    + rewrite Hpay; [reflexivity|]. by apply (bool_decide_unpack _).
Defined.

(** X13 on the ring of three, for two more callbacks. *)
Lemma scoped_connections_are_released_witness :
  ∃ scope w1 w2,
    connect_scoped 6 [Some 40; Some 50] [] ring3 = Done (scope, w1) ∧
    length (scoped scope) = 2 ∧
    at_rest w1 0 ([1; 2; 3] ++ scoped scope) ∧
    ConnectionScope_dtor 6 scope w1 = Done (tt, w2) ∧
    store w2 = store ring3 ∧ _callbackRing w2 = _callbackRing ring3 ∧
    invoked w2 = invoked ring3.
Proof.
  apply (scoped_connections_are_released ring3 0 [1; 2; 3] [Some 40; Some 50] 6).
  - by apply (bool_decide_unpack _).
  - simpl. lia.
Defined.

(** ** The end of a signal *)

Section Destruction.

Context {Callback : Type}.

Local Abbreviation Link := (SignalLink Callback).

Implicit Types (h : gmap addr Link) (l c : list addr) (w : State Callback).

(** X10: the destructor of a signal at rest completes, frees the sentinel
    and every connected node, touches nothing else in the store and
    invokes no callback. *)
Theorem destructor_frees_the_ring w s l fuel :
  at_rest w s l → length l < fuel →
  ∃ w', ProtoSignal_dtor fuel w = Done (tt, w') ∧
        (∀ x, x ∈ s :: l → store w' !! x = None) ∧
        (∀ x, x ∉ s :: l → store w' !! x = store w !! x) ∧
        invoked w' = invoked w.
Proof. apply dtor_at_rest. Qed.

Lemma dangling_handle w x fuel flag :
  store w !! x = None →
  disconnect fuel (mkRef (Some x)) w = Undefined ∧
  setEnabled (mkRef (Some x)) flag w = Undefined ∧
  isEnabled (mkRef (Some x)) w = Undefined.
Proof.
  intros Hx. unfold disconnect, ConnectionRef_disconnect, setEnabled, isEnabled.
  unfold remove, link_setEnabled, link_isEnabled, update, bind, load. simpl.
  by rewrite Hx.
Qed.

(** X11: a handle must not outlive its signal.  After the destructor of a
    signal at rest, the handle of every node that was connected dangles:
    [disconnect], [setEnabled] and [isEnabled] through it read freed
    storage, which is undefined behaviour. *)
Theorem handle_dangles_after_destructor w s l fuel :
  at_rest w s l → length l < fuel →
  ∃ w', ProtoSignal_dtor fuel w = Done (tt, w') ∧
        ∀ x, x ∈ l →
          (∀ fuel', disconnect fuel' (mkRef (Some x)) w' = Undefined) ∧
          (∀ flag, setEnabled (mkRef (Some x)) flag w' = Undefined) ∧
          isEnabled (mkRef (Some x)) w' = Undefined.
Proof.
  intros Hrest Hfuel.
  destruct (dtor_at_rest w s l fuel Hrest Hfuel) as (w' & Hdtor & Hgone & _).
  exists w'. split; [done|]. intros x Hx.
  assert (store w' !! x = None) as Hfree by (apply Hgone; by right).
  split_and!.
  - intros fuel'. by apply (dangling_handle w' x fuel' true).
  - intros flag. by apply (dangling_handle w' x 0 flag).
  - by apply (dangling_handle w' x 0 true).
Qed.

End Destruction.

(** X10 on the ring of three. *)
Lemma destructor_frees_the_ring_witness :
  ∃ w', ProtoSignal_dtor 4 ring3 = Done (tt, w') ∧
        (∀ x, x ∈ [0; 1; 2; 3] → store w' !! x = None) ∧
        (∀ x, x ∉ [0; 1; 2; 3] → store w' !! x = store ring3 !! x) ∧
        invoked w' = invoked ring3.
Proof.
  apply (destructor_frees_the_ring ring3 0 [1; 2; 3] 4).
  - by apply (bool_decide_unpack _).
  - simpl. lia.
Defined.

(** X11 on the ring of three. *)
Lemma handle_dangles_after_destructor_witness :
  ∃ w', ProtoSignal_dtor 4 ring3 = Done (tt, w') ∧
        ∀ x, x ∈ [1; 2; 3] →
          (∀ fuel', disconnect fuel' (mkRef (Some x)) w' = Undefined) ∧
          (∀ flag, setEnabled (mkRef (Some x)) flag w' = Undefined) ∧
          isEnabled (mkRef (Some x)) w' = Undefined.
Proof.
  apply (handle_dangles_after_destructor ring3 0 [1; 2; 3] 4).
  - by apply (bool_decide_unpack _).
  - simpl. lia.
Defined.

(** ** Disconnecting from inside an emission *)

Section ReentrantDisconnect.

Context {Callback Args R : Type}.

Variable val : Callback → Args → R.
Variable C : Collector R.
Variable call : Callback → Args → M Callback R.

Local Abbreviation Link := (SignalLink Callback).

Implicit Types (h : gmap addr Link) (l : list addr) (w : State Callback).

Lemma cycle_held h x c : cycle h c → cycle (held h x) c.
Proof.
  apply cycle_same_links. intros a n Ha Hn. unfold held.
  destruct (decide (x = a)) as [->|Hne].
  - rewrite lookup_alter_eq, Hn. by eexists.
  - rewrite lookup_alter_ne by done. by exists n.
Qed.

Lemma cycle_delete h x c : x ∉ c → cycle h c → cycle (delete x h) c.
Proof.
  intros Hx. apply cycle_same_links. intros a n Ha Hn.
  exists n. rewrite lookup_delete_ne; [done|]. by intros ->.
Qed.

Lemma held_delete h x b : x ≠ b → delete x (held h b) = held (delete x h) b.
Proof.
  intros Hxb. apply map_eq. intros a. unfold held.
  destruct (decide (a = x)) as [->|Hax].
  - rewrite lookup_delete_eq, lookup_alter_ne, lookup_delete_eq by done. done.
  - rewrite lookup_delete_ne by done.
    destruct (decide (b = a)) as [->|Hba].
    + by rewrite !lookup_alter_eq, lookup_delete_ne.
    + by rewrite !lookup_alter_ne, lookup_delete_ne.
Qed.

Lemma counted_same_payload h h' c :
  (∀ a, a ∈ c → payload <$> h' !! a = payload <$> h !! a) → counted h c → counted h' c.
Proof.
  unfold counted. rewrite !Forall_forall. intros Hpay Hcnt a Ha.
  specialize (Hcnt a Ha). specialize (Hpay a Ha).
  destruct (h' !! a) as [n'|], (h !! a) as [n|]; simpl in *; try done.
  unfold payload in Hpay. by injection Hpay as _ _ ->.
Qed.

(** A callback that disconnects its own node: the node leaves the ring
    and loses its callback, and the reference of the traversal keeps it
    alive, with its links as they were. *)
Lemma disconnect_self_held h k bits tr s l1 x l2 (nx : Link) fuel :
  cycle h (s :: l1 ++ x :: l2) → h !! x = Some nx → _refCount nx = 1%Z →
  length (l1 ++ l2) < fuel →
  ∃ h1, disconnect fuel (mkRef (Some x)) (mkState (held h x) k bits (Some s) tr)
        = Done ((true, mkRef None), mkState h1 k bits (Some s) tr) ∧
        cycle h1 (s :: l1 ++ l2) ∧
        (∀ b, b ≠ x → payload <$> h1 !! b = payload <$> h !! b) ∧
        h1 !! x = Some (with_callbackFunc None nx).
Proof.
  intros Hcyc Hx Hrc Hfuel.
  assert (held h x !! x = Some (with_refCount (_refCount nx + 1) nx)) as Hhx
    by (unfold held; by rewrite lookup_alter_eq, Hx).
  destruct (remove_hit (held h x) k bits (Some s) tr s l1 x l2 _ fuel
              (cycle_held h x _ Hcyc) Hhx)
    as (h1 & Hrem & Hcyc1 & Hpay1 & _ & Hself); [simpl; lia|done|].
  exists h1. split_and!; [|done| |].
  - unfold disconnect, ConnectionRef_disconnect. simpl.
    by rewrite (bind_Done _ _ _ _ _ Hrem).
  - intros b Hb. rewrite Hpay1 by done. unfold held. by rewrite lookup_alter_ne.
  - rewrite Hself. cbn [_refCount with_refCount]. rewrite Hrc.
    rewrite decide_False by lia. destruct nx. simpl in *. subst. done.
Qed.

(** The pass over the nodes [l2] that follow a node the traversal has
    left, to the end of the emission. *)
Lemma emit_rest h k bits s l1 l2 args col tr fuel :
  cycle h (s :: l1 ++ l2) → counted h (s :: l1 ++ l2) →
  (∀ st r, snd (collect C st r) = true) →
  (∀ a f, a ∈ l2 → active h a = Some f → ∀ w', call f args w' = Done (val f args, w')) →
  length l2 ≤ fuel →
  onward C call h k bits s args fuel l2 col tr
  = Done ((s, fed val C args col (visits h l2)),
          mkState (held h s) k bits (Some s) (tr ++ visits h l2)).
Proof.
  intros Hcyc Hcnt Hgo Hpure Hfuel. destruct l2 as [|b rest].
  - simpl. by rewrite app_nil_r.
  - unfold onward. simpl in Hfuel.
    replace fuel with (S (length rest + (fuel - length rest - 1))) by lia.
    rewrite (emit_loop_stretch val C call h k bits s (l1 ++ b :: rest) args Hcyc Hcnt
               rest (s :: l1) b []).
    + by rewrite sweep_nonstop.
    + by rewrite app_nil_r.
    + done.
Qed.

(** Reentrant disconnection of the running callback's own node, on any
    ring at rest. *)
Lemma emit_reentrant_disconnect_self w s l1 x l2 fx junk args fuel :
  at_rest w s (l1 ++ x :: l2) →
  length (l1 ++ x :: l2) < fuel →
  (∀ st r, snd (collect C st r) = true) →
  active (store w) x = Some fx →
  (∀ w', call fx args w' = (disconnect fuel (mkRef (Some x)) ;; ret (val fx args)) w') →
  (∀ a f, a ∈ s :: l1 ++ l2 → active (store w) a = Some f →
          ∀ w', call f args w' = Done (val f args, w')) →
  ∃ w',
    emit call C fuel junk args w
    = Done (result C (fed val C args (construct C junk)
                        (visits (store w) (s :: l1) ++ [(x, fx)] ++ visits (store w) l2)),
            w') ∧
    at_rest w' s (l1 ++ l2) ∧
    store w' !! x = None ∧
    (∀ b, b ≠ x → payload <$> store w' !! b = payload <$> store w !! b) ∧
    invoked w' = invoked w ++ visits (store w) (s :: l1) ++ [(x, fx)] ++ visits (store w) l2.
Proof.
  intros Hrest Hfuel Hgo Hact Hfx Hpure.
  pose proof (at_rest_counted _ _ _ Hrest) as Hcnt.
  destruct w as [h k bits ring tr]. destruct Hrest as (Hring & Hcyc & Hrs & Hrl).
  simpl in *. subst ring.
  set (l := l1 ++ x :: l2) in *.
  assert (NoDup (s :: l)) as Hnd by apply Hcyc.
  assert (x ∉ s :: l1 ++ l2) as Hxout.
  { unfold l in Hnd. rewrite app_comm_cons in Hnd.
    apply NoDup_app in Hnd as (_ & Hd & Hnd2). apply NoDup_cons in Hnd2 as [Hx2 _].
    rewrite app_comm_cons. intros Hin. apply elem_of_app in Hin as [Hin|Hin]; [|done].
    apply (Hd x Hin). left. }
  destruct (counted_at h _ s Hcnt) as (ns & Hs & Hcs); [left|].
  destruct (active_inv h x fx Hact) as (nx & Hnx & Hex & Hcbx).
  assert (_refCount nx = 1%Z) as Hrcx.
  { rewrite Forall_forall in Hrl. specialize (Hrl x). unfold refs in Hrl.
    rewrite Hnx in Hrl. simpl in Hrl. assert (Some (_refCount nx) = Some 1%Z) as [= ->]; [|done].
    apply Hrl. unfold l. apply elem_of_app. right. left. }
  set (t1 := visits h (s :: l1)).
  set (c1 := fed val C args (construct C junk) t1).
  set (c2 := fst (collect C c1 (val fx args))).
  destruct (disconnect_self_held h k bits (tr ++ t1 ++ [(x, fx)]) s l1 x l2 nx fuel Hcyc Hnx Hrcx)
    as (h1 & Hdis & Hcyc1 & Hpay1 & Hx1).
  { unfold l in Hfuel. rewrite length_app in *. simpl in Hfuel. lia. }
  destruct (cycle_next h s l (s :: l1) x l2 Hcyc eq_refl) as (nx' & Hnx' & Hnext).
  assert (nx' = nx) as -> by congruence. clear Hnx'.
  set (b := hd s l2) in *.
  assert (b ∈ s :: l1 ++ l2) as Hb.
  { unfold b. destruct l2 as [|b' l2]; [left|]. right. apply elem_of_app. right. left. }
  assert (b ≠ x) as Hbx by (by intros ->).
  set (h2 := delete x h1).
  assert (cycle h2 (s :: l1 ++ l2)) as Hcyc2 by (by apply cycle_delete).
  assert (∀ a, a ≠ x → payload <$> h2 !! a = payload <$> h !! a) as Hpay2.
  { intros a Ha. unfold h2. rewrite lookup_delete_ne by done. by apply Hpay1. }
  assert (counted h2 (s :: l1 ++ l2)) as Hcnt2.
  { apply (counted_same_payload h).
    - intros a Ha. apply Hpay2. by intros ->.
    - unfold counted in *. rewrite Forall_forall in Hcnt |- *. intros a Ha. apply Hcnt.
      unfold l. rewrite elem_of_cons, elem_of_app in Ha.
      rewrite elem_of_cons, elem_of_app, elem_of_cons. tauto. }
  assert (visits h2 l2 = visits h l2) as Hv2.
  { apply visits_same_payload. intros a Ha. apply Hpay2. intros ->.
    apply Hxout. right. apply elem_of_app. by right. }
  unfold l in Hfuel. rewrite length_app in Hfuel. simpl in Hfuel.
  set (F := fuel - length l1 - 2).
  exists (mkState h2 k bits (Some s) (tr ++ t1 ++ [(x, fx)] ++ visits h l2)).
  split_and!.
  - unfold emit. unfold get_callbackRing at 1.
    rewrite (bind_Done _ _ _ (Some s) (mkState h k bits (Some s) tr)) by done.
    erewrite bind_Done by (by eapply acquire_held).
    rewrite (bind_Done _ _ _ (s, fed val C args c2 (visits h l2))
               (mkState (held h2 s) k bits (Some s) (tr ++ t1 ++ [(x, fx)] ++ visits h l2))).
    { simpl fst. simpl snd.
      destruct (counted_at h2 _ s Hcnt2) as (ns2 & Hs2 & Hcs2); [left|].
      erewrite bind_Done by (by eapply release_held).
      unfold ret. do 3 f_equal. unfold c2, c1, t1, fed.
      rewrite !foldl_app. simpl. done. }
    replace fuel with (S (length l1 + S F)) by (unfold F; lia).
    rewrite (emit_loop_stretch val C call h k bits s l args Hcyc Hcnt l1 [] s (x :: l2));
      [|done|].
    2:{ intros a f Ha. apply Hpure. apply elem_of_cons in Ha as [->|Ha]; [left|].
        right. apply elem_of_app. by left. }
    rewrite sweep_nonstop by done. fold t1 c1. unfold onward.
    (* the turn on [x] *)
    assert (held h x !! x = Some (with_refCount (_refCount nx + 1) nx)) as Hhx
      by (unfold held; by rewrite lookup_alter_eq, Hnx).
    rewrite emit_loop_unfold. erewrite bind_Done by (by apply load_at).
    simpl _enabled. simpl _callbackFunc. rewrite Hex, Hcbx.
    rewrite (bind_Done _ _ _ (collect C c1 (val fx args))
               (mkState h1 k bits (Some s) (tr ++ t1 ++ [(x, fx)]))).
    2:{ unfold note, invoke. unfold bind at 1. simpl. unfold with_invoked. simpl.
        unfold bind at 1. rewrite Hfx. rewrite <- app_assoc.
        replace (S (length l1 + S F)) with fuel by (unfold F; lia).
        by rewrite (bind_Done _ _ _ _ _ Hdis). }
    rewrite (surjective_pairing (collect C c1 (val fx args))). rewrite Hgo. fold c2.
    cbn [negb].
    (* the traversal leaves [x] by the links it kept *)
    erewrite bind_Done by (by apply load_at).
    simpl _next. rewrite Hnext. simpl deref. unfold ret at 1.
    rewrite (bind_Done _ _ _ b (mkState h1 k bits (Some s) (tr ++ t1 ++ [(x, fx)]))) by done.
    destruct (counted_at h2 _ b Hcnt2 Hb) as (nb & Hnb & Hcb).
    assert (h1 !! b = Some nb) as Hnb1.
    { unfold h2 in Hnb. by rewrite lookup_delete_ne in Hnb. }
    erewrite bind_Done by (by eapply acquire_held).
    rewrite (bind_Done _ _ _ tt (mkState (held h2 b) k bits (Some s) (tr ++ t1 ++ [(x, fx)]))).
    2:{ unfold h2. rewrite <- held_delete by done. apply decref_last with (n := with_callbackFunc None nx).
        - unfold held. by rewrite lookup_alter_ne.
        - done. }
    unfold get_callbackRing at 1.
    rewrite (bind_Done _ _ _ (Some s) (mkState (held h2 b) k bits (Some s) (tr ++ t1 ++ [(x, fx)])))
      by done.
    pose proof (emit_rest h2 k bits s l1 l2 args c2 (tr ++ t1 ++ [(x, fx)]) F Hcyc2 Hcnt2 Hgo)
      as Hgoon.
    rewrite Hv2 in Hgoon. rewrite <- !app_assoc in Hgoon.
    rewrite <- Hgoon.
    + unfold onward, b. destruct l2 as [|b' l2]; simpl hd.
      * by rewrite decide_True.
      * rewrite decide_False; [done|]. intros [= ->].
        apply NoDup_cons in Hnd as [Hnot _]. apply Hnot.
        apply elem_of_app. right. right. left.
    + intros a f Ha Hf. apply (Hpure a).
      * right. apply elem_of_app. by right.
      * rewrite <- Hf. symmetry. apply active_same_payload, Hpay2. intros ->.
        apply Hxout. right. apply elem_of_app. by right.
    + unfold F. lia.
  - split_and!; simpl; [done|done| |].
    + rewrite <- Hrs. apply refs_payload, Hpay2. intros ->. apply Hxout. left.
    + rewrite Forall_forall in Hrl |- *. intros a Ha.
      assert (a ≠ x) as Hax.
      { intros ->. apply Hxout. by right. }
      rewrite (refs_payload h h2) by (by apply Hpay2).
      apply Hrl. unfold l. rewrite elem_of_app in Ha. rewrite elem_of_app, elem_of_cons. tauto.
  - simpl. unfold h2. by rewrite lookup_delete_eq.
  - done.
  - simpl. done.
Qed.

Lemma bind_Undefined {A B} (m : M Callback A) (K : A → M Callback B) w :
  m w = Undefined → bind m K w = Undefined.
Proof. unfold bind. by intros ->. Qed.

(** The emission up to the turn of the connected node [x]: the nodes
    before it are passed, and the traversal stands on [x]. *)
Lemma emit_reaches h k bits tr s l1 x l2 junk args F :
  cycle h (s :: l1 ++ x :: l2) → counted h (s :: l1 ++ x :: l2) →
  (∀ st r, snd (collect C st r) = true) →
  (∀ a f, a ∈ s :: l1 → active h a = Some f → ∀ w', call f args w' = Done (val f args, w')) →
  emit call C (S (length l1 + F)) junk args (mkState h k bits (Some s) tr)
  = (end_ <- emit_loop call C F args x
               (fed val C args (construct C junk) (visits h (s :: l1))) ;;
     decref (fst end_) ;;
     ret (result C (snd end_)))
      (mkState (held h x) k bits (Some s) (tr ++ visits h (s :: l1))).
Proof.
  intros Hcyc Hcnt Hgo Hpure.
  destruct (counted_at h _ s Hcnt) as (ns & Hs & Hcs); [left|].
  unfold emit. unfold get_callbackRing at 1.
  rewrite (bind_Done _ _ _ (Some s) (mkState h k bits (Some s) tr)) by done.
  erewrite bind_Done by (by eapply acquire_held).
  unfold bind at 1. unfold bind at 3.
  rewrite (emit_loop_stretch val C call h k bits s _ args Hcyc Hcnt l1 [] s (x :: l2));
    [|done|done].
  by rewrite sweep_nonstop.
Qed.

(** A callback that disconnects another connected node [y] while the
    traversal stands on [x]: [y] leaves the ring and is freed, and the
    traversal keeps its reference. *)
Lemma disconnect_other_held h k bits tr s l x y fuel :
  cycle h (s :: l) → counted h (s :: l) → refs h y = Some 1%Z →
  x ∈ s :: l → y ∈ l → y ≠ x → length l ≤ fuel →
  ∃ h', disconnect fuel (mkRef (Some y)) (mkState (held h x) k bits (Some s) tr)
        = Done ((true, mkRef None), mkState (held h' x) k bits (Some s) tr) ∧
        cycle h' (s :: filter (λ a, a ≠ y) l) ∧
        (∀ b, b ≠ y → payload <$> h' !! b = payload <$> h !! b) ∧
        h' !! y = None.
Proof.
  intros Hcyc Hcnt Hry Hx Hy Hyx Hfuel.
  apply refs_Some in Hry as (ny & Hny & Hrc).
  apply list_elem_of_split in Hy as (p1 & p2 & ->).
  assert (NoDup (s :: p1 ++ y :: p2)) as Hnd by apply Hcyc.
  apply NoDup_cons in Hnd as [Hs Hnd].
  apply NoDup_app in Hnd as (_ & Hd & Hnd2). apply NoDup_cons in Hnd2 as [Hy2 _].
  assert (y ∉ p1) as Hy1 by (intros Hy1; apply (Hd y Hy1); left).
  assert (filter (λ a, a ≠ y) (p1 ++ y :: p2) = p1 ++ p2) as ->.
  { rewrite filter_app, filter_cons_False by (intros Hn; by apply Hn).
    rewrite !filter_all; [done|by intros a Ha ->..]. }
  assert (held h x !! y = Some ny) as Hhy by (unfold held; by rewrite lookup_alter_ne).
  destruct (remove_hit (held h x) k bits (Some s) tr s p1 y p2 ny fuel
              (cycle_held h x _ Hcyc) Hhy)
    as (h2 & Hrem & Hcyc2 & Hpay2 & _ & Hself).
  { lia. }
  { rewrite length_app in *. simpl in Hfuel. lia. }
  rewrite decide_True in Hself by done.
  destruct (counted_at h _ x Hcnt Hx) as (nx & Hnx & Hcx).
  set (h' := alter (λ n : Link, with_refCount (_refCount n - 1) n) x h2).
  assert (held h' x = h2) as Hheld by apply held_released.
  exists h'. split_and!.
  - unfold disconnect, ConnectionRef_disconnect. simpl.
    rewrite (bind_Done _ _ _ _ _ Hrem). by rewrite Hheld.
  - eapply cycle_same_links; [|exact Hcyc2]. intros a n Ha Hn. unfold h'.
    destruct (decide (x = a)) as [->|Hne].
    + rewrite lookup_alter_eq, Hn. by eexists.
    + rewrite lookup_alter_ne by done. by exists n.
  - intros b Hb. unfold h'. destruct (decide (x = b)) as [<-|Hne].
    + rewrite lookup_alter_eq. specialize (Hpay2 x (not_eq_sym Hyx)). unfold held in Hpay2.
      rewrite lookup_alter_eq, Hnx in Hpay2. rewrite Hnx.
      destruct (h2 !! x) as [n2|]; [|done]. simpl in *.
      unfold payload in *. simpl in Hpay2. injection Hpay2 as He Hf Hc.
      simpl. rewrite He, Hf, Hc. do 2 f_equal. lia.
    + rewrite lookup_alter_ne by done. rewrite Hpay2 by done.
      unfold held. by rewrite lookup_alter_ne.
  - unfold h'. by rewrite lookup_alter_ne.
Qed.

(** Reentrant disconnection of another connected node, on any ring at
    rest. *)
Lemma emit_reentrant_disconnect_other w s l1 x l2 y fx junk args fuel :
  at_rest w s (l1 ++ x :: l2) →
  length (l1 ++ x :: l2) < fuel →
  (∀ st r, snd (collect C st r) = true) →
  active (store w) x = Some fx →
  y ∈ l1 ++ l2 →
  (∀ w', call fx args w' = (disconnect fuel (mkRef (Some y)) ;; ret (val fx args)) w') →
  (∀ a f, a ∈ s :: l1 ++ l2 → active (store w) a = Some f →
          ∀ w', call f args w' = Done (val f args, w')) →
  ∃ w',
    emit call C fuel junk args w
    = Done (result C (fed val C args (construct C junk)
                        (visits (store w) (s :: l1) ++ [(x, fx)] ++
                         visits (store w) (filter (λ a, a ≠ y) l2))),
            w') ∧
    at_rest w' s (filter (λ a, a ≠ y) l1 ++ x :: filter (λ a, a ≠ y) l2) ∧
    store w' !! y = None ∧
    (∀ b, b ≠ y → payload <$> store w' !! b = payload <$> store w !! b) ∧
    invoked w' = invoked w ++ visits (store w) (s :: l1) ++ [(x, fx)] ++
                 visits (store w) (filter (λ a, a ≠ y) l2).
Proof.
  intros Hrest Hfuel Hgo Hact Hy Hfx Hpure.
  pose proof (at_rest_counted _ _ _ Hrest) as Hcnt.
  destruct w as [h k bits ring tr]. destruct Hrest as (Hring & Hcyc & Hrs & Hrl).
  simpl in *. subst ring.
  assert (NoDup (s :: l1 ++ x :: l2)) as Hnd by apply Hcyc.
  assert (y ≠ x ∧ y ≠ s ∧ y ∈ l1 ++ x :: l2) as (Hyx & Hys & Hyl).
  { apply NoDup_cons in Hnd as [Hs Hnd].
    apply NoDup_app in Hnd as (_ & Hd & Hnd2). apply NoDup_cons in Hnd2 as [Hx2 _].
    rewrite elem_of_app in Hy. split_and!.
    - intros ->. destruct Hy as [Hy|Hy]; [|done]. apply (Hd x Hy). left.
    - intros ->. apply Hs. rewrite elem_of_app, elem_of_cons. tauto.
    - rewrite elem_of_app, elem_of_cons. tauto. }
  set (f1 := filter (λ a, a ≠ y) l1). set (f2 := filter (λ a, a ≠ y) l2).
  set (t1 := visits h (s :: l1)).
  set (c1 := fed val C args (construct C junk) t1).
  set (c2 := fst (collect C c1 (val fx args))).
  destruct (active_inv h x fx Hact) as (nx & Hnx & Hex & Hcbx).
  destruct (disconnect_other_held h k bits (tr ++ t1 ++ [(x, fx)]) s (l1 ++ x :: l2) x y fuel
              Hcyc Hcnt) as (h' & Hdis & Hcyc' & Hpay' & Hgone); [| |done|done|lia|].
  { rewrite Forall_forall in Hrl. by apply Hrl. }
  { right. apply elem_of_app. right. left. }
  rewrite filter_app, filter_cons_True in Hcyc' by done. fold f1 f2 in Hcyc'.
  assert (∀ a, a ∈ s :: f1 ++ x :: f2 → a ≠ y ∧ a ∈ s :: l1 ++ x :: l2) as Hsub.
  { intros a Ha. unfold f1, f2 in Ha.
    rewrite elem_of_cons, elem_of_app, elem_of_cons, !list_elem_of_filter in Ha.
    rewrite elem_of_cons, elem_of_app, elem_of_cons.
    split; [|tauto]. intros ->. tauto. }
  assert (counted h' (s :: f1 ++ x :: f2)) as Hcnt'.
  { apply (counted_same_payload h).
    - intros a Ha. apply Hpay'. by apply Hsub.
    - unfold counted in *. rewrite Forall_forall in Hcnt |- *. intros a Ha. apply Hcnt.
      by apply Hsub. }
  assert (visits h' f2 = visits h f2) as Hv2.
  { apply visits_same_payload. intros a Ha. apply Hpay'. apply Hsub.
    right. apply elem_of_app. right. by right. }
  rewrite length_app in Hfuel. simpl in Hfuel.
  assert (length f2 ≤ length l2) as Hlen2 by apply length_filter.
  set (F := fuel - length l1 - 2).
  exists (mkState h' k bits (Some s) (tr ++ t1 ++ [(x, fx)] ++ visits h f2)).
  split_and!.
  - replace fuel with (S (length l1 + S F)) at 1 by (unfold F; lia).
    rewrite (emit_reaches h k bits tr s l1 x l2 junk args (S F) Hcyc Hcnt Hgo).
    2:{ intros a f Ha. apply Hpure. rewrite elem_of_cons in Ha.
        rewrite elem_of_cons, elem_of_app. tauto. }
    fold t1 c1.
    rewrite (bind_Done _ _ _ (s, fed val C args c2 (visits h f2))
               (mkState (held h' s) k bits (Some s) (tr ++ t1 ++ [(x, fx)] ++ visits h f2))).
    { simpl fst. simpl snd.
      destruct (counted_at h' _ s Hcnt') as (ns' & Hs' & Hcs'); [left|].
      erewrite bind_Done by (by eapply release_held).
      unfold ret. do 3 f_equal. unfold c2, c1, t1, fed.
      rewrite !foldl_app. simpl. done. }
    assert (held h x !! x = Some (with_refCount (_refCount nx + 1) nx)) as Hhx
      by (unfold held; by rewrite lookup_alter_eq, Hnx).
    rewrite emit_loop_unfold. erewrite bind_Done by (by apply load_at).
    simpl _enabled. simpl _callbackFunc. rewrite Hex, Hcbx.
    rewrite (bind_Done _ _ _ (collect C c1 (val fx args))
               (mkState (held h' x) k bits (Some s) (tr ++ t1 ++ [(x, fx)]))).
    2:{ unfold note, invoke. unfold bind at 1. simpl. unfold with_invoked. simpl.
        unfold bind at 1. rewrite Hfx. rewrite <- app_assoc.
        by rewrite (bind_Done _ _ _ _ _ Hdis). }
    rewrite (surjective_pairing (collect C c1 (val fx args))). rewrite Hgo. fold c2.
    cbn [negb].
    rewrite (emit_advance C call h' k bits s (f1 ++ x :: f2) args Hcyc' Hcnt' (s :: f1) x f2)
      by done.
    assert (cycle h' (s :: (f1 ++ [x]) ++ f2)) as Hcyc'' by (by rewrite <- app_assoc).
    assert (counted h' (s :: (f1 ++ [x]) ++ f2)) as Hcnt'' by (by rewrite <- app_assoc).
    rewrite (emit_rest h' k bits s (f1 ++ [x]) f2 args c2 (tr ++ t1 ++ [(x, fx)]) F
               Hcyc'' Hcnt'' Hgo).
    + by rewrite Hv2, <- !app_assoc.
    + intros a f Ha Hf. assert (a ≠ y ∧ a ∈ s :: l1 ++ x :: l2) as [Hay Hal].
      { apply Hsub. right. apply elem_of_app. right. by right. }
      apply (Hpure a).
      * unfold f2 in Ha. apply list_elem_of_filter in Ha as [_ Ha].
        right. apply elem_of_app. by right.
      * rewrite <- Hf. symmetry. by apply active_same_payload, Hpay'.
    + unfold F. lia.
  - split_and!; simpl; [done|done| |].
    + rewrite <- Hrs. by apply refs_payload, Hpay'.
    + rewrite Forall_forall in Hrl |- *. intros a Ha.
      assert (a ≠ y ∧ a ∈ s :: l1 ++ x :: l2) as [Hay Hal] by (apply Hsub; by right).
      rewrite (refs_payload h h') by (by apply Hpay').
      apply Hrl. unfold f1, f2 in Ha.
      rewrite elem_of_app, elem_of_cons, !list_elem_of_filter in Ha.
      rewrite elem_of_app, elem_of_cons. tauto.
  - done.
  - done.
  - done.
Qed.

(** A callback that disconnects its own node and then the node after it:
    the traversal leaves its node by a link to freed storage. *)
Lemma emit_reentrant_disconnect_two w s l1 x b l2 fx junk args fuel :
  at_rest w s (l1 ++ x :: b :: l2) →
  length (l1 ++ x :: b :: l2) < fuel →
  (∀ st r, snd (collect C st r) = true) →
  active (store w) x = Some fx →
  (∀ w', call fx args w'
         = (disconnect fuel (mkRef (Some x)) ;; disconnect fuel (mkRef (Some b)) ;;
            ret (val fx args)) w') →
  (∀ a f, a ∈ s :: l1 → active (store w) a = Some f →
          ∀ w', call f args w' = Done (val f args, w')) →
  emit call C fuel junk args w = Undefined.
Proof.
  intros Hrest Hfuel Hgo Hact Hfx Hpure.
  pose proof (at_rest_counted _ _ _ Hrest) as Hcnt.
  destruct w as [h k bits ring tr]. destruct Hrest as (Hring & Hcyc & Hrs & Hrl).
  simpl in *. subst ring.
  assert (NoDup (s :: l1 ++ x :: b :: l2)) as Hnd by apply Hcyc.
  assert (x ∉ s :: l1 ++ b :: l2) as Hxout.
  { rewrite app_comm_cons in Hnd.
    apply NoDup_app in Hnd as (_ & Hd & Hnd2). apply NoDup_cons in Hnd2 as [Hx2 _].
    rewrite app_comm_cons. intros Hin. apply elem_of_app in Hin as [Hin|Hin]; [|done].
    apply (Hd x Hin). left. }
  assert (x ≠ b) as Hxb.
  { intros ->. apply Hxout. right. apply elem_of_app. right. left. }
  destruct (active_inv h x fx Hact) as (nx & Hnx & Hex & Hcbx).
  rewrite Forall_forall in Hrl.
  assert (_refCount nx = 1%Z) as Hrcx.
  { specialize (Hrl x). unfold refs in Hrl. rewrite Hnx in Hrl. simpl in Hrl.
    assert (Some (_refCount nx) = Some 1%Z) as [= ->]; [|done].
    apply Hrl. apply elem_of_app. right. left. }
  set (t1 := visits h (s :: l1)).
  set (c1 := fed val C args (construct C junk) t1).
  rewrite length_app in Hfuel. simpl in Hfuel.
  destruct (disconnect_self_held h k bits (tr ++ t1 ++ [(x, fx)]) s l1 x (b :: l2) nx fuel
              Hcyc Hnx Hrcx) as (h1 & Hdis1 & Hcyc1 & Hpay1 & Hx1).
  { rewrite length_app. simpl. lia. }
  assert (refs h1 b = Some 1%Z) as Hrb.
  { rewrite (refs_payload h h1) by (apply Hpay1; by intros ->).
    apply Hrl. apply elem_of_app. right. right. left. }
  apply refs_Some in Hrb as (nb & Hnb & Hrcb).
  destruct (remove_hit h1 k bits (Some s) (tr ++ t1 ++ [(x, fx)]) s l1 b l2 nb fuel Hcyc1 Hnb)
    as (h3 & Hrem & _ & _ & Hout3 & Hb3).
  { lia. }
  { rewrite length_app. lia. }
  rewrite decide_True in Hb3 by done.
  assert (h3 !! x = Some (with_callbackFunc None nx)) as Hx3.
  { rewrite Hout3; [done| |done]. intros Hin. apply Hxout.
    rewrite elem_of_cons, elem_of_app in Hin. rewrite elem_of_cons, elem_of_app, elem_of_cons.
    tauto. }
  destruct (cycle_next h s _ (s :: l1) x (b :: l2) Hcyc eq_refl) as (nx' & Hnx' & Hnext).
  assert (nx' = nx) as -> by congruence. clear Hnx'. simpl hd in Hnext.
  set (F := fuel - length l1 - 2).
  replace fuel with (S (length l1 + S F)) at 1 by (unfold F; lia).
  rewrite (emit_reaches h k bits tr s l1 x (b :: l2) junk args (S F) Hcyc Hcnt Hgo Hpure).
  fold t1 c1. apply bind_Undefined.
  assert (held h x !! x = Some (with_refCount (_refCount nx + 1) nx)) as Hhx
    by (unfold held; by rewrite lookup_alter_eq, Hnx).
  rewrite emit_loop_unfold. erewrite bind_Done by (by apply load_at).
  simpl _enabled. simpl _callbackFunc. rewrite Hex, Hcbx.
  rewrite (bind_Done _ _ _ (collect C c1 (val fx args))
             (mkState h3 k bits (Some s) (tr ++ t1 ++ [(x, fx)]))).
  2:{ unfold note, invoke. unfold bind at 1. simpl. unfold with_invoked. simpl.
      unfold bind at 1. rewrite Hfx. rewrite <- app_assoc.
      rewrite (bind_Done _ _ _ _ _ Hdis1).
      unfold disconnect, ConnectionRef_disconnect. simpl.
      rewrite (bind_Done _ _ _ (true, mkRef None) (mkState h3 k bits (Some s)
                                                    (tr ++ t1 ++ [(x, fx)]))); [done|].
      by rewrite (bind_Done _ _ _ _ _ Hrem). }
  rewrite (surjective_pairing (collect C c1 (val fx args))). rewrite Hgo.
  cbn [negb].
  erewrite bind_Done by (by apply load_at).
  simpl _next. rewrite Hnext. simpl deref. unfold ret at 1.
  rewrite (bind_Done _ _ _ b (mkState h3 k bits (Some s) (tr ++ t1 ++ [(x, fx)]))) by done.
  apply bind_Undefined. unfold incref. apply bind_Undefined.
  unfold update. apply bind_Undefined. unfold load. simpl. by rewrite Hb3.
Qed.

End ReentrantDisconnect.

Section ReentrantTheorems.

Context {Callback Args R : Type}.

Variable val : Callback → Args → R.
Variable C : Collector R.
Variable call : Callback → Args → M Callback R.

Implicit Types (l : list addr) (w : State Callback).

(** X14: a callback may disconnect its own node during an emission.  On a
    signal at rest, under a collector that never stops, when the active
    callback [fx] of the connected node [x] disconnects [x] and the other
    callbacks leave the signal alone, [emit] completes: the pass goes on
    with the nodes after [x] by the links [x] kept, every active callback
    is invoked once, in ring order; at the end [x] is out of the ring and
    freed, the signal is at rest again, and the other nodes are as they
    were. *)
Theorem callback_may_disconnect_itself w s l1 x l2 fx junk args fuel :
  at_rest w s (l1 ++ x :: l2) →
  length (l1 ++ x :: l2) < fuel →
  (∀ st r, snd (collect C st r) = true) →
  active (store w) x = Some fx →
  (∀ w', call fx args w' = (disconnect fuel (mkRef (Some x)) ;; ret (val fx args)) w') →
  (∀ a f, a ∈ s :: l1 ++ l2 → active (store w) a = Some f →
          ∀ w', call f args w' = Done (val f args, w')) →
  ∃ w',
    emit call C fuel junk args w
    = Done (result C (fed val C args (construct C junk)
                        (visits (store w) (s :: l1) ++ [(x, fx)] ++ visits (store w) l2)),
            w') ∧
    at_rest w' s (l1 ++ l2) ∧
    store w' !! x = None ∧
    (∀ b, b ≠ x → payload <$> store w' !! b = payload <$> store w !! b) ∧
    invoked w' = invoked w ++ visits (store w) (s :: l1) ++ [(x, fx)] ++ visits (store w) l2.
Proof. apply emit_reentrant_disconnect_self. Qed.

(** X15: a callback may disconnect another connected node during an
    emission.  On a signal at rest, under a collector that never stops,
    when the active callback [fx] of the connected node [x] disconnects the
    connected node [y] and the other callbacks leave the signal alone,
    [emit] completes: [y] is freed at once, and when it comes after [x] in
    the ring its callback is not invoked in this pass; the other active
    callbacks are invoked once, in ring order; at the end the signal is at
    rest without [y] and the other nodes are as they were. *)
Theorem callback_may_disconnect_another w s l1 x l2 y fx junk args fuel :
  at_rest w s (l1 ++ x :: l2) →
  length (l1 ++ x :: l2) < fuel →
  (∀ st r, snd (collect C st r) = true) →
  active (store w) x = Some fx →
  y ∈ l1 ++ l2 →
  (∀ w', call fx args w' = (disconnect fuel (mkRef (Some y)) ;; ret (val fx args)) w') →
  (∀ a f, a ∈ s :: l1 ++ l2 → active (store w) a = Some f →
          ∀ w', call f args w' = Done (val f args, w')) →
  ∃ w',
    emit call C fuel junk args w
    = Done (result C (fed val C args (construct C junk)
                        (visits (store w) (s :: l1) ++ [(x, fx)] ++
                         visits (store w) (filter (λ a, a ≠ y) l2))),
            w') ∧
    at_rest w' s (filter (λ a, a ≠ y) l1 ++ x :: filter (λ a, a ≠ y) l2) ∧
    store w' !! y = None ∧
    (∀ b, b ≠ y → payload <$> store w' !! b = payload <$> store w !! b) ∧
    invoked w' = invoked w ++ visits (store w) (s :: l1) ++ [(x, fx)] ++
                 visits (store w) (filter (λ a, a ≠ y) l2).
Proof. apply emit_reentrant_disconnect_other. Qed.

(** X16: a callback must not disconnect its own node and the node after
    it in the same invocation.  On a signal at rest, under a collector that
    never stops, when the active callback of the connected node [x]
    disconnects [x] and then the node [b] that followed it, [b] is freed
    while the link [x] kept still points to it, and [emit] goes on through
    that link: the emission is undefined behaviour. *)
Theorem disconnecting_self_and_next_is_undefined w s l1 x b l2 fx junk args fuel :
  at_rest w s (l1 ++ x :: b :: l2) →
  length (l1 ++ x :: b :: l2) < fuel →
  (∀ st r, snd (collect C st r) = true) →
  active (store w) x = Some fx →
  (∀ w', call fx args w'
         = (disconnect fuel (mkRef (Some x)) ;; disconnect fuel (mkRef (Some b)) ;;
            ret (val fx args)) w') →
  (∀ a f, a ∈ s :: l1 → active (store w) a = Some f →
          ∀ w', call f args w' = Done (val f args, w')) →
  emit call C fuel junk args w = Undefined.
Proof. apply emit_reentrant_disconnect_two. Qed.

(** X17: a callback may connect a callback during an emission.  On a
    signal at rest, under a collector that never stops, when the active
    callback [fx] of the connected node [x] connects [D] and the other
    callbacks, and [D], leave the signal alone, [emit] completes: the node
    of [D] is the last of the ring, the signal is at rest again, and the
    pass invokes the active callbacks in ring order and then, when the
    storage of the new node read [true], [D]. *)
Theorem callback_may_connect w s l1 x l2 fx D junk args fuel :
  at_rest w s (l1 ++ x :: l2) →
  length (l1 ++ x :: l2) + 1 < fuel →
  (∀ st r, snd (collect C st r) = true) →
  active (store w) x = Some fx →
  (∀ w', call fx args w' = (connect (Some D) ;; ret (val fx args)) w') →
  (∀ a f, a ∈ s :: l1 ++ l2 → active (store w) a = Some f →
          ∀ w', call f args w' = Done (val f args, w')) →
  (∀ w', call D args w' = Done (val D args, w')) →
  ∃ d w' r,
    emit call C fuel junk args w = Done (r, w') ∧
    at_rest w' s (l1 ++ x :: l2 ++ [d]) ∧
    _callbackFunc <$> store w' !! d = Some (Some D) ∧
    invoked w' = invoked w ++ visits (store w) (s :: l1) ++ [(x, fx)] ++
                 visits (store w) l2 ++ (if raw w (allocs w) then [(d, D)] else []).
Proof. apply emit_reentrant_connect. Qed.

End ReentrantTheorems.

(** X14 on the ring of three, where the second callback disconnects its
    own node. *)
Lemma callback_may_disconnect_itself_witness :
  ∃ w',
    emit (disconnecting_call own_number 20 4 [2]) (CollectorVector Z) 4 tt tt ring3
    = Done ([10; 20; 30]%Z, w') ∧
    at_rest w' 0 [1; 3] ∧
    store w' !! 2 = None ∧
    invoked w' = [(1, 10); (2, 20); (3, 30)].
Proof.
  destruct (callback_may_disconnect_itself own_number (CollectorVector Z)
              (disconnecting_call own_number 20 4 [2]) ring3 0 [1] 2 [3] 20 tt tt 4)
    as (w' & Hemit & Hrest & Hgone & _ & Htr).
  - by apply (bool_decide_unpack _).
  - simpl. lia.
  - done.
  - reflexivity.
  - intros w'. reflexivity.
  - intros a f Ha Hf w'. simpl in Ha. rewrite !elem_of_cons in Ha.
    destruct Ha as [->|[->|[->|Ha]]]; [| | |by apply elem_of_nil in Ha];
      vm_compute in Hf; try discriminate; injection Hf as <-; reflexivity.
  - exists w'. split_and!; [exact Hemit|exact Hrest|exact Hgone|exact Htr].
Defined.

(** X15 on the ring of three, where the first callback disconnects the
    node of the third. *)
Lemma callback_may_disconnect_another_witness :
  ∃ w',
    emit (disconnecting_call own_number 10 4 [3]) (CollectorVector Z) 4 tt tt ring3
    = Done ([10; 20]%Z, w') ∧
    at_rest w' 0 [1; 2] ∧
    store w' !! 3 = None ∧
    invoked w' = [(1, 10); (2, 20)].
Proof.
  destruct (callback_may_disconnect_another own_number (CollectorVector Z)
              (disconnecting_call own_number 10 4 [3]) ring3 0 [] 1 [2; 3] 3 10 tt tt 4)
    as (w' & Hemit & Hrest & Hgone & _ & Htr).
  - by apply (bool_decide_unpack _).
  - simpl. lia.
  - done.
  - reflexivity.
  - by apply (bool_decide_unpack _).
  - intros w'. reflexivity.
  - intros a f Ha Hf w'. simpl in Ha. rewrite !elem_of_cons in Ha.
    destruct Ha as [->|[->|[->|Ha]]]; [| | |by apply elem_of_nil in Ha];
      vm_compute in Hf; try discriminate; injection Hf as <-; reflexivity.
  - exists w'. split_and!; [exact Hemit|exact Hrest|exact Hgone|exact Htr].
Defined.

(** X16 on the ring of three, where the first callback disconnects its own
    node and the node of the second. *)
Lemma disconnecting_self_and_next_is_undefined_witness :
  emit (disconnecting_call own_number 10 4 [1; 2]) (CollectorVector Z) 4 tt tt ring3
  = Undefined.
Proof.
  apply (disconnecting_self_and_next_is_undefined own_number (CollectorVector Z)
           (disconnecting_call own_number 10 4 [1; 2]) ring3 0 [] 1 2 [3] 10 tt tt 4).
  - by apply (bool_decide_unpack _).
  - simpl. lia.
  - done.
  - reflexivity.
  - intros w'. reflexivity.
  - intros a f Ha Hf w'. simpl in Ha. rewrite !elem_of_cons in Ha.
    destruct Ha as [->|Ha]; [|by apply elem_of_nil in Ha].
    vm_compute in Hf. discriminate.
Defined.

(** X17 on the ring of three, where the second callback connects a fourth
    one. *)
Lemma callback_may_connect_witness :
  ∃ d w' r,
    emit (connecting_call own_number 20 40) (CollectorVector Z) 6 tt tt ring3 = Done (r, w') ∧
    at_rest w' 0 [1; 2; 3; d] ∧
    _callbackFunc <$> store w' !! d = Some (Some 40) ∧
    invoked w' = [(1, 10); (2, 20); (3, 30); (d, 40)].
Proof.
  destruct (callback_may_connect own_number (CollectorVector Z)
              (connecting_call own_number 20 40) ring3 0 [1] 2 [3] 20 40 tt tt 6)
    as (d & w' & r & Hemit & Hrest & Hcb & Htr).
  - by apply (bool_decide_unpack _).
  - simpl. lia.
  - done.
  - reflexivity.
  - intros w'. reflexivity.
  - intros a f Ha Hf w'. simpl in Ha. rewrite !elem_of_cons in Ha.
    destruct Ha as [->|[->|[->|Ha]]]; [| | |by apply elem_of_nil in Ha];
      vm_compute in Hf; try discriminate; injection Hf as <-; reflexivity.
  - intros w'. reflexivity.
  - exists d, w', r. split_and!; [exact Hemit|exact Hrest|exact Hcb|exact Htr].
Defined.

(** ** Nothing is leaked, nothing else is touched *)

Section NoLeak.

Context {Callback Args R : Type}.

Variable val : Callback → Args → R.
Variable C : Collector R.

Local Abbreviation Link := (SignalLink Callback).
Local Abbreviation Op := (@Op Callback Args R C).

Implicit Types (h : gmap addr Link) (w : State Callback) (hs : list ConnectionRef).
Implicit Types (l : list addr).

(** From a node on, the links of a store determine the chain to [z]. *)
Lemma chain_unique h z l :
  ∀ l' p (np : Link),
    h !! p = Some np → _next np = Some (hd z l) → _next np = Some (hd z l') →
    chain h p l z → chain h p l' z → z ∉ l → z ∉ l' → l = l'.
Proof.
  induction l as [|a l IH]; intros l' p np Hp Hn Hn' Hc Hc' Hz Hz'.
  - destruct l' as [|a' l']; [done|]. simpl in *.
    assert (z = a') as -> by congruence. exfalso. apply Hz'. left.
  - destruct l' as [|a' l']; simpl in *.
    + assert (a = z) as -> by congruence. exfalso. apply Hz. left.
    + assert (a = a') as <- by congruence.
      destruct Hc as [Ha Hc], Hc' as [Ha' Hc'].
      apply linked_inv in Ha as (na & Hna & _ & Hnx).
      apply linked_inv in Ha' as (na' & Hna' & _ & Hnx').
      assert (na' = na) as -> by congruence.
      f_equal. apply (IH l' a na); try done.
      * intros Hin. apply Hz. by right.
      * intros Hin. apply Hz'. by right.
Qed.

(** The ring of a signal at rest is determined by its store. *)
Lemma at_rest_unique w s l l' : at_rest w s l → at_rest w s l' → l = l'.
Proof.
  intros (_ & [Hnd Hc] & _) (_ & [Hnd' Hc'] & _).
  apply NoDup_cons in Hnd as [Hs _]. apply NoDup_cons in Hnd' as [Hs' _].
  simpl in Hc, Hc'. destruct Hc as [Hl Hc], Hc' as [Hl' Hc'].
  apply linked_inv in Hl as (ns & Hns & _ & Hnx).
  apply linked_inv in Hl' as (ns' & Hns' & _ & Hnx').
  assert (ns' = ns) as -> by congruence.
  by apply (chain_unique (store w) s l l' s ns).
Qed.

(** The constructor, run in any store. *)
Lemma ctor_tight (h0 : gmap addr Link) k bits ring0 (method : option Callback) :
  ∃ w, ProtoSignal_ctor method (mkState h0 k bits ring0 []) = Done (tt, w) ∧
       client_ok method 0 [] w ∧ tight h0 w.
Proof.
  assert (h0 !! fresh (dom h0) = None) as Hfresh by (apply not_elem_of_dom, is_fresh).
  destruct method as [m|].
  - unfold ProtoSignal_ctor.
    unfold set_callbackRing at 1. unfold bind at 1. unfold with_ring. simpl.
    rewrite (bind_Done _ _ _ _ _ (ensureRing_fresh _ _ _ _)).
    unfold get_callbackRing at 1. unfold bind at 1. simpl deref. unfold ret at 1.
    unfold bind at 1.
    erewrite update_at by apply lookup_insert_eq.
    rewrite insert_insert_eq. eexists. split; [done|].
    pose proof (at_rest_fresh h0 (S k) bits [] (Some m) (bits k)) as Hrest. split.
    + unfold client_ok. simpl. exists []. split_and!.
      * done.
      * by rewrite lookup_insert_eq.
      * done.
      * intros a f Hin. by apply elem_of_nil in Hin.
      * by apply handles_ok_null.
    + unfold tight. simpl. exists []. split_and!; [done| |].
      * intros x Hx. apply list_elem_of_singleton in Hx as ->. done.
      * intros x Hx. rewrite lookup_insert_ne; [done|]. intros <-. apply Hx. left.
  - eexists. split; [reflexivity|]. split; [|done].
    unfold client_ok. simpl. done.
Qed.

(** Every call of the interface keeps the store tight. *)
Lemma run_op_tight (h0 : gmap addr Link) method b w hs fuel (op : Op) :
  client_ok method b hs w → tight h0 w → b < fuel →
  ends (is_SetEnabled op) (λ _ w', tight h0 w') (run_op val C fuel op hs w).
Proof.
  intros Hok Htight Hfuel. unfold client_ok in Hok. unfold tight in Htight.
  destruct (_callbackRing w) as [s|] eqn:Hring.
  - destruct Hok as (l' & Hrest' & _ & Hlen & _ & Hhs).
    destruct Htight as (l & Hrest & Hnew & Hout).
    assert (l' = l) as -> by (by eapply at_rest_unique). clear Hrest'.
    destruct op as [cb|i|i flag|junk args]; simpl.
    + (* connect *)
      destruct (connect_at_rest w s l cb Hrest)
        as (a & w' & Hconn & Hrest' & Ha & Hfa & _ & _ & Hout' & _).
      rewrite (bind_Done _ _ _ _ _ Hconn). simpl.
      unfold tight. replace (_callbackRing w') with (Some s) by (symmetry; apply Hrest').
      exists (l ++ [a]). split_and!; [done| |].
      * intros x Hx. rewrite app_comm_cons, elem_of_app, list_elem_of_singleton in Hx.
        destruct Hx as [Hx| ->]; [by apply Hnew|]. rewrite <- Hout by done. done.
      * intros x Hx. rewrite app_comm_cons, elem_of_app, list_elem_of_singleton in Hx.
        rewrite Hout'; [apply Hout|..]; tauto.
    + (* disconnect *)
      destruct (hs !! i) as [[[x|]]|] eqn:Hi.
      * assert (x ∈ l) as Hx by (by eapply (proj1 Hhs)).
        apply list_elem_of_split in Hx as (l1 & l2 & ->).
        destruct (disconnect_at_rest w s l1 x l2 fuel Hrest)
          as (w' & Hdis & Hrest' & Hgone & _ & Hout' & _).
        { rewrite length_app in *. simpl in *. lia. }
        rewrite (bind_Done _ _ _ _ _ Hdis). simpl.
        unfold tight. replace (_callbackRing w') with (Some s) by (symmetry; apply Hrest').
        exists (l1 ++ l2). split_and!; [done| |].
        -- intros y Hy. apply Hnew. rewrite elem_of_cons, elem_of_app in Hy.
           rewrite elem_of_cons, elem_of_app, elem_of_cons. tauto.
        -- intros y Hy. destruct (decide (y = x)) as [->|Hyx].
           ++ rewrite Hgone. symmetry. apply Hnew. right. apply elem_of_app. right. left.
           ++ rewrite Hout' by done. apply Hout. intros Hin. apply Hy.
              rewrite elem_of_cons, elem_of_app, elem_of_cons in Hin.
              rewrite elem_of_cons, elem_of_app. tauto.
      * rewrite (bind_Done _ _ _ _ _ (disconnect_null w fuel)). simpl.
        unfold tight. rewrite Hring. by exists l.
      * simpl. unfold tight. rewrite Hring. by exists l.
    + (* setEnabled *)
      destruct (hs !! i) as [[[x|]]|] eqn:Hi.
      * assert (x ∈ l) as Hx by (by eapply (proj1 Hhs)).
        destruct (setEnabled_at_rest w s l x flag Hrest Hx) as (nx & Hnx & Hset & Hrest').
        rewrite (bind_Done _ _ _ _ _ Hset). simpl.
        unfold tight. simpl. rewrite Hring. exists l. split_and!; [done|done|].
        intros y Hy. rewrite lookup_insert_ne; [by apply Hout|].
        intros ->. apply Hy. by right.
      * done.
      * simpl. unfold tight. rewrite Hring. by exists l.
    + (* emit *)
      assert (length l < fuel) as Hlf by lia.
      pose proof (emit_at_rest val C w s l junk args fuel Hrest Hlf) as Hemit.
      destruct (sweep val C (store w) args (s :: l) (construct C junk)) as [[e c] t].
      rewrite (bind_Done _ _ _ _ _ Hemit).
      simpl. unfold tight. simpl. rewrite Hring. exists l. split_and!; [|done..].
      by apply (at_rest_same_store w).
  - destruct Hok as (-> & Htr & Hnull).
    destruct op as [cb|i|i flag|junk args]; simpl.
    + (* the first connect *)
      destruct w as [h k bits ring tr]. simpl in *. subst ring tr h.
      destruct (connect_first h0 k bits [] cb)
        as (s & a & w' & Hconn & Hrest' & _ & Hs & Ha & _ & _ & Hout' & _).
      rewrite (bind_Done _ _ _ _ _ Hconn). simpl.
      unfold tight. replace (_callbackRing w') with (Some s) by (symmetry; apply Hrest').
      exists [a]. split_and!; [done| |].
      * intros x Hx. rewrite !elem_of_cons in Hx.
        destruct Hx as [->|[->|Hx]]; [done|done|by apply elem_of_nil in Hx].
      * intros x Hx. rewrite !not_elem_of_cons in Hx. apply Hout'; tauto.
    + destruct (hs !! i) as [[[x|]]|] eqn:Hi.
      * rewrite Forall_forall in Hnull. apply list_elem_of_lookup_2 in Hi.
        by apply Hnull in Hi.
      * rewrite (bind_Done _ _ _ _ _ (disconnect_null w fuel)). simpl.
        unfold tight. by rewrite Hring.
      * simpl. unfold tight. by rewrite Hring.
    + destruct (hs !! i) as [[[x|]]|] eqn:Hi.
      * rewrite Forall_forall in Hnull. apply list_elem_of_lookup_2 in Hi.
        by apply Hnull in Hi.
      * done.
      * simpl. unfold tight. by rewrite Hring.
    + rewrite (bind_Done _ _ _ _ _ (emit_no_ring C _ w junk args fuel Hring)). simpl.
      unfold tight. by rewrite Hring.
Qed.

Lemma run_ops_tight (h0 : gmap addr Link) method (ops : list Op) :
  ∀ b w hs fuel,
    client_ok method b hs w → tight h0 w → b + length ops ≤ fuel →
    ends (Exists is_SetEnabled ops)
      (λ hs' w', client_ok method (b + length ops) hs' w' ∧ tight h0 w')
      (run_ops val C fuel ops hs w).
Proof.
  induction ops as [|op ops IH]; intros b w hs fuel Hok Htight Hfuel; simpl.
  - by rewrite Nat.add_0_r.
  - simpl in Hfuel.
    pose proof (run_op_ok val C method b w hs fuel op Hok ltac:(lia)) as Hop.
    pose proof (run_op_tight h0 method b w hs fuel op Hok Htight ltac:(lia)) as Hopt.
    unfold bind. destruct (run_op val C fuel op hs w) as [[hs' w']| | |]; try done.
    + simpl in Hop, Hopt. replace (b + S (length ops)) with (S b + length ops) by lia.
      specialize (IH (S b) w' hs' fuel Hop Hopt ltac:(lia)).
      destruct (run_ops val C fuel ops hs' w') as [[hs'' w'']| | |]; try done.
      simpl in *. by apply Exists_cons_tl.
    + simpl in *. by apply Exists_cons_hd.
Qed.

Lemma session_tight (h0 : gmap addr Link) k bits ring0 method (ops : list Op) fuel :
  length ops ≤ fuel →
  ends (Exists is_SetEnabled ops)
    (λ hs w, client_ok method (length ops) hs w ∧ tight h0 w)
    (session val C fuel method ops (mkState h0 k bits ring0 [])).
Proof.
  intros Hfuel. destruct (ctor_tight h0 k bits ring0 method) as (w & Hctor & Hok & Htight).
  unfold session. rewrite (bind_Done _ _ _ _ _ Hctor).
  by apply (run_ops_tight h0 method ops 0 w [] fuel).
Qed.


Lemma session_dtor_restores (h0 : gmap addr Link) k bits ring0 method (ops : list Op) fuel :
  length ops < fuel →
  ends (Exists is_SetEnabled ops) (λ _ w, store w = h0)
    ((session val C fuel method ops ;; ProtoSignal_dtor fuel) (mkState h0 k bits ring0 [])).
Proof.
  intros Hfuel.
  pose proof (session_tight h0 k bits ring0 method ops fuel ltac:(lia)) as Hok.
  unfold bind at 1.
  destruct (session val C fuel method ops (mkState h0 k bits ring0 [])) as [[hs w]| | |];
    try done.
  simpl in Hok. destruct Hok as [Hok Htight]. unfold client_ok in Hok. unfold tight in Htight.
  destruct (_callbackRing w) as [s|] eqn:Hring.
  - destruct Htight as (l & Hrest & Hnew & Hout).
    destruct Hok as (l' & Hrest' & _ & Hlen & _).
    assert (l' = l) as -> by (by eapply at_rest_unique).
    destruct (dtor_at_rest w s l fuel Hrest) as (w' & Hd & Hgone & Hout' & _); [lia|].
    rewrite Hd. simpl. apply map_eq. intros x.
    destruct (decide (x ∈ s :: l)) as [Hx|Hx].
    + rewrite Hgone by done. symmetry. by apply Hnew.
    + rewrite Hout' by done. by apply Hout.
  - unfold ProtoSignal_dtor, get_callbackRing, bind. by rewrite Hring.
Qed.

(** X19: nothing is leaked and nothing else is touched.  A signal that is
    constructed in a store that holds [h0], used by a client through
    [connect], [disconnect], [setEnabled] and [emit], and then destroyed
    leaves the store exactly as it was before the construction: the
    destructor frees the sentinel and every node still connected, whatever
    handles the client still holds.  No assertion fires and every loop
    ends; the one way out is undefined behaviour, which only a call of
    [setEnabled] can cause. *)
Theorem destroyed_signal_leaves_nothing (h0 : gmap addr Link) k bits ring0 method (ops : list Op) fuel :
  length ops < fuel →
  ends (Exists is_SetEnabled ops) (λ _ w, store w = h0)
    ((session val C fuel method ops ;; ProtoSignal_dtor fuel) (mkState h0 k bits ring0 [])).
Proof. apply session_dtor_restores. Qed.

End NoLeak.


(** X19 for a client that connects two callbacks, emits and disconnects
    the first one, on a signal constructed beside the ring of three: the
    second connection is freed by the destructor, and the ring of three is
    as it was. *)
Lemma destroyed_signal_leaves_nothing_witness :
  ends (Exists is_SetEnabled connect_two_drop_one) (λ _ w, store w = store ring3)
    ((session own_name (CollectorVector nat) 5 None connect_two_drop_one ;;
      ProtoSignal_dtor 5) (mkState (store ring3) 4 (λ _, true) None [])).
Proof.
  apply (destroyed_signal_leaves_nothing own_name (CollectorVector nat)).
  simpl. lia.
Defined.

(** ** Moves *)

Section MoveFacts.

Context {Callback : Type}.

Local Abbreviation Link := (SignalLink Callback).

Implicit Types (h : gmap addr Link) (w : State Callback) (l : list addr).

(** X20: move assignment swaps the rings, so the ring a signal had is
    destroyed with the source of the assignment.  For a signal at rest,
    [signal = std::move(other)] followed by the destruction of [other] (as
    in [signal = Signal()], where [other] is an empty temporary) completes;
    the signal then has the ring [other] had, the sentinel and all the
    nodes of its old ring are freed, and nothing else in the store is
    touched. *)
Theorem move_assign_destroys_old_ring w s l (other : option addr) fuel :
  at_rest w s l → length l < fuel →
  ∃ w', assign_and_destroy fuel other w = Done (tt, w') ∧
        _callbackRing w' = other ∧
        (∀ x, x ∈ s :: l → store w' !! x = None) ∧
        (∀ x, x ∉ s :: l → store w' !! x = store w !! x) ∧
        invoked w' = invoked w.
Proof.
  intros Hrest Hfuel. destruct w as [h k bits ring tr].
  assert (ring = Some s) as -> by apply Hrest.
  destruct (dtor_at_rest (mkState h k bits (Some s) tr) s l fuel Hrest Hfuel)
    as ([h' k' bits' ring' tr'] & Hdtor & Hgone & Hout & Htr).
  simpl in *.
  exists (mkState h' k' bits' other tr'). split_and!; try done.
  unfold assign_and_destroy, ProtoSignal_move_assign, on_signal.
  unfold get_callbackRing, set_callbackRing, bind, ret, with_ring. simpl.
  unfold bind in Hdtor. by rewrite Hdtor.
Qed.

(** X21: assigning a new connection to a scoped handle disconnects the
    connection it held.  On a signal at rest, [scoped = signal.connect(cb)]
    for a [ScopedConnectionRef] that holds the connected node [x] completes:
    the new node is appended to the ring, [x] is taken out of it and freed,
    the handle points to the new node, and the other nodes are as they
    were. *)
Theorem scoped_reassign_disconnects_old w s l1 x l2 (cb : option Callback) fuel :
  at_rest w s (l1 ++ x :: l2) → length (l1 ++ x :: l2) < fuel →
  ∃ a w', reconnect_scoped fuel (mkRef (Some x)) cb w = Done (mkRef (Some a), w') ∧
          at_rest w' s (l1 ++ l2 ++ [a]) ∧
          store w !! a = None ∧
          store w' !! x = None ∧
          payload <$> store w' !! a = Some (raw w (allocs w), cb, 1%Z) ∧
          (∀ b, b ≠ a → b ≠ x → payload <$> store w' !! b = payload <$> store w !! b).
Proof.
  intros Hrest Hfuel.
  destruct (connect_at_rest w s (l1 ++ x :: l2) cb Hrest)
    as (a & w1 & Hconn & Hrest1 & Hnew & Hfa & Hpa & Hpay1 & _).
  rewrite <- app_assoc in Hrest1. simpl in Hrest1.
  assert (a ≠ x) as Hax.
  { intros ->. apply Hnew. right. apply elem_of_app. right. left. }
  destruct (disconnect_at_rest w1 s l1 x (l2 ++ [a]) fuel Hrest1)
    as (w' & Hdis & Hrest' & Hgone & Hpay' & _).
  { rewrite !length_app in *. simpl in *. lia. }
  exists a, w'. split_and!; try done.
  - unfold reconnect_scoped. rewrite (bind_Done _ _ _ _ _ Hconn).
    unfold ConnectionRef_move, ScopedConnectionRef_assign, ConnectionRef_move_assign,
      ScopedConnectionRef_dtor. simpl.
    unfold disconnect in Hdis.
    rewrite (bind_Done _ _ _ tt w'); [done|].
    by rewrite (bind_Done _ _ _ _ _ Hdis).
  - by rewrite Hpay'.
  - intros b Hba Hbx. rewrite Hpay' by done. by apply Hpay1.
Qed.

End MoveFacts.

(** X20 on the ring of three, for [signal = Signal()]. *)
Lemma move_assign_destroys_old_ring_witness :
  ∃ w', assign_and_destroy 4 None ring3 = Done (tt, w') ∧
        _callbackRing w' = None ∧
        (∀ x, x ∈ [0; 1; 2; 3] → store w' !! x = None) ∧
        (∀ x, x ∉ [0; 1; 2; 3] → store w' !! x = store ring3 !! x) ∧
        invoked w' = invoked ring3.
Proof.
  apply (move_assign_destroys_old_ring ring3 0 [1; 2; 3] None 4).
  - by apply (bool_decide_unpack _).
  - simpl. lia.
Defined.

(** X21 on the ring of three, for the handle of the second connection. *)
Lemma scoped_reassign_disconnects_old_witness :
  ∃ a w', reconnect_scoped 4 (mkRef (Some 2)) (Some 40) ring3 = Done (mkRef (Some a), w') ∧
          at_rest w' 0 [1; 3; a] ∧
          store ring3 !! a = None ∧
          store w' !! 2 = None ∧
          payload <$> store w' !! a = Some (true, Some 40, 1%Z) ∧
          (∀ b, b ≠ a → b ≠ 2 → payload <$> store w' !! b = payload <$> store ring3 !! b).
Proof.
  apply (scoped_reassign_disconnects_old ring3 0 [1] 2 [3] (Some 40) 4).
  - by apply (bool_decide_unpack _).
  - simpl. lia.
Defined.

(** ** Emitting from inside an emission *)

Section Recursion.

Context {Callback Args R : Type}.

Variable val : Callback → Args → R.
Variable C : Collector R.

Local Abbreviation Link := (SignalLink Callback).

Implicit Types (h : gmap addr Link) (l : list addr) (w : State Callback).
Implicit Types (call : Callback → Args → M Callback R).

(** A whole pass over a ring whose active callbacks leave the signal
    alone, on a store where some nodes may hold more references than at
    rest. *)
Lemma emit_whole h k bits s l tr call junk args fuel :
  cycle h (s :: l) → counted h (s :: l) → length l < fuel →
  (∀ st r, snd (collect C st r) = true) →
  (∀ a f, a ∈ s :: l → active h a = Some f → ∀ w', call f args w' = Done (val f args, w')) →
  emit call C fuel junk args (mkState h k bits (Some s) tr)
  = Done (result C (fed val C args (construct C junk) (visits h (s :: l))),
          mkState h k bits (Some s) (tr ++ visits h (s :: l))).
Proof.
  intros Hcyc Hcnt Hfuel Hgo Hpure.
  destruct (counted_at h _ s Hcnt) as (ns & Hs & Hcs); [left|].
  unfold emit. unfold get_callbackRing at 1.
  rewrite (bind_Done _ _ _ (Some s) (mkState h k bits (Some s) tr)) by done.
  erewrite bind_Done by (by eapply acquire_held).
  replace fuel with (S (length l + (fuel - length l - 1))) by lia.
  rewrite (bind_Done _ _ _ (s, fed val C args (construct C junk) (visits h (s :: l)))
             (mkState (held h s) k bits (Some s) (tr ++ visits h (s :: l)))).
  - simpl fst. simpl snd. by erewrite bind_Done by (by eapply release_held).
  - rewrite (emit_loop_stretch val C call h k bits s l args Hcyc Hcnt l [] s []);
      [|by rewrite app_nil_r|done].
    by rewrite sweep_nonstop.
Qed.

(** Recursive emission, on any ring at rest. *)
Lemma emit_recursive w s l1 x l2 fx call call' junk args fuel :
  at_rest w s (l1 ++ x :: l2) →
  length (l1 ++ x :: l2) < fuel →
  (∀ st r, snd (collect C st r) = true) →
  active (store w) x = Some fx →
  (∀ w', call fx args w'
         = (disable (mkRef (Some x)) ;; emit call' C fuel junk args ;;
            enable (mkRef (Some x)) ;; ret (val fx args)) w') →
  (∀ a f, a ∈ s :: l1 ++ l2 → active (store w) a = Some f →
          ∀ w', call f args w' = Done (val f args, w') ∧
                call' f args w' = Done (val f args, w')) →
  emit call C fuel junk args w
  = Done (result C (fed val C args (construct C junk)
                      (visits (store w) (s :: l1) ++ [(x, fx)] ++ visits (store w) l2)),
          with_invoked (invoked w ++ visits (store w) (s :: l1) ++ [(x, fx)] ++
                        (visits (store w) (s :: l1) ++ visits (store w) l2) ++
                        visits (store w) l2) w).
Proof.
  intros Hrest Hfuel Hgo Hact Hfx Hpure.
  pose proof (at_rest_counted _ _ _ Hrest) as Hcnt.
  destruct w as [h k bits ring tr]. destruct Hrest as (Hring & Hcyc & Hrs & Hrl).
  simpl in *. subst ring. unfold with_invoked. simpl.
  set (l := l1 ++ x :: l2) in *.
  assert (NoDup (s :: l)) as Hnd by apply Hcyc.
  assert (x ∉ s :: l1 ++ l2) as Hxout.
  { unfold l in Hnd. rewrite app_comm_cons in Hnd.
    apply NoDup_app in Hnd as (_ & Hd & Hnd2). apply NoDup_cons in Hnd2 as [Hx2 _].
    rewrite app_comm_cons. intros Hin. apply elem_of_app in Hin as [Hin|Hin]; [|done].
    apply (Hd x Hin). left. }
  assert (x ∈ s :: l) as Hx by (right; apply elem_of_app; right; left).
  destruct (counted_at h _ x Hcnt Hx) as (nx & Hnx & Hcx).
  destruct (active_inv h x fx Hact) as (nx' & Hnx' & Hex & Hcbx).
  assert (nx' = nx) as -> by congruence. clear Hnx'.
  set (t1 := visits h (s :: l1)). set (t2 := visits h l2).
  set (c1 := fed val C args (construct C junk) t1).
  set (c2 := fst (collect C c1 (val fx args))).
  set (nh := with_refCount (_refCount nx + 1) nx).
  assert (held h x !! x = Some nh) as Hhx
    by (unfold held; by rewrite lookup_alter_eq, Hnx).
  (* the store during the nested emission *)
  set (hoff := <[x := with_enabled false nh]> (held h x)).
  assert (cycle hoff (s :: l)) as Hcycoff.
  { eapply cycle_same_links; [|exact (cycle_held h x _ Hcyc)]. intros a n Ha Hn. unfold hoff.
    destruct (decide (x = a)) as [->|Hne].
    - rewrite lookup_insert_eq. rewrite Hhx in Hn. injection Hn as <-. by eexists.
    - rewrite lookup_insert_ne by done. by exists n. }
  assert (∀ a, a ≠ x → payload <$> hoff !! a = payload <$> h !! a) as Hpayd.
  { intros a Ha. unfold hoff, held. by rewrite lookup_insert_ne, lookup_alter_ne. }
  assert (counted hoff (s :: l)) as Hcntd.
  { unfold counted in *. rewrite Forall_forall in Hcnt |- *. intros a Ha.
    destruct (decide (a = x)) as [->|Hne].
    - unfold hoff. rewrite lookup_insert_eq. simpl.
      rewrite Forall_forall in Hrl. specialize (Hrl x). unfold refs in Hrl.
      rewrite Hnx in Hrl. simpl in Hrl.
      assert (Some (_refCount nx) = Some 1%Z) as [= ->]; [|lia].
      apply Hrl. unfold l. apply elem_of_app. right. left.
    - specialize (Hcnt a Ha). specialize (Hpayd a Hne).
      destruct (hoff !! a) as [n'|], (h !! a) as [n|]; simpl in *; try done.
      unfold payload in Hpayd. by injection Hpayd as _ _ ->. }
  assert (active hoff x = None) as Hoff.
  { unfold active, hoff. by rewrite lookup_insert_eq. }
  assert (visits hoff (s :: l) = t1 ++ t2) as Hvd.
  { unfold l. rewrite app_comm_cons, visits_app, (visits_cons_inactive hoff x) by done.
    unfold t1, t2. f_equal; apply visits_same_payload; intros a Ha; apply Hpayd; intros ->;
      apply Hxout.
    - rewrite app_comm_cons. apply elem_of_app. by left.
    - right. apply elem_of_app. by right. }
  unfold l in Hfuel. rewrite length_app in Hfuel. simpl in Hfuel.
  set (F := fuel - length l1 - 2).
  replace fuel with (S (length l1 + S F)) at 1 by (unfold F; lia).
  rewrite (emit_reaches val C call h k bits tr s l1 x l2 junk args (S F) Hcyc Hcnt Hgo).
  2:{ intros a f Ha Hf w'. apply (Hpure a f); [|done]. rewrite elem_of_cons in Ha.
      rewrite elem_of_cons, elem_of_app. tauto. }
  fold t1 c1.
  rewrite (bind_Done _ _ _ (s, fed val C args c2 t2)
             (mkState (held h s) k bits (Some s) (tr ++ t1 ++ [(x, fx)] ++ (t1 ++ t2) ++ t2))).
  { simpl fst. simpl snd.
    destruct (counted_at h _ s Hcnt) as (ns & Hs & Hcs); [left|].
    erewrite bind_Done by (by eapply release_held).
    unfold ret. do 3 f_equal. unfold c2, c1, t1, t2, fed.
    rewrite !foldl_app. simpl. done. }
  rewrite emit_loop_unfold. erewrite bind_Done by (by apply load_at).
  simpl _enabled. simpl _callbackFunc. rewrite Hex, Hcbx.
  rewrite (bind_Done _ _ _ (collect C c1 (val fx args))
             (mkState (held h x) k bits (Some s) (tr ++ t1 ++ [(x, fx)] ++ t1 ++ t2))).
  2:{ unfold note, invoke. unfold bind at 1. simpl. unfold with_invoked. simpl.
      unfold bind at 1. rewrite Hfx. rewrite <- app_assoc.
      unfold disable, enable.
      rewrite (bind_Done _ _ _ _ _ (setEnabled_at _ _ _ _ _ x nh false Hhx)). fold hoff.
      rewrite (bind_Done _ _ _ _ _
                 (emit_whole hoff k bits s l _ call' junk args fuel Hcycoff Hcntd
                    ltac:(unfold l; rewrite length_app; simpl; lia) Hgo
                    ltac:(intros a f Ha Hf w';
                          destruct (decide (a = x)) as [->|Hne]; [congruence|];
                          apply (Hpure a f);
                          [unfold l in Ha;
                           rewrite elem_of_cons, elem_of_app, elem_of_cons in Ha;
                           rewrite elem_of_cons, elem_of_app; tauto
                          |rewrite <- Hf; symmetry; by apply active_same_payload, Hpayd]))).
      rewrite Hvd.
      erewrite bind_Done by (apply setEnabled_at; unfold hoff; apply lookup_insert_eq).
      unfold ret. do 3 f_equal.
      - unfold hoff. rewrite insert_insert_eq. apply insert_id. rewrite Hhx. f_equal.
        destruct nx. simpl in *. by subst.
      - by rewrite <- !app_assoc. }
  rewrite (surjective_pairing (collect C c1 (val fx args))). rewrite Hgo. fold c2.
  cbn [negb].
  rewrite (emit_advance C call h k bits s l args Hcyc Hcnt (s :: l1) x l2) by done.
  assert (cycle h (s :: (l1 ++ [x]) ++ l2)) as Hcyc'' by (by rewrite <- app_assoc).
  assert (counted h (s :: (l1 ++ [x]) ++ l2)) as Hcnt'' by (by rewrite <- app_assoc).
  rewrite (emit_rest val C call h k bits s (l1 ++ [x]) l2 args c2 _ F Hcyc'' Hcnt'' Hgo).
  - fold t2. by rewrite <- !app_assoc.
  - intros a f Ha Hf w'. apply (Hpure a f); [|done]. right. apply elem_of_app. by right.
  - unfold F. lia.
Qed.

(** X22: [emit] may be called from a callback of the same signal.  On a
    signal at rest, under a collector that never stops, when the active
    callback [fx] of the connected node [x] disables its own connection,
    emits the signal again, enables the connection again and returns, while
    the other callbacks leave the signal alone, the outer [emit] completes
    and leaves the store, the ring and every reference count exactly as it
    found them.  The nested pass invokes every other active callback once,
    in ring order, while the outer pass stands on [x]; the outer pass
    invokes every active callback once, in ring order. *)
Theorem emit_may_be_nested w s l1 x l2 fx call call' junk args fuel :
  at_rest w s (l1 ++ x :: l2) →
  length (l1 ++ x :: l2) < fuel →
  (∀ st r, snd (collect C st r) = true) →
  active (store w) x = Some fx →
  (∀ w', call fx args w'
         = (disable (mkRef (Some x)) ;; emit call' C fuel junk args ;;
            enable (mkRef (Some x)) ;; ret (val fx args)) w') →
  (∀ a f, a ∈ s :: l1 ++ l2 → active (store w) a = Some f →
          ∀ w', call f args w' = Done (val f args, w') ∧
                call' f args w' = Done (val f args, w')) →
  emit call C fuel junk args w
  = Done (result C (fed val C args (construct C junk)
                      (visits (store w) (s :: l1) ++ [(x, fx)] ++ visits (store w) l2)),
          with_invoked (invoked w ++ visits (store w) (s :: l1) ++ [(x, fx)] ++
                        (visits (store w) (s :: l1) ++ visits (store w) l2) ++
                        visits (store w) l2) w).
Proof. apply emit_recursive. Qed.

End Recursion.

(** X22 on the ring of three, where the second callback emits the signal
    again. *)
Lemma emit_may_be_nested_witness :
  emit (reemitting_call own_number (CollectorVector Z) 20 2 4 tt 2) (CollectorVector Z)
    4 tt tt ring3
  = Done ([10; 20; 30]%Z,
          with_invoked [(1, 10); (2, 20); (1, 10); (3, 30); (3, 30)] ring3).
Proof.
  apply (emit_may_be_nested own_number (CollectorVector Z) ring3 0 [1] 2 [3] 20
           (reemitting_call own_number (CollectorVector Z) 20 2 4 tt 2)
           (reemitting_call own_number (CollectorVector Z) 20 2 4 tt 1) tt tt 4).
  - by apply (bool_decide_unpack _).
  - simpl. lia.
  - done.
  - reflexivity.
  - intros w'. reflexivity.
  - intros a f Ha Hf w'. simpl in Ha. rewrite !elem_of_cons in Ha.
    destruct Ha as [->|[->|[->|Ha]]]; [| | |by apply elem_of_nil in Ha];
      vm_compute in Hf; try discriminate; injection Hf as <-; split; reflexivity.
Defined.

(** ** Signals of callbacks without a result *)

Section Void.

Context {Callback Args : Type}.

Variable val : Callback → Args → unit.

Implicit Types (l : list addr) (w : State Callback).

(** X23: a signal whose callbacks return nothing, under its default
    collector: [emit] on a signal at rest invokes every active callback
    once, in ring order, and leaves the store as it found it. *)
Theorem emit_void_invokes_all w s l args fuel :
  at_rest w s l → length l < fuel →
  emit (pure_call val) CollectorDefault_void fuel tt args w
  = Done (tt, with_invoked (invoked w ++ visits (store w) (s :: l)) w).
Proof.
  intros Hrest Hfuel. rewrite (emit_cut val CollectorDefault_void w s l) by done.
  by rewrite cut_nonstop.
Qed.

End Void.

(** X23 on the ring of three. *)
Lemma emit_void_invokes_all_witness :
  emit (pure_call (λ (_ : nat) (_ : unit), tt)) CollectorDefault_void 4 tt tt ring3
  = Done (tt, with_invoked [(1, 10); (2, 20); (3, 30)] ring3).
Proof.
  apply (emit_void_invokes_all (λ _ _, tt) ring3 0 [1; 2; 3] tt 4).
  - by apply (bool_decide_unpack _).
  - simpl. lia.
Defined.

(** * Clients that use the signal from inside its emissions *)

(** ** Re-entrant use *)

Section HoareFacts.

Context {Callback : Type}.

Local Abbreviation Link := (SignalLink Callback).
Local Abbreviation Run := (M Callback).

Implicit Types (w : State Callback) (E : Prop).

Lemma hoare_ret {A} (P : State Callback → Prop) (a : A) (Q : A → State Callback → Prop) E :
  (∀ w, P w → Q a w) → hoare P (ret a) Q E.
Proof. intros HQ w HP. by apply HQ. Qed.

Lemma hoare_bind {A B} (P : State Callback → Prop) (m : Run A) (k : A → Run B)
    (Q : A → State Callback → Prop) (Q' : B → State Callback → Prop) E :
  hoare P m Q E → (∀ a, hoare (Q a) (k a) Q' E) → hoare P (bind m k) Q' E.
Proof.
  intros Hm Hk w HP. specialize (Hm w HP). unfold bind.
  destruct (m w) as [[a w']| | |]; try done. by apply Hk.
Qed.

Lemma hoare_conseq {A} (P P' : State Callback → Prop) (m : Run A)
    (Q Q' : A → State Callback → Prop) (E E' : Prop) :
  (∀ w, P' w → P w) → (∀ a w, Q a w → Q' a w) → (E → E') →
  hoare P m Q E → hoare P' m Q' E'.
Proof.
  intros HP HQ HE Hm w Hw. specialize (Hm w (HP w Hw)).
  destruct (m w) as [[a w']| | |]; try done; auto.
Qed.

Lemma hoare_pre {A} (P P' : State Callback → Prop) (m : Run A)
    (Q : A → State Callback → Prop) E :
  (∀ w, P' w → P w) → hoare P m Q E → hoare P' m Q E.
Proof. intros HP. by apply hoare_conseq. Qed.

Lemma hoare_undefined {A} (P : State Callback → Prop) (Q : A → State Callback → Prop) E :
  hoare P undefined Q E.
Proof. by intros w HP. Qed.

Lemma hoare_diverge {A} (P : State Callback → Prop) (Q : A → State Callback → Prop) E :
  hoare P diverge Q E.
Proof. by intros w HP. Qed.

Lemma hoare_load (P : State Callback → Prop) a E :
  hoare P (load a) (λ n w, P w ∧ store w !! a = Some n) E.
Proof. intros w HP. unfold load. by destruct (store w !! a) eqn:Ha. Qed.

Lemma hoare_deref (P : State Callback → Prop) (p : option addr) E :
  hoare P (deref p) (λ a w, P w ∧ p = Some a) E.
Proof. intros w HP. by destruct p. Qed.

Lemma hoare_update (P Q : State Callback → Prop) a (f : Link → Link) E :
  (∀ w n, P w → store w !! a = Some n → Q (with_store (<[a := f n]> (store w)) w)) →
  hoare P (update a f) (λ _, Q) E.
Proof.
  intros HQ w HP. unfold update, bind, load, put.
  destruct (store w !! a) as [n|] eqn:Ha; [|done]. by apply HQ.
Qed.

Lemma hoare_get_callbackRing (P : State Callback → Prop) E :
  hoare P get_callbackRing (λ r w, P w ∧ _callbackRing w = r) E.
Proof. by intros w HP. Qed.

End HoareFacts.

Section GuardFacts.

Context {Callback : Type}.

Variable method : option Callback.
Variable s : addr.

Local Abbreviation Link := (SignalLink Callback).
Local Abbreviation Run := (M Callback).
Local Abbreviation guarded := (guarded method s).
Local Abbreviation kept := (kept method s).

Implicit Types (w : State Callback) (E : Prop) (fs : list addr).

Lemma standing_cons a b fs :
  standing a (b :: fs) = ((if decide (b = a) then 1 else 0) + standing a fs)%Z.
Proof.
  unfold standing. rewrite filter_cons. destruct (decide (b = a)); simpl; lia.
Qed.

Lemma standing_here a fs : standing a (a :: fs) = (1 + standing a fs)%Z.
Proof. rewrite standing_cons. by rewrite decide_True. Qed.

Lemma standing_other a b fs : b ≠ a → standing b (a :: fs) = standing b fs.
Proof. intros Hne. rewrite standing_cons. rewrite decide_False by done. lia. Qed.

Lemma standing_bounds a fs : (0 ≤ standing a fs ≤ Z.of_nat (length fs))%Z.
Proof.
  unfold standing. pose proof (length_filter (λ b, b = a) fs). lia.
Qed.

Lemma kept_cons a fs w : kept (a :: fs) w → guarded (a :: fs) w.
Proof. by intros [?|[? _]]. Qed.

(** Writing a node: what a new content must satisfy. *)
Lemma guarded_insert fs fs' w a (n' : Link) :
  guarded fs w →
  (1 ≤ _refCount n' ≤ 2147483647)%Z →
  (_refCount n' ≤ (if decide (a = s) then 2 else 1) + standing a fs')%Z →
  (a = s → _callbackFunc n' = method ∧ _refCount n' = (2 + standing s fs')%Z) →
  (∀ b, b ≠ a → standing b fs' = standing b fs) →
  guarded fs' (with_store (<[a := n']> (store w)) w).
Proof.
  intros (Hring & Hlog & Hall & ns & Hs & Hcb & Hrc) Hrange Hup Hsent Hoth.
  split_and!; simpl; [done|done| |].
  - intros b n Hb. destruct (decide (b = a)) as [->|Hne].
    + rewrite lookup_insert_eq in Hb. by injection Hb as <-.
    + rewrite lookup_insert_ne in Hb by done. rewrite Hoth by done. by apply Hall.
  - destruct (decide (s = a)) as [<-|Hne].
    + exists n'. rewrite lookup_insert_eq. destruct Hsent as [? ?]; done.
    + exists ns. rewrite lookup_insert_ne by done. rewrite Hoth by done. done.
Qed.

(** Writing a member other than the count, and not the callback of the
    sentinel. *)
Lemma guarded_update fs a (f : Link → Link) E :
  (∀ n, _refCount (f n) = _refCount n) →
  (a = s → ∀ n, _callbackFunc (f n) = _callbackFunc n) →
  hoare (guarded fs) (update a f) (λ _, guarded fs) E.
Proof.
  intros Hrc Hcb. apply hoare_update. intros w n HK Hn.
  pose proof HK as (_ & _ & Hall & ns & Hs & Hcbs & Hrcs).
  destruct (Hall a n Hn) as [Hrange Hup].
  apply (guarded_insert fs fs w a (f n) HK); rewrite ?Hrc; try done.
  intros ->. rewrite Hcb by done. assert (ns = n) as -> by congruence. done.
Qed.

Lemma guarded_delete fs fs' w a :
  guarded fs w → a ≠ s → (∀ b, b ≠ a → standing b fs' = standing b fs) →
  guarded fs' (with_store (delete a (store w)) w).
Proof.
  intros (Hring & Hlog & Hall & ns & Hs & Hcb & Hrc) Has Hoth.
  split_and!; simpl; [done|done| |].
  - intros b n Hb. destruct (decide (b = a)) as [->|Hne].
    + by rewrite lookup_delete_eq in Hb.
    + rewrite lookup_delete_ne in Hb by done. rewrite Hoth by done. by apply Hall.
  - exists ns. rewrite lookup_delete_ne by done. rewrite Hoth by done. done.
Qed.

Lemma guarded_log fs w t :
  guarded fs w → (∀ f, (s, f) ∈ t → method = Some f) →
  guarded fs (with_invoked (invoked w ++ t) w).
Proof.
  intros (Hring & Hlog & Hall & Hsent) Ht. split_and!; simpl; try done.
  intros f Hin. apply elem_of_app in Hin as [Hin|Hin]; [by apply Hlog|by apply Ht].
Qed.

(** [incref]: one more emission stands on the node; the assertion fires
    only on a count that cannot be raised. *)
Lemma incref_guarded fs a :
  hoare (guarded fs) (incref a) (λ _, guarded (a :: fs))
    (2147483645 ≤ Z.of_nat (length fs))%Z.
Proof.
  intros w HK. unfold incref, update, bind, load, put, assert.
  destruct (store w !! a) as [n|] eqn:Ha; [|done]. simpl.
  rewrite lookup_insert_eq. simpl.
  pose proof HK as (_ & _ & Hall & ns & Hs & Hcbs & Hrcs).
  destruct (Hall a n Ha) as [Hrange Hup].
  pose proof (standing_bounds a fs) as Hst.
  destruct (decide (_refCount n = 2147483647%Z)) as [Hmax|Hmax].
  - rewrite Hmax. change (int_wrap (2147483647 + 1)) with (-2147483648)%Z. simpl.
    destruct (decide (a = s)); lia.
  - rewrite int_wrap_id by lia.
    destruct (0 <? _refCount n + 1)%Z eqn:Hpos; [|lia].
    apply (guarded_insert fs (a :: fs) w a _ HK); simpl.
    + lia.
    + rewrite standing_here. lia.
    + intros ->. assert (ns = n) as -> by congruence.
      rewrite standing_here. split; [done|lia].
    + intros b Hb. by rewrite standing_other.
Qed.

(** [decref], by an emission that leaves the node or for a node other
    than the sentinel that leaves the ring: no assertion fires. *)
Lemma decref_guarded fs fs' a E :
  (a = s → standing s fs' = (standing s fs - 1)%Z) →
  (standing a fs - 1 ≤ standing a fs')%Z →
  (∀ b, b ≠ a → standing b fs' = standing b fs) →
  hoare (guarded fs) (decref a) (λ _, guarded fs') E.
Proof.
  intros Hsent Hlow Hoth w HK.
  unfold decref, update, bind, load, put.
  destruct (store w !! a) as [n|] eqn:Ha; [|done]. simpl.
  rewrite lookup_insert_eq. simpl.
  pose proof HK as (_ & _ & Hall & ns & Hs & Hcbs & Hrcs).
  destruct (Hall a n Ha) as [Hrange Hup].
  pose proof (standing_bounds s fs') as Hst.
  rewrite int_wrap_id by lia.
  assert (a = s → (3 ≤ _refCount n)%Z) as Hthree.
  { intros ->. assert (ns = n) as -> by congruence. specialize (Hsent eq_refl). lia. }
  destruct (_refCount n - 1 =? 0)%Z eqn:Hzero.
  - assert (a ≠ s) as Has by (intros Heq; specialize (Hthree Heq); lia).
    unfold delete_SignalLink, bind, load, assert. simpl.
    rewrite lookup_insert_eq. simpl. rewrite Hzero.
    unfold with_store. simpl. rewrite delete_insert_eq.
    by apply (guarded_delete fs fs' w a HK).
  - unfold assert. destruct (0 <? _refCount n - 1)%Z eqn:Hpos; [|lia].
    apply (guarded_insert fs fs' w a _ HK); simpl.
    + lia.
    + lia.
    + intros ->. assert (ns = n) as -> by congruence. specialize (Hsent eq_refl).
      split; [done|lia].
    + done.
Qed.

(** [unlink] of a node other than the sentinel. *)
Lemma unlink_guarded fs a E :
  a ≠ s → hoare (guarded fs) (unlink a) (λ _, guarded fs) E.
Proof.
  intros Has. unfold unlink.
  eapply hoare_bind; [by apply guarded_update|]. intros [].
  eapply hoare_bind; [apply hoare_load|]. intros n.
  eapply hoare_bind.
  { apply (hoare_pre (guarded fs)); [by intros w [? _]|].
    destruct (_next n) as [nx|]; [by apply guarded_update|by apply hoare_ret]. }
  intros [].
  eapply hoare_bind; [apply hoare_load|]. intros n'.
  eapply hoare_bind.
  { apply (hoare_pre (guarded fs)); [by intros w [? _]|].
    destruct (_prev n') as [pv|]; [by apply guarded_update|by apply hoare_ret]. }
  intros []. apply decref_guarded; [done|lia|done].
Qed.

Lemma removeSibling_from_guarded fs fuel this id E :
  id ≠ Some s →
  ∀ link, hoare (guarded fs) (removeSibling_from fuel this id link) (λ _, guarded fs) E.
Proof.
  intros Hid. induction fuel as [|fuel IH]; intros link; simpl; [apply hoare_diverge|].
  destruct (decide (link = Some this)) as [Hthis|Hthis]; [by apply hoare_ret|].
  destruct (decide (id = link)) as [->|Hne].
  - eapply hoare_bind; [apply hoare_deref|]. intros a.
    apply (hoare_pre (λ w, guarded fs w ∧ a ≠ s)).
    { intros w [HK ->]. split; [done|]. by intros ->. }
    intros w [HK Has]. revert w HK.
    change (hoare (guarded fs) (unlink a ;; ret true) (λ _, guarded fs) E).
    eapply hoare_bind; [by apply unlink_guarded|]. intros []. by apply hoare_ret.
  - eapply hoare_bind; [apply hoare_deref|]. intros a.
    eapply hoare_bind; [apply hoare_load|]. intros n.
    eapply hoare_pre; [|apply (IH (_next n))].
    by intros w [[? _] _].
Qed.

Lemma removeSibling_guarded fs fuel this id E :
  id ≠ Some s → hoare (guarded fs) (removeSibling fuel this id) (λ _, guarded fs) E.
Proof.
  intros Hid. unfold removeSibling.
  eapply hoare_bind; [apply hoare_load|]. intros n.
  eapply hoare_pre; [|by apply (removeSibling_from_guarded fs fuel this id E)].
  by intros w [? _].
Qed.

Lemma remove_guarded fs fuel a E :
  a ≠ s → hoare (guarded fs) (remove fuel a) (λ _, guarded fs) E.
Proof.
  intros Has. unfold remove.
  eapply hoare_bind; [apply hoare_load|]. intros n.
  apply (hoare_pre (guarded fs)); [by intros w [? _]|].
  destruct (_next n) as [nx|]; [|by apply hoare_ret].
  apply removeSibling_guarded. by intros [= ->].
Qed.

(** [disconnect] through a handle, which does not point to the sentinel. *)
Lemma disconnect_guarded fs fuel (ref : ConnectionRef) E :
  _link ref ≠ Some s →
  hoare (guarded fs) (disconnect fuel ref) (λ _, guarded fs) E.
Proof.
  intros Href. unfold disconnect, ConnectionRef_disconnect.
  destruct (_link ref) as [a|]; [|by apply hoare_ret].
  eapply hoare_bind; [apply remove_guarded; by intros ->|].
  intros b. by apply hoare_ret.
Qed.

Lemma setEnabled_guarded fs (ref : ConnectionRef) flag E :
  hoare (guarded fs) (setEnabled ref flag) (λ _, guarded fs) E.
Proof.
  unfold setEnabled, link_setEnabled.
  eapply hoare_bind; [apply hoare_deref|]. intros a.
  apply (hoare_pre (guarded fs)); [by intros w [? _]|].
  by apply guarded_update.
Qed.

Lemma isEnabled_guarded fs (ref : ConnectionRef) E :
  hoare (guarded fs) (isEnabled ref) (λ _, guarded fs) E.
Proof.
  unfold isEnabled, link_isEnabled.
  eapply hoare_bind; [apply hoare_deref|]. intros a.
  eapply hoare_bind; [apply hoare_load|]. intros n.
  apply hoare_ret. by intros w [[? _] _].
Qed.

(** A new node is not the sentinel, which is live. *)
Lemma new_SignalLink_guarded fs (cb : option Callback) E :
  hoare (guarded fs) (new_SignalLink cb) (λ a w, guarded fs w ∧ a ≠ s) E.
Proof.
  intros w HK. unfold new_SignalLink. simpl.
  pose proof HK as (Hring & Hlog & Hall & ns & Hs & Hcbs & Hrcs).
  set (a := fresh (dom (store w))).
  assert (store w !! a = None) as Hfresh by (apply not_elem_of_dom, is_fresh).
  assert (a ≠ s) as Has by (intros Heq; rewrite Heq in Hfresh; congruence).
  split; [|done].
  pose proof (standing_bounds a fs) as Hst.
  split_and!; simpl; [done|done| |].
  - intros b n Hb. destruct (decide (b = a)) as [->|Hne].
    + rewrite lookup_insert_eq in Hb. injection Hb as <-. simpl.
      rewrite decide_False by done. lia.
    + rewrite lookup_insert_ne in Hb by done. by apply Hall.
  - exists ns. by rewrite lookup_insert_ne.
Qed.

Lemma addBefore_guarded fs (cb : option Callback) E :
  hoare (guarded fs) (addBefore s cb) (λ a w, guarded fs w ∧ a ≠ s) E.
Proof.
  unfold addBefore.
  eapply hoare_bind; [apply new_SignalLink_guarded|]. intros a.
  intros w [HK Has]. revert w HK.
  change (hoare (guarded fs)
            (n <- load s ;; update a (with_prev (_prev n)) ;;
             update a (with_next (Some s)) ;;
             n <- load s ;; last <- deref (_prev n) ;;
             update last (with_next (Some a)) ;;
             update s (with_prev (Some a)) ;; ret a)
            (λ a w, guarded fs w ∧ a ≠ s) E).
  eapply hoare_bind; [apply hoare_load|]. intros n.
  eapply hoare_bind.
  { eapply hoare_pre; [|by apply (guarded_update fs a (with_prev (_prev n)) E)].
    by intros w [? _]. }
  intros [].
  eapply hoare_bind; [by apply guarded_update|]. intros [].
  eapply hoare_bind; [apply hoare_load|]. intros n'.
  eapply hoare_bind; [apply hoare_deref|]. intros last.
  eapply hoare_bind.
  { eapply hoare_pre; [|by apply (guarded_update fs last (with_next (Some a)) E)].
    by intros w [[? _] _]. }
  intros [].
  eapply hoare_bind; [by apply guarded_update|]. intros [].
  by apply hoare_ret.
Qed.

End GuardFacts.

Section ReentrantSafety.

Context {Callback Args R : Type}.

Variable C : Collector R.
Variable method : option Callback.
Variable s : addr.

Local Abbreviation Link := (SignalLink Callback).
Local Abbreviation Run := (M Callback).
Local Abbreviation guarded := (guarded method s).
Local Abbreviation kept := (kept method s).

Implicit Types (w : State Callback) (E : Prop) (fs : list addr).

(** [ensureRing] makes the ring, if it is not made yet. *)
Lemma ensureRing_kept fs E : hoare (kept fs) ensureRing (λ _, guarded fs) E.
Proof.
  intros w [HK|[-> (Hring & Hstore & Hlog & Hm & Hs)]].
  - destruct w as [h k bits ring tr]. pose proof HK as (Hring & _). simpl in Hring.
    subst ring. by rewrite ensureRing_there.
  - destruct w as [h k bits ring tr]. simpl in *. subst ring h tr method.
    rewrite ensureRing_fresh. rewrite <- Hs.
    split_and!; simpl.
    + done.
    + intros f Hin. by apply elem_of_nil in Hin.
    + intros b nb Hb. apply lookup_insert_Some in Hb as [[<- <-]|[_ Hb]]; [|done].
      simpl. rewrite decide_True by done. unfold standing. simpl. lia.
    + eexists. rewrite lookup_insert_eq. split; [done|]. done.
Qed.

(** [connect], from outside or from inside of an emission: the handle it
    returns does not point to the sentinel. *)
Lemma connect_kept fs (cb : option Callback) E :
  hoare (kept fs) (connect cb)
    (λ ref w, guarded fs w ∧ ∃ a, ref = mkRef (Some a) ∧ a ≠ s) E.
Proof.
  unfold connect.
  eapply hoare_bind; [apply ensureRing_kept|]. intros [].
  eapply hoare_bind; [apply hoare_get_callbackRing|]. intros ring.
  eapply hoare_bind; [apply hoare_deref|]. intros a.
  apply (hoare_pre (λ w, guarded fs w ∧ a = s)).
  { intros w [[HK Hring] ->]. split; [done|]. destruct HK as (Hr & _). congruence. }
  intros w [HK ->]. revert w HK.
  change (hoare (guarded fs) (link <- addBefore s cb ;; ConnectionRef_ctor (Some link))
            (λ ref w, guarded fs w ∧ ∃ a, ref = mkRef (Some a) ∧ a ≠ s) E).
  eapply hoare_bind; [apply addBefore_guarded|]. intros link.
  intros w [HK Hlink]. unfold ConnectionRef_ctor. simpl. split; [done|]. by exists link.
Qed.

Lemma unmade_faults w a : unmade method s w → load a w = Undefined.
Proof. intros (_ & Hstore & _). unfold load. by rewrite Hstore, lookup_empty. Qed.

(** [disconnect], from outside or from inside of an emission. *)
Lemma disconnect_kept fs fuel (ref : ConnectionRef) E :
  _link ref ≠ Some s → hoare (kept fs) (disconnect fuel ref) (λ _, kept fs) E.
Proof.
  intros Href w [HK|[-> Hun]].
  - pose proof (disconnect_guarded method s fs fuel ref E Href w HK) as Hd.
    destruct (disconnect fuel ref w) as [[b w']| | |]; try done. by left.
  - unfold disconnect, ConnectionRef_disconnect.
    destruct (_link ref) as [a|]; [|by right].
    unfold remove, bind. by rewrite (unmade_faults w a).
Qed.

Lemma setEnabled_kept fs (ref : ConnectionRef) flag E :
  hoare (kept fs) (setEnabled ref flag) (λ _, kept fs) E.
Proof.
  intros w [HK|[-> Hun]].
  - pose proof (setEnabled_guarded method s fs ref flag E w HK) as Hd.
    destruct (setEnabled ref flag w) as [[b w']| | |]; try done. by left.
  - unfold setEnabled, link_setEnabled, update.
    destruct (_link ref) as [a|]; [|done].
    unfold deref, ret, bind. by rewrite (unmade_faults w a).
Qed.

Lemma isEnabled_kept fs (ref : ConnectionRef) E :
  hoare (kept fs) (isEnabled ref) (λ _, kept fs) E.
Proof.
  intros w [HK|[-> Hun]].
  - pose proof (isEnabled_guarded method s fs ref E w HK) as Hd.
    destruct (isEnabled ref w) as [[b w']| | |]; try done. by left.
  - unfold isEnabled, link_isEnabled.
    destruct (_link ref) as [a|]; [|done].
    unfold deref, ret, bind. by rewrite (unmade_faults w a).
Qed.

(** The loop of [emit], for callbacks that keep what holds of the signal
    inside the emission. *)
Lemma emit_loop_guarded fs (call : Callback → Args → Run R) args E :
  (∀ f link, hoare (kept (link :: fs)) (call f args) (λ _, kept (link :: fs)) E) →
  ((2147483645 ≤ Z.of_nat (length (s :: fs)))%Z → E) →
  ∀ fuel link col,
    hoare (guarded (link :: fs)) (emit_loop call C fuel args link col)
      (λ e w, guarded (fst e :: fs) w) E.
Proof.
  intros Hcall Hdeep.
  induction fuel as [|fuel IH]; intros link col; [apply hoare_diverge|].
  rewrite emit_loop_unfold.
  eapply hoare_bind; [apply hoare_load|]. intros n.
  eapply (hoare_bind _ _ _ (λ _ w, guarded (link :: fs) w)).
  { destruct (_enabled n); [destruct (_callbackFunc n) as [f|] eqn:Hf|].
    - eapply (hoare_bind _ _ _ (λ _ w, guarded (link :: fs) w)).
      + intros w [HK Hn]. unfold note.
        apply guarded_log; [done|]. intros g Hin.
        apply list_elem_of_singleton in Hin as [= -> ->].
        destruct HK as (_ & _ & _ & ns & Hs & Hcb & _).
        assert (ns = n) as -> by congruence. congruence.
      + intros []. unfold invoke.
        eapply hoare_bind.
        * eapply hoare_pre; [|apply (Hcall f link)]. intros w HK. by left.
        * intros r. apply hoare_ret. intros w HK. by apply kept_cons in HK.
    - apply hoare_ret. by intros w [? _].
    - apply hoare_ret. by intros w [? _]. }
  intros [col' go]. destruct (negb go); [by apply hoare_ret|].
  eapply hoare_bind; [apply hoare_load|]. intros old.
  eapply hoare_bind; [apply hoare_deref|]. intros next.
  eapply (hoare_bind _ _ _ (λ _ w, guarded (next :: link :: fs) w)).
  { eapply hoare_conseq; [| | |apply (incref_guarded method s (link :: fs) next)].
    - by intros w [[? _] _].
    - done.
    - intros Hlen. apply Hdeep. simpl in *. lia. }
  intros [].
  eapply (hoare_bind _ _ _ (λ _ w, guarded (next :: fs) w)).
  { apply decref_guarded.
    - intros ->. rewrite !standing_cons. destruct (decide (next = s)); rewrite decide_True by done; lia.
    - rewrite !standing_cons. rewrite (decide_True (P := link = link)) by done. lia.
    - intros b Hb. rewrite !standing_cons. rewrite (decide_False (P := link = b)) by done. lia. }
  intros [].
  eapply hoare_bind; [apply hoare_get_callbackRing|]. intros ring.
  destruct (decide (Some next = ring)).
  - apply hoare_ret. by intros w [? _].
  - eapply hoare_pre; [|apply IH]. by intros w [? _].
Qed.

(** [emit], from outside or from inside of the emissions [fs]. *)
Lemma emit_kept fs (call : Callback → Args → Run R) fuel junk args E :
  (∀ f link, hoare (kept (link :: fs)) (call f args) (λ _, kept (link :: fs)) E) →
  ((2147483645 ≤ Z.of_nat (length (s :: fs)))%Z → E) →
  hoare (kept fs) (emit call C fuel junk args) (λ _, kept fs) E.
Proof.
  intros Hcall Hdeep w [HK|[-> Hun]].
  - assert (hoare (guarded fs) (emit call C fuel junk args) (λ _, guarded fs) E) as Hemit.
    { unfold emit.
      eapply hoare_bind; [apply hoare_get_callbackRing|]. intros ring.
      destruct ring as [a|]; [|apply hoare_ret; by intros ? [? _]].
      apply (hoare_pre (λ w, guarded fs w ∧ a = s)).
      { intros w' [HK' Hring]. split; [done|]. destruct HK' as (Hr & _). congruence. }
      intros w' [HK' ->]. revert w' HK'.
      change (hoare (guarded fs)
                (incref s ;; end_ <- emit_loop call C fuel args s (construct C junk) ;;
                 decref (fst end_) ;; ret (result C (snd end_)))
                (λ _, guarded fs) E).
      eapply hoare_bind.
      { eapply hoare_conseq; [| | |apply (incref_guarded method s fs s)]; [done|done|].
        intros Hlen. apply Hdeep. simpl. lia. }
      intros [].
      eapply hoare_bind; [by apply emit_loop_guarded|]. intros e.
      eapply hoare_bind.
      { apply (decref_guarded method s (fst e :: fs) fs).
        - intros ->. rewrite standing_here. lia.
        - rewrite standing_here. lia.
        - intros b Hb. by rewrite standing_other. }
      intros []. by apply hoare_ret. }
    specialize (Hemit w HK).
    destruct (emit call C fuel junk args w) as [[r w']| | |]; try done. by left.
  - destruct Hun as (Hring & Hrest).
    rewrite (emit_no_ring C call w junk args fuel Hring). by right.
Qed.

(** Every client keeps what holds of the signal, at every depth of
    nesting; an assertion fires only when the emissions are nested too
    deep for a reference count. *)
Lemma api_kept depth A (m : Run A) :
  api Args C s depth A m →
  ∀ fs, hoare (kept fs) m (λ _, kept fs)
          (2147483645 ≤ Z.of_nat (length fs + depth))%Z.
Proof.
  induction 1 as [depth A a|depth A B m k Hm IHm Hk IHk|depth B cb k Hk IHk
                  |depth fuel ref Href|depth ref flag|depth ref
                  |depth call body fuel junk args Hbody IHbody Hcall
                  |depth A m Hm IHm]; intros fs.
  - by apply hoare_ret.
  - eapply hoare_bind; [apply IHm|]. intros a. apply IHk.
  - eapply hoare_bind; [apply connect_kept|]. intros ref.
    intros w [HK (a & -> & Has)]. apply (IHk a Has fs w). by left.
  - by apply disconnect_kept.
  - apply setEnabled_kept.
  - apply isEnabled_kept.
  - apply emit_kept.
    + intros f link w HK. rewrite Hcall.
      pose proof (IHbody w f args (link :: fs) w HK) as Hb.
      destruct (body w f args w) as [[r w']| | |]; try done.
      simpl in Hb. lia.
    + simpl. lia.
  - eapply hoare_conseq; [| | |apply (IHm fs)]; [done|done|]. lia.
Qed.

End ReentrantSafety.

Section ReentrantSessions.

Context {Callback Args R : Type}.

Variable C : Collector R.

Local Abbreviation Link := (SignalLink Callback).
Local Abbreviation Run := (M Callback).

Implicit Types (w : State Callback) (E : Prop) (fs : list addr).

(** The constructor, in an empty store. *)
Lemma ctor_kept bits (method : option Callback) :
  ∃ w, ProtoSignal_ctor method (boot bits) = Done (tt, w) ∧
       kept method (fresh (dom (∅ : gmap addr Link))) [] w.
Proof.
  destruct method as [m|].
  - unfold ProtoSignal_ctor, boot.
    unfold set_callbackRing at 1. unfold bind at 1. unfold with_ring. simpl.
    rewrite (bind_Done _ _ _ _ _ (ensureRing_fresh _ _ _ _)).
    unfold get_callbackRing at 1. unfold bind at 1. simpl deref. unfold ret at 1.
    unfold bind at 1.
    erewrite update_at by apply lookup_insert_eq.
    rewrite insert_insert_eq. eexists. split; [done|]. left.
    split_and!; simpl.
    + done.
    + intros f Hin. by apply elem_of_nil in Hin.
    + intros b nb Hb. apply lookup_insert_Some in Hb as [[<- <-]|[_ Hb]]; [|done].
      simpl. rewrite decide_True by done. unfold standing. simpl. lia.
    + eexists. rewrite lookup_insert_eq. split; [done|]. done.
  - exists (boot bits). split; [done|]. right. done.
Qed.

(** The loop of the destructor unlinks nodes other than the sentinel. *)
Lemma unlink_all_guarded (method : option Callback) (s : addr) fuel E :
  hoare (guarded method s []) (unlink_all fuel s) (λ _, guarded method s []) E.
Proof.
  induction fuel as [|fuel IH]; simpl; [apply hoare_diverge|].
  eapply hoare_bind; [apply hoare_load|]. intros n.
  destruct (decide (_next n = Some s)) as [Hn|Hn]; [apply hoare_ret; by intros w [? _]|].
  eapply hoare_bind; [apply hoare_deref|]. intros nx.
  apply (hoare_pre (λ w, guarded method s [] w ∧ nx ≠ s)).
  { intros w [[HK _] Hnx]. split; [done|]. intros ->. done. }
  intros w [HK Hnx]. revert w HK.
  change (hoare (guarded method s []) (unlink nx ;; unlink_all fuel s)
            (λ _, guarded method s []) E).
  eapply hoare_bind; [by apply unlink_guarded|]. intros []. apply IH.
Qed.

(** The destructor, run from outside of any emission: no assertion
    fires. *)
Lemma dtor_kept (method : option Callback) (s : addr) fuel E :
  hoare (kept method s []) (ProtoSignal_dtor fuel) (λ _ _, True) E.
Proof.
  intros w [HK|[_ (Hring & _)]].
  - unfold ProtoSignal_dtor. unfold get_callbackRing at 1. unfold bind at 1.
    replace (_callbackRing w) with (Some s) by (symmetry; apply HK).
    pose proof (unlink_all_guarded method s fuel E w HK) as Hall.
    unfold bind at 1.
    destruct (unlink_all fuel s w) as [[[] [h k bits ring tr]]| | |]; try done.
    destruct Hall as (_ & _ & _ & ns & Hs & _ & Hrc). simpl in Hs.
    change (standing s []) with 0%Z in Hrc.
    erewrite bind_Done by (by apply load_at).
    unfold assert at 1. rewrite Hrc. simpl.
    unfold bind at 1.
    erewrite bind_Done by (apply decref_keep; [done|lia]).
    erewrite decref_last; [done|apply lookup_insert_eq|]. simpl. lia.
  - unfold ProtoSignal_dtor, get_callbackRing, bind. by rewrite Hring.
Qed.



Lemma reentrant_session_dtor bits (method : option Callback) depth A (p : Run A) fuel q :
  api Args C (fresh (dom (∅ : gmap addr Link))) depth A p →
  (ProtoSignal_ctor method ;; p ;; ProtoSignal_dtor fuel) (boot bits) = Abort q →
  (2147483645 ≤ Z.of_nat depth)%Z.
Proof.
  intros Hp Hrun.
  destruct (ctor_kept bits method) as (w & Hctor & HK).
  rewrite (bind_Done _ _ _ _ _ Hctor) in Hrun.
  pose proof (api_kept C method _ depth A p Hp [] w HK) as Hpw. simpl in Hpw.
  unfold bind in Hrun. destruct (p w) as [[a w']| | |]; try done.
  pose proof (dtor_kept method _ fuel (2147483645 ≤ Z.of_nat depth)%Z w' Hpw) as Hd.
  by rewrite Hrun in Hd.
Qed.

(** What [incref] does on a live node. *)
Lemma incref_abort_iff w a (n : Link) q :
  store w !! a = Some n →
  incref a w = Abort q ↔ q = refCount_positive_incref ∧ (int_wrap (_refCount n + 1) ≤ 0)%Z.
Proof.
  intros Ha. unfold incref, update, bind, load, put, assert. rewrite Ha. simpl.
  rewrite lookup_insert_eq. simpl.
  destruct (0 <? int_wrap (_refCount n + 1))%Z eqn:Hpos.
  - split; [done|]. intros [_ ?]. lia.
  - split; [intros [= <-]; split; [done|lia]|by intros [-> _]].
Qed.

End ReentrantSessions.

Lemma busy_client_api : api unit (CollectorVector nat) 0 1 (list nat) busy_client.
Proof.
  unfold busy_client. apply api_connect. intros a Ha.
  apply api_bind; [apply api_setEnabled|]. intros [].
  apply (api_emit (CollectorVector nat) 0 0 busy_callback (λ _, busy_callback)); [|done].
  intros _ f []. unfold busy_callback. destruct (decide (f = 10)); [|apply api_ret].
  apply api_connect. intros b Hb.
  apply api_bind; [by apply api_disconnect|]. intros r. apply api_ret.
Qed.

(** ** The sentinel and the assertions, for every client *)

Section EveryClient.

Context {Callback Args R : Type}.

Variable val : Callback → Args → R.
Variable C : Collector R.

Local Abbreviation Link := (SignalLink Callback).
Local Abbreviation Run := (M Callback).
Local Abbreviation Op := (@Op Callback Args R C).


(** C9, amended: [incref] aborts exactly when the reference count is not
    positive after the increment (it was negative, or the increment
    overflowed), [decref] exactly when the count is negative after the
    decrement; the destructor's assertion aborts exactly when the sentinel
    reports fewer than the two references held by the anchor, and passes
    when it reports two or more.  Under correct use no assertion fires: not
    in a session of a client that calls [connect], [disconnect],
    [setEnabled] and [emit] from outside of any emission and then destroys
    the signal; and not when callbacks call them as well, from inside the
    emissions, unless 2147483645 emissions or more are nested in one
    another, which is more than a reference count can hold. *)
Theorem assertions_fire_on_violations_only :
  (∀ (w : State Callback) a (n : Link) q,
     store w !! a = Some n →
     decref a w = Abort q
     ↔ q = refCount_positive_decref ∧ (int_wrap (_refCount n - 1) < 0)%Z) ∧
  (∀ (w : State Callback) a (n : Link) q,
     store w !! a = Some n →
     incref a w = Abort q
     ↔ q = refCount_positive_incref ∧ (int_wrap (_refCount n + 1) ≤ 0)%Z) ∧
  (∀ (h : gmap addr Link) k bits tr s l (ns : Link) fuel,
     cycle h (s :: l) → counted h l → length l < fuel →
     h !! s = Some ns → (_refCount ns ≤ 2147483647)%Z →
     (ProtoSignal_dtor fuel (mkState h k bits (Some s) tr) = Abort ring_refCount_ge_2
      ↔ (_refCount ns < 2)%Z) ∧
     ((2 ≤ _refCount ns)%Z →
      ∃ w', ProtoSignal_dtor fuel (mkState h k bits (Some s) tr) = Done (tt, w'))) ∧
  (∀ bits method (ops : list Op) fuel,
     length ops < fuel →
     ends (Exists is_SetEnabled ops) (λ _ _, True)
       ((session val C fuel method ops ;; ProtoSignal_dtor fuel) (boot bits))) ∧
  (∀ bits (method : option Callback) depth A (p : Run A) fuel q,
     api Args C (fresh (dom (∅ : gmap addr Link))) depth A p →
     (ProtoSignal_ctor method ;; p ;; ProtoSignal_dtor fuel) (boot bits) = Abort q →
     (2147483645 ≤ Z.of_nat depth)%Z).
Proof.
  split_and!.
  - apply decref_abort_iff.
  - apply incref_abort_iff.
  - apply dtor_abort_iff.
  - apply session_then_dtor.
  - intros bits method depth A p fuel q. apply reentrant_session_dtor.
Qed.

End EveryClient.


(** C9 on concrete signals: [decref] on a count of zero and [incref] on a
    count of minus one abort; the destructor on the ring of three
    completes; a session followed by the destruction of the signal
    completes; no assertion fires for a client whose callback connects
    another callback and disconnects its own node while it runs. *)
Lemma assertions_fire_on_violations_only_witness :
  decref 0 spent = Abort refCount_positive_decref ∧
  incref 0 indebted = Abort refCount_positive_incref ∧
  (∃ w', ProtoSignal_dtor 4 ring3 = Done (tt, w')) ∧
  ends (Exists is_SetEnabled connect_emit_disconnect_emit)
    (λ _ _, True)
    ((session own_name (CollectorVector nat) 5 None connect_emit_disconnect_emit ;;
      ProtoSignal_dtor 5) (boot (λ _, true))) ∧
  (∀ q, (ProtoSignal_ctor (Some 7) ;; busy_client ;; ProtoSignal_dtor 5) (boot (λ _, true))
        ≠ Abort q).
Proof.
  destruct (assertions_fire_on_violations_only own_name (CollectorVector nat))
    as (Hdecref & Hincref & Hdtor & Hsession & Hclient).
  split_and!.
  - apply (Hdecref spent 0 (mkLink true (Some 0) (Some 0) None 0)); [reflexivity|].
    split; [reflexivity|]. vm_compute. reflexivity.
  - apply (Hincref indebted 0 (mkLink true (Some 0) (Some 0) None (-1))); [reflexivity|].
    split; [reflexivity|]. vm_compute. discriminate.
  - apply (Hdtor (store ring3) 4 (λ _, true) [] 0 [1; 2; 3]
             (mkLink true (Some 1) (Some 3) None 2) 4).
    + by apply (bool_decide_unpack _).
    + by apply (bool_decide_unpack _).
    + simpl. lia.
    + reflexivity.
    + simpl. lia.
    + simpl. lia.
  - apply Hsession. simpl. lia.
  - intros q Hq.
    pose proof (Hclient (λ _, true) (Some 7) 1 _ busy_client 5 q busy_client_api Hq). lia.
Defined.

(** ** Enabling and disabling, with the results *)

Section Toggle.

Context {Callback Args R : Type}.

Variable val : Callback → Args → R.
Variable C : Collector R.

Local Abbreviation Link := (SignalLink Callback).

Implicit Types (h : gmap addr Link) (l : list addr) (w : State Callback).

Lemma cut_keeps args col (tr : list (addr * Callback)) x :
  (∀ g, (x, g) ∉ tr) → ∀ g, (x, g) ∉ cut val C args col tr.
Proof.
  intros Hno g Hin. apply (Hno g).
  destruct (cut_prefix val C args col tr) as [rest Heq].
  rewrite Heq. apply elem_of_app. by left.
Qed.

Lemma visits_at h links a f : (a, f) ∈ visits h links → a ∈ links ∧ active h a = Some f.
Proof.
  induction links as [|b links IH]; intros Hin.
  - by apply elem_of_nil in Hin.
  - destruct (active h b) as [g|] eqn:Hb.
    + rewrite (visits_cons_active h b g) in Hin by done.
      apply elem_of_cons in Hin as [[= -> ->]|Hin]; [split; [left|done]|].
      destruct (IH Hin). split; [by right|done].
    + rewrite visits_cons_inactive in Hin by done.
      destruct (IH Hin). split; [by right|done].
Qed.

(** C7: for a callback [f] connected at node [x] of a signal at rest,
    [setEnabled(false)] through its handle keeps the node in the ring, and
    from then on every emission passes over it: it invokes the active
    callbacks of the other nodes, in ring order, as far as the collector
    lets it, never the node [x], and returns the result of the collector
    fed with the results of those callbacks.  [setEnabled(true)] after that
    keeps the ring as well, and from then on every emission invokes [f] at
    its place in the ring order, between the callbacks of the nodes before
    [x] and those of the nodes after it, as far as the collector lets it,
    and feeds its result to the collector with the others: an emission that
    the collector does not stop invokes the node once, with [f]. *)
Theorem setEnabled_skips_then_restores w s l1 x l2 f fuel :
  at_rest w s (l1 ++ x :: l2) → _callbackFunc <$> store w !! x = Some (Some f) →
  length (l1 ++ x :: l2) < fuel →
  ∃ w1 w2,
    setEnabled (mkRef (Some x)) false w = Done (tt, w1) ∧
    at_rest w1 s (l1 ++ x :: l2) ∧
    (∀ w1' junk args, store w1' = store w1 → _callbackRing w1' = _callbackRing w1 →
       ∃ t, t = cut val C args (construct C junk)
                  (visits (store w) (s :: l1) ++ visits (store w) l2) ∧
            (∀ g, (x, g) ∉ t) ∧
            emit (pure_call val) C fuel junk args w1'
            = Done (result C (fed val C args (construct C junk) t),
                    with_invoked (invoked w1' ++ t) w1')) ∧
    setEnabled (mkRef (Some x)) true w1 = Done (tt, w2) ∧
    at_rest w2 s (l1 ++ x :: l2) ∧
    (∀ w2' junk args, store w2' = store w2 → _callbackRing w2' = _callbackRing w2 →
       ∃ t, t = cut val C args (construct C junk)
                  (visits (store w) (s :: l1) ++ [(x, f)] ++ visits (store w) l2) ∧
            ((∀ st r, snd (collect C st r) = true) →
             filter (λ p, p.1 = x) t = [(x, f)]) ∧
            emit (pure_call val) C fuel junk args w2'
            = Done (result C (fed val C args (construct C junk) t),
                    with_invoked (invoked w2' ++ t) w2')).
Proof.
  intros Hrest Hcb Hfuel.
  assert (x ∈ l1 ++ x :: l2) as Hx by (apply elem_of_app; right; left).
  assert (NoDup (s :: l1 ++ x :: l2)) as Hnd by apply Hrest.
  assert ((x ∉ s :: l1) ∧ (x ∉ l2)) as [Hx1 Hx2].
  { rewrite app_comm_cons in Hnd. apply NoDup_app in Hnd as (_ & Hd & Hnd2).
    apply NoDup_cons in Hnd2 as [Hx2 _]. split; [|done].
    intros Hin. apply (Hd x Hin). left. }
  destruct (setEnabled_at_rest w s _ x false Hrest Hx) as (nx & Hnx & Hset1 & Hrest1).
  set (w1 := with_store (<[x := with_enabled false nx]> (store w)) w) in *.
  destruct (setEnabled_at_rest w1 s _ x true Hrest1 Hx) as (nx1 & Hnx1 & Hset2 & Hrest2).
  set (w2 := with_store (<[x := with_enabled true nx1]> (store w1)) w1) in *.
  assert (nx1 = with_enabled false nx) as ->.
  { unfold w1 in Hnx1. simpl in Hnx1. rewrite lookup_insert_eq in Hnx1. congruence. }
  rewrite Hnx in Hcb. simpl in Hcb. injection Hcb as Hcb.
  assert (∀ links, x ∉ links → visits (store w1) links = visits (store w) links) as Hv1.
  { intros links Hl. apply visits_same_payload. intros a Ha.
    unfold w1. simpl. rewrite lookup_insert_ne; [done|]. by intros ->. }
  assert (∀ links, x ∉ links → visits (store w2) links = visits (store w) links) as Hv2.
  { intros links Hl. apply visits_same_payload. intros a Ha.
    unfold w2, w1. simpl. rewrite !lookup_insert_ne; [done|by intros ->..]. }
  assert (visits (store w1) (s :: l1 ++ x :: l2)
          = visits (store w) (s :: l1) ++ visits (store w) l2) as Hvis1.
  { rewrite app_comm_cons, visits_app. rewrite (visits_cons_inactive (store w1) x).
    - by rewrite !Hv1.
    - unfold active, w1. simpl. by rewrite lookup_insert_eq. }
  assert (visits (store w2) (s :: l1 ++ x :: l2)
          = visits (store w) (s :: l1) ++ [(x, f)] ++ visits (store w) l2) as Hvis2.
  { rewrite app_comm_cons, visits_app. rewrite (visits_cons_active (store w2) x f).
    - by rewrite !Hv2.
    - unfold active, w2, w1. simpl. rewrite lookup_insert_eq. simpl. by rewrite Hcb. }
  exists w1, w2. split_and!; try done.
  - intros w1' junk args Hst Hrg. eexists. split; [reflexivity|]. split.
    + apply cut_keeps. intros g Hin.
      apply elem_of_app in Hin as [Hin|Hin]; apply visits_at in Hin as [Hin _]; done.
    + rewrite (emit_cut val C w1' s (l1 ++ x :: l2)); [|by eapply at_rest_same_store|done].
      by rewrite Hst, Hvis1.
  - intros w2' junk args Hst Hrg. eexists. split; [reflexivity|]. split.
    + intros Hgo. rewrite cut_nonstop by done. rewrite <- Hvis2.
      apply visits_once; [done|by right|].
      unfold active, w2, w1. simpl. rewrite lookup_insert_eq. simpl. done.
    + rewrite (emit_cut val C w2' s (l1 ++ x :: l2)); [|by eapply at_rest_same_store|done].
      by rewrite Hst, Hvis2.
Qed.

End Toggle.

(** C7 on the ring of three, for the second connection, under the Vector
    collector: the results of the emissions are those of the first and the
    third callback, and then those of all three. *)
Lemma setEnabled_skips_then_restores_witness :
  ∃ w1 w2,
    setEnabled (mkRef (Some 2)) false ring3 = Done (tt, w1) ∧
    emit (pure_call own_name) (CollectorVector nat) 4 tt tt w1
    = Done ([10; 30], with_invoked (invoked w1 ++ [(1, 10); (3, 30)]) w1) ∧
    setEnabled (mkRef (Some 2)) true w1 = Done (tt, w2) ∧
    emit (pure_call own_name) (CollectorVector nat) 4 tt tt w2
    = Done ([10; 20; 30], with_invoked (invoked w2 ++ [(1, 10); (2, 20); (3, 30)]) w2).
Proof.
  destruct (setEnabled_skips_then_restores own_name (CollectorVector nat)
              ring3 0 [1] 2 [3] 20 4)
    as (w1 & w2 & Hset1 & _ & Hskip & Hset2 & _ & Hback).
  - by apply (bool_decide_unpack _).
  - reflexivity.
  - simpl. lia.
  - destruct (Hskip w1 tt tt eq_refl eq_refl) as (t1 & -> & _ & Hemit1).
    destruct (Hback w2 tt tt eq_refl eq_refl) as (t2 & -> & _ & Hemit2).
    exists w1, w2. split_and!; [exact Hset1|exact Hemit1|exact Hset2|exact Hemit2].
Defined.
